(** * HumGen3D haircards: a shallow embedding of [human/hair/haircards.py]

    The development follows the components of [HairCollection]:
    - [Numeric]: 3D vectors and the few numpy primitives the code relies on;
    - [QuadStrip]: the quad-strip mesh builder
      ([_calculate_segment_correction], [_calculate_perpendicular_vec],
      [_compute_new_ver_coordinaes], [_compute_new_face_vert_idxs] and the
      assembly at the end of [create_mesh]);
    - [Strands]: the strand extractor ([_walk_island],
      [_get_individual_hairs]);
    - [Classifier]: length buckets and downsampling at the head of
      [create_mesh];
    - [UVZones]: the zone choice of [_set_vert_group_uvs];
    - [Haircap]: density aggregation and vertex colour painting of
      [add_haircap].

    Coordinates and lengths are modelled by real numbers.  The density
    arrays of [add_haircap] are [float32] arrays whose entries are rounded
    to decimals: they are modelled by rationals with every operation
    rounded to binary32.  Vertex indices are natural numbers, face indices
    are integers. *)

From Stdlib Require Import ZArith QArith Qround Qminmax Qabs Qpower Reals Lra Lia.
From Stdlib Require Import List Permutation String.
From Stdlib Require Lqa.
From stdpp Require Import base option list strings gmap sets.

(* ===================================================================== *)
(** ** Numeric primitives *)
(* ===================================================================== *)

Module Numeric.

Local Open Scope R_scope.

(** A row of a numpy array of shape [(..., 3)]. *)
Definition vec : Type := R * R * R.

Definition vzero : vec := (0, 0, 0).

Definition vadd (a b : vec) : vec :=
  let '(ax, ay, az) := a in let '(bx, by_, bz) := b in
  (ax + bx, ay + by_, az + bz).

Definition vsub (a b : vec) : vec :=
  let '(ax, ay, az) := a in let '(bx, by_, bz) := b in
  (ax - bx, ay - by_, az - bz).

(** [v * s] with a scalar broadcast over the last axis. *)
Definition vscale (v : vec) (s : R) : vec :=
  let '(x, y, z) := v in (x * s, y * s, z * s).

(** [s * v], the scalar on the left. *)
Definition scalev (s : R) (v : vec) : vec :=
  let '(x, y, z) := v in (s * x, s * y, s * z).

(** [np.abs] on a row. *)
Definition vabs (v : vec) : vec :=
  let '(x, y, z) := v in (Rabs x, Rabs y, Rabs z).

(** [np.cross] on the last axis. *)
Definition cross (a b : vec) : vec :=
  let '(ax, ay, az) := a in let '(bx, by_, bz) := b in
  (ay * bz - az * by_, az * bx - ax * bz, ax * by_ - ay * bx).

(** [np.linalg.norm] of a row (also [mathutils.Vector.length]). *)
Definition norm (v : vec) : R :=
  let '(x, y, z) := v in sqrt (x * x + y * y + z * z).

(** Python's [a > b] and [a >= b] on floats, and numpy's [a < b]. *)
Definition Rgtb (a b : R) : bool := if Rlt_dec b a then true else false.
Definition Rgeb (a b : R) : bool := if Rle_dec b a then true else false.
Definition Rltb (a b : R) : bool := if Rlt_dec a b then true else false.

(** The least integer not below [x]. *)
Definition ceil (x : R) : Z := (1 - up (- x))%Z.

(** [np.arange(start, stop, step)]: [ceil((stop - start) / step)] values
    [start + j * step]. *)
Definition arange (start stop step : R) : list R :=
  map (fun j => start + INR j * step)
      (seq 0 (Z.to_nat (ceil ((stop - start) / step)))).

(** A numpy array of shape [(n, k, ...)] kept as a list of [n] rows of
    [k] entries each. *)
Definition shape {A : Type} (n k : nat) (a : list (list A)) : Prop :=
  length a = n /\ Forall (fun row => length row = k) a.

Definition shapeb {A : Type} (n k : nat) (a : list (list A)) : bool :=
  Nat.eqb (length a) n && forallb (fun row => Nat.eqb (length row) k) a.

(** Elementwise operation on two arrays of one shape. *)
Definition map2_2d {A B C : Type} (f : A -> B -> C)
    (a : list (list A)) (b : list (list B)) : list (list C) :=
  zip_with (zip_with f) a b.

End Numeric.

(* ===================================================================== *)
(** ** Quad-strip mesh builder *)
(* ===================================================================== *)

Module QuadStrip.

Import Numeric.

(** A face: four vertex indices (a row of an [int64] array of width 4). *)
Definition quad : Type := Z * Z * Z * Z.

Definition quad_indices (q : quad) : list Z :=
  let '(a, b, c, d) := q in [a; b; c; d].

(** [range(n)] for a Python int [n]. *)
Definition range (n : Z) : list Z := map Z.of_nat (seq 0 (Z.to_nat n)).

(** Two's complement wrap-around of an [int64] array operation. *)
Definition int64_wrap (z : Z) : Z := ((z + 2 ^ 63) mod 2 ^ 64 - 2 ^ 63)%Z.

(** The body of the double loop of [_compute_new_face_vert_idxs]. *)
Definition face_at (hair_co_len i j : Z) : quad :=
  let corr := (i * hair_co_len * 2)%Z in
  ((corr + j)%Z,
   (corr + j + 1)%Z,
   (corr + hair_co_len * 2 - j - 2)%Z,
   (corr + hair_co_len * 2 - j - 1)%Z).

(** [_compute_new_face_vert_idxs]: an array of shape
    [(len(hair_coords), hair_co_len - 1, 4)] and its copy.  [np.empty]
    refuses a negative dimension.  The entries are Python integers stored
    in an [int64] array; [face_at_bounds] shows them below [2 n k]. *)
Definition compute_new_face_vert_idxs {A : Type}
    (hair_co_len : nat) (hair_coords : list A)
  : option (list (list quad) * list (list quad)) :=
  if (Z.of_nat hair_co_len - 1 <? 0)%Z then None
  else
    let faces :=
      map (fun i => map (fun j => face_at (Z.of_nat hair_co_len) i j)
                        (range (Z.of_nat hair_co_len - 1)))
          (range (Z.of_nat (length hair_coords))) in
    let faces_parallel := faces in
    Some (faces, faces_parallel).

(** [faces_parallel + len(new_verts)]: an [int64] array plus a scalar. *)
Definition quad_offset (off : Z) (q : quad) : quad :=
  let '(a, b, c, d) := q in
  (int64_wrap (a + off), int64_wrap (b + off),
   int64_wrap (c + off), int64_wrap (d + off)).

Local Open Scope R_scope.

(** [_calculate_segment_correction]: the reversed
    [np.arange(0.01, 0.03, 0.02 / hair_co_len)], one scalar per point. *)
Definition calculate_segment_correction (hair_co_len : nat) : list R :=
  rev (arange 0.01 0.03 (0.02 / INR hair_co_len)).

(** [np.roll(row, -1)]: the row rotated one place to the left. *)
Definition roll_left {A : Type} (row : list A) : list A :=
  match row with
  | [] => []
  | x :: tl => tl ++ [x]
  end.

(** [row[-1] = row[-2]] on a row with at least two entries. *)
Definition copy_penultimate {A : Type} (row : list A) : list A :=
  match rev row with
  | _ :: p :: tl => rev (p :: p :: tl)
  | _ => row
  end.

Section Builder.

(** [HumGen3D.common.math.normalize] is not part of the sources at hand; it
    is applied to an array of vectors and is taken here row by row. *)
Variable normalize : vec -> vec.

(** [_calculate_perpendicular_vec]. *)
Definition calculate_perpendicular_vec (hair_co_len : nat)
    (hair_coords nearest_normals : list (list vec)) : list (list vec) :=
  let hair_keys_next_coords := map roll_left hair_coords in
  let hair_key_vectors :=
    map (map normalize) (map2_2d vsub hair_keys_next_coords hair_coords) in
  let hair_key_vectors :=
    if (1 <? hair_co_len)%nat then map copy_penultimate hair_key_vectors
    else hair_key_vectors in
  map2_2d cross nearest_normals hair_key_vectors.

(** The two [np.place] calls on the array of ones. *)
Definition length_correction_of (hair_length : R) : R :=
  let c := 1 in
  let c := if Rltb hair_length 0.01 then 0.8 else c in
  let c := if Rltb hair_length 0.005 then 0.6 else c in
  c.

(** [_compute_new_ver_coordinaes].  The arrays are combined elementwise, so
    numpy needs them to agree in shape: [(n, hair_co_len, 3)] for the three
    arrays, [hair_co_len] scalars in the segment correction.  Every other
    combination is reported as [None]. *)
Definition compute_new_ver_coordinaes (hair_co_len : nat)
    (hair_coords nearest_normals perpendicular : list (list vec))
  : option (list vec * list vec) :=
  let segment_correction := calculate_segment_correction hair_co_len in
  let n := length hair_coords in
  if negb (shapeb n hair_co_len hair_coords
           && shapeb n hair_co_len nearest_normals
           && shapeb n hair_co_len perpendicular
           && Nat.eqb (length segment_correction) hair_co_len
           && Nat.ltb 0 hair_co_len)
  then None
  else
    let hair_length :=
      map (fun h => norm (vsub (hd vzero h) (List.last h vzero))) hair_coords in
    let length_correction := map length_correction_of hair_length in
    let perpendicular_offset :=
      zip_with (fun row lc =>
                  zip_with (fun s p => vscale (scalev s p) lc)
                           segment_correction row)
               perpendicular length_correction in
    let head_normal_offset :=
      zip_with (fun row lc =>
                  zip_with (fun s nn => vscale (vscale (scalev s (vabs nn)) lc) 0.3)
                           segment_correction row)
               nearest_normals length_correction in
    let hair_coords_right := map2_2d vadd hair_coords perpendicular_offset in
    let hair_coords_left :=
      map2_2d vsub (map (@rev vec) hair_coords) perpendicular_offset in
    let hair_coords_top := map2_2d vadd hair_coords head_normal_offset in
    let hair_coords_bottom := map2_2d vsub hair_coords head_normal_offset in
    let new_verts := zip_with (@app vec) hair_coords_left hair_coords_right in
    let new_verts_parallel :=
      zip_with (@app vec) hair_coords_top hair_coords_bottom in
    Some (concat new_verts, concat new_verts_parallel).

(** The body of the last loop of [create_mesh], for one group of strands of
    [hair_co_len] points: the vertices and faces handed to
    [obj_from_pydata]. *)
Definition create_mesh_group (hair_co_len : nat)
    (hair_coords nearest_normals : list (list vec))
  : option (list vec * list quad) :=
  let perpendicular :=
    calculate_perpendicular_vec hair_co_len hair_coords nearest_normals in
  match compute_new_ver_coordinaes hair_co_len hair_coords nearest_normals
                                   perpendicular with
  | None => None
  | Some (new_verts, new_verts_parallel) =>
    match compute_new_face_vert_idxs hair_co_len hair_coords with
    | None => None
    | Some (faces, faces_parallel) =>
      let all_verts := new_verts ++ new_verts_parallel in
      let all_faces :=
        faces ++ map (map (quad_offset (Z.of_nat (length new_verts))))
                     faces_parallel in
      Some (all_verts, concat all_faces)
    end
  end.

End Builder.

End QuadStrip.

(* ===================================================================== *)
(** ** Hair strand extractor *)
(* ===================================================================== *)

Module Strands.

Import Numeric.

(** An edge of the bmesh, given by the indices of [edge.verts]. *)
Definition BMEdge : Type := nat * nat.

(** [edge.other_vert(vert)], for an edge out of [vert.link_edges]. *)
Definition other_vert (e : BMEdge) (vert : nat) : nat :=
  if Nat.eqb vert e.1 then e.2 else e.1.

(** The bmesh read from the hair object: [bm.verts], each vertex standing
    at the position of its [index] and carrying its [link_edges]. *)
Definition BMesh : Type := list (list BMEdge).

Definition link_edges (bm : BMesh) (vert : nat) : list BMEdge :=
  default [] (bm !! vert).

(** Indexing of a Python or numpy sequence by an integer, negative indices
    counting from the end; [None] is [IndexError]. *)
Definition py_index {A : Type} (l : list A) (i : Z) : option A :=
  if (0 <=? i)%Z then l !! Z.to_nat i
  else if (- Z.of_nat (length l) <=? i)%Z
       then l !! Z.to_nat (Z.of_nat (length l) + i)
       else None.

(** One step of the loop over [linked_verts] in [_walk_island]: a vertex
    tagged in the meantime is passed over, the others are walked and their
    indices yielded. *)
Definition walk_linked (walk : gset nat -> nat -> option (list nat * gset nat))
    (acc : option (list nat * gset nat)) (v : nat)
  : option (list nat * gset nat) :=
  match acc with
  | None => None
  | Some (yielded, tags) =>
    if decide (v ∈ tags) then Some (yielded, tags)
    else match walk tags v with
         | None => None
         | Some (more, tags') => Some (yielded ++ more, tags')
         end
  end.

(** [_walk_island]: the indices yielded by the generator when it is run to
    its end, and the [tag] flags it leaves behind, as the set of tagged
    vertices.  [fuel] bounds the depth of the recursion, as the
    interpreter's recursion limit does; [None] is the error raised when it
    is exceeded. *)
Fixpoint walk_island (fuel : nat) (bm : BMesh) (tags : gset nat) (vert : nat)
  : option (list nat * gset nat) :=
  match fuel with
  | O => None
  | S fuel' =>
    let tags := {[vert]} ∪ tags in
    let linked_verts :=
      filter (fun v => v ∉ tags)
             (map (fun e => other_vert e vert) (link_edges bm vert)) in
    fold_left (walk_linked (walk_island fuel' bm)) linked_verts
              (Some ([vert], tags))
  end.

(** The loop over [start_verts] in [_get_individual_hairs], run to its end
    as [list(...)] does in [__init__]. *)
Fixpoint hairs_loop (fuel : nat) (hair_coords : list vec) (bm : BMesh)
    (start_verts : list nat) (tags found_verts : gset nat)
  : option (list (list nat * R)) :=
  match start_verts with
  | [] => Some []
  | start_vert :: rest =>
    if decide (start_vert ∈ found_verts)
    then hairs_loop fuel hair_coords bm rest tags found_verts
    else
      match walk_island fuel bm tags start_vert with
      | None => None
      | Some (island_idxs, tags') =>
        match py_index island_idxs 0, py_index island_idxs (-2),
              py_index island_idxs (-1) with
        | Some first, Some before_last, Some last_idx =>
          match hair_coords !! first, hair_coords !! before_last with
          | Some co_first, Some co_before_last =>
            let length := norm (vsub co_first co_before_last) in
            match hairs_loop fuel hair_coords bm rest tags'
                             ({[last_idx]} ∪ found_verts) with
            | None => None
            | Some hairs => Some ((island_idxs, length) :: hairs)
            end
          | _, _ => None
          end
        | _, _, _ => None
        end
      end
  end.

(** [_get_individual_hairs] on a bmesh fresh from [from_mesh], no vertex
    tagged yet. *)
Definition get_individual_hairs (fuel : nat) (hair_coords : list vec)
    (bm : BMesh) : option (list (list nat * R)) :=
  let start_verts :=
    filter (fun v => length (link_edges bm v) = 1) (seq 0 (length bm)) in
  hairs_loop fuel hair_coords bm start_verts ∅ ∅.

(** [p] is a simple open edge path of the mesh: the edges linked to each of
    its vertices lead to the vertex before it and the vertex after it on
    [p], and nowhere else. *)
Definition linked_path (bm : BMesh) (p : list nat) : Prop :=
  forall l1 v l2, p = l1 ++ v :: l2 ->
    map (fun e => other_vert e v) (link_edges bm v)
    ≡ₚ option_list (last l1) ++ option_list (head l2).

(** The hair mesh is made of the paths [ps]: every vertex of the mesh lies
    on exactly one of them, and each is a simple open path of at least two
    vertices, its two ends being its only vertices with a single edge. *)
Record strand_mesh (ps : list (list nat)) (bm : BMesh) : Prop := {
  sm_two : Forall (fun p => 2 <= length p) ps;
  sm_nodup : NoDup (concat ps);
  sm_cover : forall v, v ∈ concat ps <-> v < length bm;
  sm_linked : Forall (linked_path bm) ps
}.

(** A strand as it is yielded: a path, from one end or from the other. *)
Definition oriented (strand p : list nat) : Prop :=
  strand = p \/ strand = reverse p.

(** The distance of two points as the specification words it. *)
Definition euclidean_distance (a b : vec) : R :=
  let '(ax, ay, az) := a in let '(bx, by_, bz) := b in
  sqrt ((ax - bx) ^ 2 + (ay - by_) ^ 2 + (az - bz) ^ 2)%R.

(** What the specification says of the [length] paired with a strand: the
    distance from its first recorded vertex to its second-to-last one. *)
Definition length_from_first_to_before_last (hair_coords : list vec)
    (hair : list nat * R) : Prop :=
  exists first before_last co_first co_before_last,
    2 <= length hair.1
    /\ hair.1 !! 0 = Some first
    /\ hair.1 !! (length hair.1 - 2) = Some before_last
    /\ hair_coords !! first = Some co_first
    /\ hair_coords !! before_last = Some co_before_last
    /\ hair.2 = euclidean_distance co_first co_before_last.

End Strands.

(* ===================================================================== *)
(** ** Strand classifier and downsampler *)
(* ===================================================================== *)

Module Classifier.

Import Numeric.

Local Open Scope R_scope.

(** The conditions of the three list comprehensions at the head of
    [create_mesh]. *)
Definition is_long (length : R) : bool := Rgtb length 0.1.
Definition is_medium (length : R) : bool :=
  Rgeb 0.1 length && Rgtb length 0.05.
Definition is_short (length : R) : bool := Rgeb 0.05 length.

Definition bucket {A : Type} (cond : R -> bool) (hairs : list (A * R))
  : list A :=
  map fst (List.filter (fun h => cond h.2) hairs).

Definition long_hairs {A : Type} (hairs : list (A * R)) : list A :=
  bucket is_long hairs.
Definition medium_hairs {A : Type} (hairs : list (A * R)) : list A :=
  bucket is_medium hairs.
Definition short_hairs {A : Type} (hairs : list (A * R)) : list A :=
  bucket is_short hairs.

(** The keys of [quality_dict]. *)
Inductive Quality : Type := ultra | high | medium | low.

(** An entry of [quality_dict]: three strides, the simplification epsilon
    and the last number. *)
Definition quality_entry : Type := nat * nat * nat * R * R.

Definition quality_dict (quality : Quality) : quality_entry :=
  match quality with
  | ultra => (1%nat, 5%nat, 6%nat, 0.002, 0.5)
  | high => (3%nat, 6%nat, 6%nat, 0.003, 1)
  | medium => (6%nat, 12%nat, 14%nat, 0.005, 1)
  | low => (15%nat, 20%nat, 20%nat, 0.005, 2)
  end.

(** [chosen_quality[i]] for the positions the loop reads, 0, 1 and 2. *)
Definition stride_at (chosen_quality : quality_entry) (i : nat) : nat :=
  let '(s0, s1, s2, _, _) := chosen_quality in
  match i with
  | O => s0
  | S O => s1
  | _ => s2
  end.

(** The entries of [l] at positions [skip], [skip + step],
    [skip + 2 * step], ... for [step >= 1]. *)
Fixpoint every_nth {A : Type} (step skip : nat) (l : list A) : list A :=
  match l with
  | [] => []
  | x :: tl =>
    match skip with
    | O => x :: every_nth step (step - 1) tl
    | S skip' => every_nth step skip' tl
    end
  end.

(** The slice [l[::step]]; a zero step is a [ValueError]. *)
Definition slice_step {A : Type} (l : list A) (step : nat) : option (list A) :=
  if Nat.eqb step 0 then None else Some (every_nth step 0 l).

(** The body of the loop over [enumerate((short_hairs, medium_hairs,
    long_hairs))]: what is appended to [all_hairs] for bucket [i]. *)
Definition retained {A : Type} (chosen_quality : quality_entry) (i : nat)
    (hair_list : list A) : option (list A) :=
  if (30 <? length hair_list)%nat
  then slice_step hair_list (stride_at chosen_quality i)
  else Some hair_list.

Definition extend_all {A : Type} (chosen_quality : quality_entry)
    (all_hairs : option (list A)) (entry : nat * list A) : option (list A) :=
  match all_hairs with
  | None => None
  | Some hairs =>
    match retained chosen_quality entry.1 entry.2 with
    | None => None
    | Some kept => Some (hairs ++ kept)
    end
  end.

(** [create_mesh] up to the list [all_hairs] handed to the curve
    simplification. *)
Definition create_mesh_all_hairs {A : Type} (quality : Quality) (hairs : list (A * R))
  : option (list A) :=
  let chosen_quality := quality_dict quality in
  fold_left (extend_all chosen_quality)
            [(0, short_hairs hairs); (1, medium_hairs hairs);
             (2, long_hairs hairs)]%nat
            (Some []).


(** The length class the specification names for a length. *)
Inductive length_class : Type := short_class | medium_class | long_class.

Definition spec_length_class (length : R) : length_class :=
  if Rle_dec length 0.05 then short_class
  else if Rle_dec length 0.1 then medium_class
  else long_class.

Definition class_flags (c : length_class) : bool * bool * bool :=
  match c with
  | short_class => (true, false, false)
  | medium_class => (false, true, false)
  | long_class => (false, false, true)
  end.

(** What the specification says is kept of a bucket under stride [n]: the
    strands at indices 0, [n], [2 n], ... when the bucket holds more than 30
    strands, the whole bucket otherwise. *)
Definition kept_every_nth {A : Type} (n : nat) (hair_list kept : list A)
  : Prop :=
  ((30 < length hair_list)%nat ->
     forall j : nat, kept !! j = hair_list !! (j * n)%nat)
  /\ ((length hair_list <= 30)%nat -> kept = hair_list).

End Classifier.

(* ===================================================================== *)
(** ** UV zone mapper *)
(* ===================================================================== *)

Module UVZones.

Import Numeric.

Local Open Scope R_scope.

(** A JSON object read by [json.load]: keys in the order of the file. *)
Definition dict (V : Type) : Type := list (string * V).

(** [d[key]]; [None] is [KeyError]. *)
Fixpoint dict_get {V : Type} (key : string) (d : dict V) : option V :=
  match d with
  | [] => None
  | (k, v) :: tl => if String.eqb k key then Some v else dict_get key tl
  end.

(** [list(d.values())]. *)
Definition dict_values {V : Type} (d : dict V) : list V := map snd d.

(** A rectangle [[[x0, y0], [x1, y1]]] of the atlas. *)
Definition zone : Type := list (list R).

(** [hairzone_uv_dict]: length class, then zone group, then width class. *)
Definition atlas : Type := dict (dict (dict (list zone))).

(** [random.choice(seq)] when the random source draws [r]: the entry at
    [r] reduced below [len(seq)]; [None] is the [IndexError] on an empty
    sequence. *)
Definition choice {A : Type} (r : nat) (seq : list A) : option A :=
  seq !! (r mod length seq)%nat.

(** The zone choice of [_set_vert_group_uvs] for one strand of measured
    [length] and [width]; [r1] and [r2] are the two draws of the random
    source. *)
Definition choose_zone (hairzone_uv_dict : atlas) (length width : R)
    (r1 r2 : nat) : option zone :=
  if Rgtb length 0.05 then
    table ← dict_get "long" hairzone_uv_dict;
    subdict ← choice r1 (dict_values table);
    if Rgtb width 0.02 then
      zones ← dict_get "wide" subdict; choice r2 zones
    else
      zones ← dict_get "narrow" subdict; choice r2 zones
  else
    table ← dict_get "short" hairzone_uv_dict;
    subdict ← choice r1 (dict_values table);
    if Rgtb width 0.01 then
      zones ← dict_get "wide" subdict; choice r2 zones
    else
      zones ← dict_get "narrow" subdict; choice r2 zones.

(** [range(0, n, step)] for [step >= 1]. *)
Definition range_step (n step : nat) : list nat :=
  map (fun c => c * step)%nat (seq 0 ((n + step - 1) / step)).

(** [verts[i : i + vert_count]]. *)
Definition hair_verts_at (verts : list vec) (i vert_count : nat) : list vec :=
  take vert_count (drop i verts).

(** [length] and [width] as the loop measures them on the vertices of one
    strand; [None] is an [IndexError]. *)
Definition measure (vert_len : nat) (hair_verts : list vec) : option (R * R) :=
  first ← hair_verts !! 0%nat;
  mid ← hair_verts !! vert_len;
  final ← last hair_verts;
  Some (norm (vsub first mid), norm (vsub first final)).

(** The bucket of the atlas the specification names for a strand. *)
Definition spec_length_key (length : R) : string :=
  if Rlt_dec 0.05 length then "long" else "short".

Definition spec_width_key (length width : R) : string :=
  if Rlt_dec 0.05 length
  then (if Rlt_dec 0.02 width then "wide" else "narrow")
  else (if Rlt_dec 0.01 width then "wide" else "narrow").

(** [z] is one of the rectangles of the bucket that matches the measured
    [length] and [width], in one of the zone groups of the atlas. *)
Definition from_matching_bucket (hairzone_uv_dict : atlas) (length width : R)
    (z : zone) : Prop :=
  exists table subdict zones,
    dict_get (spec_length_key length) hairzone_uv_dict = Some table
    /\ subdict ∈ dict_values table
    /\ dict_get (spec_width_key length width) subdict = Some zones
    /\ z ∈ zones.

End UVZones.

(* ===================================================================== *)
(** ** Haircap density colours *)
(* ===================================================================== *)

Module Haircap.

Local Open Scope Q_scope.

(** An RGBA colour of the colour attribute. *)
Definition color : Type := Q * Q * Q * Q.

(** A vertex group: the weight of each vertex assigned to it.
    [vg.weight(i)] raises [RuntimeError] for the others. *)
Definition VertexGroup : Type := gmap nat Q.

Definition weight (vg : VertexGroup) (i : nat) : option Q := vg !! i.

(** [vg_values] and [vg_aggregate] are [float32] arrays.  A finite binary32
    value is kept as the rational number it denotes, and every operation
    on the arrays rounds its exact result to the nearest binary32 value,
    ties to the even significand.  Infinities and NaN are left out: a sum
    of vertex weights, which lie in [[0, 1]], stays far below the largest
    binary32 value. *)

(** Round half to even, as [np.rint]. *)
Definition rint (q : Q) : Z :=
  let f := Qfloor q in
  match Qcompare (q - inject_Z f) (1 # 2) with
  | Lt => f
  | Gt => (f + 1)%Z
  | Eq => if Z.even f then f else (f + 1)%Z
  end.

(** The exponent of the leading bit of a positive [q]. *)
Definition ilog2 (q : Q) : Z :=
  let k := (Z.log2 (Qnum q) - Z.log2 (Zpos (Qden q)))%Z in
  if Qle_bool (2 ^ k) q then k else (k - 1)%Z.

(** The exponent of the last place of the binary32 values around [q]: 24
    significant bits, and never below that of the subnormal numbers. *)
Definition f32_exponent (q : Q) : Z := Z.max (ilog2 (Qabs q) - 23) (-149).

(** Rounding to binary32. *)
Definition f32_round (q : Q) : Q :=
  if Qeq_bool q 0 then 0
  else let e := f32_exponent q in
       Qred (inject_Z (rint (q / 2 ^ e)) * 2 ^ e).

(** [a + b], [a * b] and [a / b] on [float32] operands. *)
Definition f32_add (a b : Q) : Q := f32_round (a + b).
Definition f32_mul (a b : Q) : Q := f32_round (a * b).
Definition f32_div (a b : Q) : Q := f32_round (a / b).

(** The inner loop of [add_haircap]: zeros, overwritten where the lookup
    does not raise; the Python float is stored into the [float32] array. *)
Definition vg_values_of (vert_count : nat) (vg : VertexGroup) : list Q :=
  map (fun i => match weight vg i with
                | Some w => f32_round w
                | None => 0
                end)
      (seq 0 vert_count).

(** [vg_aggregate] after the loop over the groups: [vg_aggregate +=
    vg_values], once per group. *)
Definition vg_sum_of (vert_count : nat)
    (density_vertex_groups : list VertexGroup) : list Q :=
  fold_left (fun agg vg => zip_with f32_add agg (vg_values_of vert_count vg))
            density_vertex_groups (replicate vert_count 0).

(** [np.round(x, 4)] on a [float32] entry: multiply by [10^4], [rint],
    divide by [10^4], each in [float32]. *)
Definition round4 (x : Q) : Q :=
  f32_div (inject_Z (rint (f32_mul x 10000))) 10000.

(** [np.clip(q, 0, 1)]. *)
Definition clip01 (q : Q) : Q := Qmin (Qmax q 0) 1.

(** [vg_aggregate] of [add_haircap]. *)
Definition vg_aggregate_of (vert_count : nat)
    (density_vertex_groups : list VertexGroup) : list Q :=
  let vg_aggregate := vg_sum_of vert_count density_vertex_groups in
  let vg_aggregate := map round4 vg_aggregate in
  map clip01 vg_aggregate.

(** [vc.data[i].color = c]; [None] is an [IndexError]. *)
Definition set_color (data : list color) (i : nat) (c : color)
  : option (list color) :=
  if (i <? length data)%nat then Some (<[i := c]> data) else None.

(** An edge of the haircap bmesh. *)
Record BMEdge : Type := {
  verts : nat * nat;
  is_boundary : bool
}.

Section Painting.

(** The points of the haircap and the nearest-vertex query of the k-d tree
    built over the body ([self.kd.find(co)[1]]); neither is part of the
    sources at hand. *)
Variable point : Type.
Variable kd_find : point -> nat.

(** The loop over [enumerate(haircap_world_coords)], from index [i] on. *)
Fixpoint paint_density_from (i : nat) (vg_aggregate : list Q)
    (haircap_world_coords : list point) (data : list color)
  : option (list color) :=
  match haircap_world_coords with
  | [] => Some data
  | vert_world_co :: rest =>
    let nearest_vert_index := kd_find vert_world_co in
    value ← vg_aggregate !! nearest_vert_index;
    data ← set_color data i (value, value, value, 1);
    paint_density_from (S i) vg_aggregate rest data
  end.

Definition paint_density (vg_aggregate : list Q)
    (haircap_world_coords : list point) (data : list color)
  : option (list color) :=
  paint_density_from 0 vg_aggregate haircap_world_coords data.

(** The loop over [bm.edges]. *)
Fixpoint zero_boundary (edges : list BMEdge) (data : list color)
  : option (list color) :=
  match edges with
  | [] => Some data
  | edge :: rest =>
    if is_boundary edge then
      let '(v1, v2) := verts edge in
      data ← set_color data v1 (0, 0, 0, 1);
      data ← set_color data v2 (0, 0, 0, 1);
      zero_boundary rest data
    else zero_boundary rest data
  end.

(** The colours left by [add_haircap] in the colour attribute [data] of
    the haircap. *)
Definition add_haircap_colors (vert_count : nat)
    (density_vertex_groups : list VertexGroup)
    (haircap_world_coords : list point) (edges : list BMEdge)
    (data : list color) : option (list color) :=
  let vg_aggregate := vg_aggregate_of vert_count density_vertex_groups in
  data ← paint_density vg_aggregate haircap_world_coords data;
  zero_boundary edges data.

End Painting.

End Haircap.

(* ===================================================================== *)
(** ** The density arithmetic, stated apart from the code *)
(* ===================================================================== *)

Module DensitySpec.

Local Open Scope Q_scope.

(** [n] is the integer nearest to [t], the even one of the two when [t] is
    half-way between them. *)
Definition nearest_int_even (t : Q) (n : Z) : Prop :=
  Qabs (t - inject_Z n) <= 1 # 2
  /\ (Qabs (t - inject_Z n) == 1 # 2 -> Z.even n = true).

(** [y] is [t] rounded to binary32: at the exponent [e] that leaves [t] 24
    significant bits (or at the exponent -149 of the subnormal numbers
    when [t] is too small for that), [y] is the multiple of [2^e] nearest
    to [t], ties to the even multiple. *)
Definition binary32_of (t y : Q) : Prop :=
  exists m e : Z,
    (-149 <= e)%Z
    /\ Qabs t < 2 ^ (e + 24)
    /\ ((-149 < e)%Z -> 2 ^ (e + 23) <= Qabs t)
    /\ nearest_int_even (t / 2 ^ e) m
    /\ y == inject_Z m * 2 ^ e.

(** [s] is the [float32] sum of the weights [ws] added one after the other
    to [acc], each weight stored as binary32 first. *)
Fixpoint binary32_sum_from (acc : Q) (ws : list Q) (s : Q) : Prop :=
  match ws with
  | [] => s == acc
  | w :: rest =>
    exists v acc',
      binary32_of w v /\ binary32_of (acc + v) acc'
      /\ binary32_sum_from acc' rest s
  end.

(** [y] is [x] clamped to [[0, 1]]. *)
Definition clamped01 (x y : Q) : Prop :=
  (x <= 0 -> y == 0) /\ (1 <= x -> y == 1) /\ (0 <= x <= 1 -> y == x).

(** The weights of body vertex [i] in the groups, 0 for a group it is not
    assigned to. *)
Definition weights_at (density_vertex_groups : list Haircap.VertexGroup)
    (i : nat) : list Q :=
  map (fun vg => default 0 (vg !! i)) density_vertex_groups.

(** [a] is the aggregate density of weights [ws] as [add_haircap] computes
    it in [float32]: the running sum, the product with [10^4], its nearest
    integer, the quotient by [10^4], and the clamp. *)
Definition float32_density (ws : list Q) (a : Q) : Prop :=
  exists s p n r,
    binary32_sum_from 0 ws s
    /\ binary32_of (s * 10000) p
    /\ nearest_int_even p n
    /\ binary32_of (inject_Z n / 10000) r
    /\ clamped01 r a.

(** The aggregate density as the specification words it, in exact
    arithmetic: [a] is the sum of the weights, rounded to a nearest
    multiple of 0.0001 and clamped to [[0, 1]]. *)
Definition rounded_to_4_decimals (x y : Q) : Prop :=
  exists n : Z, y == inject_Z n / 10000 /\ Qabs (x - y) <= 1 # 20000.

Definition exact_density (ws : list Q) (a : Q) : Prop :=
  exists y,
    rounded_to_4_decimals (fold_left Qplus ws 0) y /\ clamped01 y a.

End DensitySpec.

(* ===================================================================== *)
(** ** Sample inputs *)
(* ===================================================================== *)

Module Samples.

Import Numeric Strands.

Local Open Scope R_scope.

(** One strand of two points along the z axis, scalp normal along x. *)
Definition sample_hair_coords : list (list vec) := [[(0, 0, 0); (0, 0, 1)]].
Definition sample_normals : list (list vec) := [[(1, 0, 0); (1, 0, 0)]].

(** A hair mesh of two strands: the path 0 - 1 - 2 along the x axis and the
    single edge 3 - 4 along the y axis. *)
Definition sample_bm : BMesh :=
  [[(0, 1)]; [(0, 1); (1, 2)]; [(1, 2)]; [(3, 4)]; [(3, 4)]]%nat.
Definition sample_paths : list (list nat) := [[0; 1; 2]; [3; 4]]%nat.
Definition sample_coords : list vec :=
  [(0, 0, 0); (1, 0, 0); (2, 0, 0); (0, 1, 0); (0, 2, 0)].

(** An atlas of one zone group per length class, and one card of two
    vertices one unit apart. *)
Definition zone_long_wide : UVZones.zone := [[0; 0]; [0.5; 1]].
Definition zone_long_narrow : UVZones.zone := [[0.5; 0]; [0.6; 1]].
Definition zone_short_wide : UVZones.zone := [[0.6; 0]; [0.9; 0.5]].
Definition zone_short_narrow : UVZones.zone := [[0.9; 0]; [1; 0.5]].

Definition sample_atlas : UVZones.atlas :=
  [("long"%string,
    [("zone_a"%string, [("wide"%string, [zone_long_wide]);
                        ("narrow"%string, [zone_long_narrow])])]);
   ("short"%string,
    [("zone_b"%string, [("wide"%string, [zone_short_wide]);
                        ("narrow"%string, [zone_short_narrow])])])].

Definition sample_card : list vec := [(0, 0, 0); (1, 0, 0)].

(** Two density groups over a body of two vertices: vertex 0 weighs 0.3 in
    the first and 0.4 in the second, vertex 1 is in neither.  A haircap of
    three vertices, all nearest to body vertex 0, with one boundary edge. *)
Definition group_a : Haircap.VertexGroup := {[ 0%nat := (3 # 10)%Q ]}.
Definition group_b : Haircap.VertexGroup := {[ 0%nat := (4 # 10)%Q ]}.
Definition sample_cap_points : list nat := [0; 0; 0]%nat.
Definition sample_cap_edges : list Haircap.BMEdge :=
  [ {| Haircap.verts := (0, 1)%nat; Haircap.is_boundary := true |};
    {| Haircap.verts := (1, 2)%nat; Haircap.is_boundary := false |} ].
Definition sample_cap_data : list Haircap.color :=
  replicate 3 (1, 1, 1, 1)%Q.

(** A group that gives body vertex 0 the binary32 value nearest to
    0.00025, which lies a little above it. *)
Definition near_tie_group : Haircap.VertexGroup :=
  {[ 0%nat := (8589935 # 34359738368)%Q ]}.

End Samples.

From Stdlib Require Import Sorted.
From Stdlib Require Lqa.

(* ===================================================================== *)
(** ** Mesh adjacency and region growing *)
(* ===================================================================== *)

Module Topology.

Import Strands.

(** The vertices reached from [vert] over its [link_edges]. *)
Definition neighbours (bm : BMesh) (vert : nat) : list nat :=
  map (fun e => other_vert e vert) (link_edges bm vert).

(** A set of tagged vertices that holds the neighbours of each of its
    members: what a finished walk leaves behind. *)
Definition closed_tags (bm : BMesh) (tags : gset nat) : Prop :=
  forall x y, x ∈ tags -> y ∈ neighbours bm x -> y ∈ tags.

(** A strand as [_get_individual_hairs] can yield it: at least two indices,
    the first one a vertex with a single edge. *)
Definition starts_at_tip (bm : BMesh) (hair : list nat) : Prop :=
  2 <= length hair
  /\ exists s, head hair = Some s /\ length (link_edges bm s) = 1.

(** The only vertices of [hair] with a single edge are its first and its
    last one. *)
Definition tips_at_ends (bm : BMesh) (hair : list nat) : Prop :=
  forall x, x ∈ hair -> length (link_edges bm x) = 1 ->
    head hair = Some x \/ last hair = Some x.

(** [np.unique]: the values in increasing order, each once. *)
Fixpoint insert_sorted (x : Z) (l : list Z) : list Z :=
  match l with
  | [] => [x]
  | y :: tl =>
    if (x <? y)%Z then x :: l
    else if (x =? y)%Z then l
    else y :: insert_sorted x tl
  end.

Definition np_unique (l : list Z) : list Z := foldr insert_sorted [] l.

(** [bm.verts[vert_idx]]: the index of the vertex found, a negative
    [vert_idx] counting from the end; [None] is an [IndexError]. *)
Definition bm_vert (bm : BMesh) (vert_idx : Z) : option nat :=
  py_index (seq 0 (length bm)) vert_idx.

(** One turn of the loop of [expand_region] over [vert_idxs]. *)
Definition other_verts_update (bm : BMesh) (acc : option (gset nat))
    (vert_idx : Z) : option (gset nat) :=
  other_verts ← acc;
  v ← bm_vert bm vert_idx;
  Some (other_verts ∪ list_to_set (neighbours bm v)).

(** [expand_region]: the given vertex indices and the indices of the
    vertices linked to them, as [np.unique] returns them.  The set
    [other_verts] is listed in the order of [elements]. *)
Definition expand_region (bm : BMesh) (vert_idxs : list Z)
  : option (list Z) :=
  other_verts ← foldl (other_verts_update bm) (Some ∅) vert_idxs;
  let with_added_verts :=
    vert_idxs ++ map Z.of_nat (elements other_verts) in
  Some (np_unique with_added_verts).

(** [z] is the index of a vertex linked to one of the vertices named by
    [vert_idxs]. *)
Definition linked_to (bm : BMesh) (vert_idxs : list Z) (z : Z) : Prop :=
  exists i v w,
    i ∈ vert_idxs /\ bm_vert bm i = Some v /\ w ∈ neighbours bm v
    /\ z = Z.of_nat w.

(** An index [bm.verts] accepts. *)
Definition valid_index (bm : BMesh) (i : Z) : Prop :=
  (- Z.of_nat (length bm) <= i < Z.of_nat (length bm))%Z.

(** What one walk does, whatever the mesh: the vertex itself comes first,
    everything after it is new and yielded once, the tags grow by what was
    yielded, and every neighbour of a yielded vertex ends up tagged. *)
Definition walk_post (bm : BMesh) (tags : gset nat) (vert : nat)
    (out : list nat) (tags' : gset nat) : Prop :=
  exists rest,
    out = vert :: rest
    /\ NoDup rest
    /\ (forall x, x ∈ rest -> x <> vert /\ x ∉ tags)
    /\ tags' = list_to_set out ∪ tags
    /\ forall x y, x ∈ out -> y ∈ neighbours bm x -> y ∈ tags'.

End Topology.

(* ===================================================================== *)
(** ** [create_mesh]: simplification, grouping and assembly *)
(* ===================================================================== *)

Module CreateMesh.

Import Numeric QuadStrip Classifier.

(** [arr[mask]] for a boolean mask: the entries where the mask holds; a mask
    of another length is an [IndexError]. *)
Definition mask_select {A : Type} (arr : list A) (mask : list bool)
  : option (list A) :=
  if Nat.eqb (length mask) (length arr)
  then Some (map fst (List.filter snd (combine arr mask)))
  else None.

(** [arr[idxs]] for an array of indices; an index past the end is an
    [IndexError]. *)
Definition gather {A : Type} (arr : list A) (idxs : list nat)
  : option (list A) :=
  mapM (fun i => arr !! i) idxs.

(** [d.setdefault(key, []).append(hair)] on a dict kept in insertion
    order. *)
Fixpoint setdefault_append {A : Type} (key : nat) (hair : A)
    (d : list (nat * list A)) : list (nat * list A) :=
  match d with
  | [] => [(key, [hair])]
  | (k, hairs) :: tl =>
    if Nat.eqb k key then (k, hairs ++ [hair]) :: tl
    else (k, hairs) :: setdefault_append key hair tl
  end.

(** [hair_len_dict] after the loop over the simplified strands. *)
Definition group_by_len (hairs : list (list nat))
  : list (nat * list (list nat)) :=
  fold_left (fun d hair_vert_idxs =>
               setdefault_append (length hair_vert_idxs) hair_vert_idxs d)
            hairs [].

(** [chosen_quality[3]], the simplification epsilon. *)
Definition epsilon_of (chosen_quality : quality_entry) : R :=
  let '(_, _, _, epsilon, _) := chosen_quality in epsilon.

Section WithHelpers.

(** [HumGen3D.common.math.normalize] and [HumGen3D.extern.rdp.rdp] (called
    with [return_mask=True]) are not part of the sources at hand. *)
Variable normalize : vec -> vec.
Variable rdp : list vec -> R -> list bool.

(** The strands of [all_hairs] after curve simplification. *)
Definition rdp_downsized (chosen_quality : quality_entry)
    (hair_coords : list vec) (all_hairs : list (list nat))
  : option (list (list nat)) :=
  mapM (fun hair_vert_idxs =>
          co ← gather hair_coords hair_vert_idxs;
          mask_select hair_vert_idxs (rdp co (epsilon_of chosen_quality)))
       all_hairs.

(** One turn of the last loop: the arrays of the group are gathered and the
    object is built. *)
Definition create_mesh_object (hair_coords nearest_normals : list vec)
    (entry : nat * list (list nat))
  : option (nat * (list vec * list quad)) :=
  let '(hair_co_len, hair_vert_idxs) := entry in
  coords ← mapM (gather hair_coords) hair_vert_idxs;
  normals ← mapM (gather nearest_normals) hair_vert_idxs;
  obj ← create_mesh_group normalize hair_co_len coords normals;
  Some (hair_co_len, obj).

(** [create_mesh], run to its end: the objects in the order they are
    yielded, each under its key in [self.objects]. *)
Definition create_mesh (quality : Quality) (hair_coords nearest_normals : list vec)
    (hairs : list (list nat * R))
  : option (list (nat * (list vec * list quad))) :=
  let chosen_quality := quality_dict quality in
  all_hairs ← create_mesh_all_hairs quality hairs;
  rdp_downsized_hair_co_idxs ←
    rdp_downsized chosen_quality hair_coords all_hairs;
  let hair_len_dict := group_by_len rdp_downsized_hair_co_idxs in
  mapM (create_mesh_object hair_coords nearest_normals) hair_len_dict.

End WithHelpers.

(** What the grouping is meant to give: under each key the strands of that
    many points, in the order they came, and no empty group. *)
Definition grouped_by_len (hairs : list (list nat))
    (d : list (nat * list (list nat))) : Prop :=
  NoDup d.*1
  /\ (forall k group, (k, group) ∈ d ->
        group <> [] /\ group = filter (fun h => length h = k) hairs)
  /\ forall h, h ∈ hairs -> length h ∈ d.*1.

(** What [create_mesh] needs of the simplification: a mask of one entry per
    point that keeps at least one point of a strand that has any. *)
Definition rdp_mask_ok (rdp : list vec -> R -> list bool) : Prop :=
  forall points epsilon,
    length (rdp points epsilon) = length points
    /\ (points <> [] -> true ∈ rdp points epsilon).

(** A strand that [create_mesh] can index with: not empty, and every index
    within both per-vertex arrays. *)
Definition hair_in_range (hair_coords nearest_normals : list vec)
    (hair : list nat) : Prop :=
  hair <> []
  /\ Forall (fun i => i < length hair_coords /\ i < length nearest_normals)
            hair.

End CreateMesh.

(* ===================================================================== *)
(** ** Geometry of the ribbons *)
(* ===================================================================== *)

Module Ribbon.

Import Numeric QuadStrip.

Local Open Scope R_scope.

(** The scalar product of two rows. *)
Definition dot (a b : vec) : R :=
  let '(ax, ay, az) := a in let '(bx, by_, bz) := b in
  ax * bx + ay * by_ + az * bz.

(** The entry [[i, j]] of an array of shape [(n, k, ...)]. *)
Definition at2 {A : Type} (a : list (list A)) (i j : nat) : option A :=
  row ← a !! i; row !! j.

(** The entry of [length_correction] for a strand: 1, 0.8 or 0.6 by the
    distance between its first and its last point. *)
Definition row_length_correction (row : list vec) : R :=
  length_correction_of (norm (vsub (hd vzero row) (List.last row vzero))).

(** An entry of [perpendicular_offset] and of [head_normal_offset]: from the
    scalar [s] of the segment correction, the perpendicular [p] or the
    scalp normal at the point, and the length correction [lc] of the
    strand. *)
Definition perpendicular_offset_at (s : R) (p : vec) (lc : R) : vec :=
  vscale (scalev s p) lc.

Definition head_normal_offset_at (s : R) (normal : vec) (lc : R) : vec :=
  vscale (vscale (scalev s (vabs normal)) lc) 0.3.

(** Point [m] of a strand and the two offsets computed for it. *)
Definition strand_point (row : list vec) (m : nat) : vec :=
  default vzero (row !! m).

Definition perpendicular_offset_of (k : nat) (row prow : list vec)
    (m : nat) : vec :=
  perpendicular_offset_at
    (default 0 (calculate_segment_correction k !! m))
    (default vzero (prow !! m)) (row_length_correction row).

Definition head_normal_offset_of (k : nat) (row nrow : list vec)
    (m : nat) : vec :=
  head_normal_offset_at
    (default 0 (calculate_segment_correction k !! m))
    (default vzero (nrow !! m)) (row_length_correction row).

(** The vertex a face index names. *)
Definition corner_of (verts : list vec) (idx : Z) : option vec :=
  verts !! Z.to_nat idx.

End Ribbon.

(* ===================================================================== *)
(** ** Haircap colours and zone choice: when they complete *)
(* ===================================================================== *)

Module Completion.

Import Numeric UVZones Haircap.

(** [v] is a vertex of a boundary edge. *)
Definition on_boundary (edges : list BMEdge) (v : nat) : Prop :=
  exists edge, edge ∈ edges /\ is_boundary edge = true
               /\ (v = (verts edge).1 \/ v = (verts edge).2).

(** What the painting of the haircap indexes with: a colour entry for
    every haircap point, a body vertex within the aggregate for every
    nearest-vertex answer, and a colour entry for both vertices of every
    boundary edge. *)
Definition haircap_indices_ok {point : Type} (kd_find : point -> nat)
    (vert_count : nat) (haircap_world_coords : list point)
    (edges : list BMEdge) (data : list color) : Prop :=
  length haircap_world_coords <= length data
  /\ Forall (fun co => kd_find co < vert_count) haircap_world_coords
  /\ Forall (fun edge => is_boundary edge = true ->
                         (verts edge).1 < length data
                         /\ (verts edge).2 < length data) edges.

(** An atlas with both length tables, each with at least one zone group,
    each group with a non-empty "wide" and a non-empty "narrow" list. *)
Definition group_complete (subdict : dict (list zone)) : Prop :=
  (exists zones, dict_get "wide" subdict = Some zones /\ zones <> [])
  /\ exists zones, dict_get "narrow" subdict = Some zones /\ zones <> [].

Definition table_complete (hairzone_uv_dict : atlas) (key : string) : Prop :=
  exists table,
    dict_get key hairzone_uv_dict = Some table
    /\ table <> [] /\ Forall group_complete (dict_values table).

Definition atlas_complete (hairzone_uv_dict : atlas) : Prop :=
  table_complete hairzone_uv_dict "long"
  /\ table_complete hairzone_uv_dict "short".

End Completion.

(* ===================================================================== *)
(** ** UV layout: loops, vertex pairs and UV writes *)
(* ===================================================================== *)

Module UVLayout.

Import Numeric QuadStrip UVZones.

Local Open Scope R_scope.

(** A UV coordinate [loop.uv]. *)
Definition uv : Type := R * R.

(** A polygon of the mesh: [poly.vertices] and [poly.loop_indices].  A loop
    is kept by its index in [uv_layer.data], which has one entry per loop
    of the mesh. *)
Record MeshPolygon : Type := {
  vertices : list nat;
  loop_indices : list nat
}.

(** The body of the inner loop of [_create_vert_loop_dict]. *)
Definition add_loop (vert_loop_dict : gmap nat (list nat))
    (entry : nat * nat) : gmap nat (list nat) :=
  let '(vert_idx, loop) := entry in
  match vert_loop_dict !! vert_idx with
  | None => <[vert_idx := [loop]]> vert_loop_dict
  | Some loops => <[vert_idx := loops ++ [loop]]> vert_loop_dict
  end.

(** [_create_vert_loop_dict]. *)
Definition create_vert_loop_dict (polygons : list MeshPolygon)
  : gmap nat (list nat) :=
  fold_left (fun d poly =>
               fold_left add_loop
                         (zip (vertices poly) (loop_indices poly)) d)
            polygons ∅.

(** The loops of the corners that sit on vertex [v], polygon after
    polygon. *)
Definition corners (polygons : list MeshPolygon) : list (nat * nat) :=
  concat (map (fun poly => zip (vertices poly) (loop_indices poly))
              polygons).

Definition loops_of (polygons : list MeshPolygon) (v : nat) : list nat :=
  (filter (fun e => e.1 = v) (corners polygons)).*2.

(** The dictionary [d] holds, under each vertex that has one, the loops of
    the corners [cs] on that vertex, and has no other key. *)
Definition dict_models (d : gmap nat (list nat)) (cs : list (nat * nat))
  : Prop :=
  forall v,
    d !! v = match (filter (fun e => e.1 = v) cs).*2 with
             | [] => None
             | l => Some l
             end.

(** [for loop in loops: loop.uv = value]. *)
Definition set_loops_uv (data : list uv) (loops : list nat) (value : uv)
  : list uv :=
  fold_left (fun d loop => <[loop := value]> d) loops data.

(** The v coordinate given to the [i]-th pair of a card of [vert_len]
    points in a zone between [y_min] and [y_max]. *)
Definition pair_v (y_min y_max : R) (vert_len i : nat) : R :=
  let y_diff := y_max - y_min in
  let y_relative := INR i / INR (vert_len - 1) in
  y_min + y_diff * y_relative.

(** One turn of the loop over [enumerate(vert_pairs)]; [None] is a
    [KeyError], an [IndexError] or the [ZeroDivisionError] of
    [i / (vert_len - 1)]. *)
Definition set_pair_uvs (vert_loop_dict : gmap nat (list nat))
    (vert_len : nat) (bottom_left top_right : list R)
    (acc : option (list uv)) (entry : nat * (nat * nat))
  : option (list uv) :=
  let '(i, (vert_left, vert_right)) := entry in
  data ← acc;
  left_loops ← vert_loop_dict !! vert_left;
  right_loops ← vert_loop_dict !! vert_right;
  x_min ← bottom_left !! 0%nat;
  x_max ← top_right !! 0%nat;
  y_min ← bottom_left !! 1%nat;
  y_max ← top_right !! 1%nat;
  if Nat.eqb (vert_len - 1) 0 then None
  else
    let data :=
      set_loops_uv data left_loops (x_max, pair_v y_min y_max vert_len i) in
    Some (set_loops_uv data right_loops
                       (x_min, pair_v y_min y_max vert_len i)).

(** [vert_pairs] for the card that starts at vertex [i]: the indices of the
    first [vert_len] vertices against those of the others, last first. *)
Definition vert_pairs (n_verts i vert_len : nat) : list (nat * nat) :=
  let hair_verts := take (vert_len * 2) (drop i (seq 0 n_verts)) in
  zip (take vert_len hair_verts) (reverse (drop vert_len hair_verts)).

(** The UV writes for one card once its zone is chosen;
    [bottom_left, top_right = chosen_zone] needs exactly two entries. *)
Definition set_card_uvs (vert_loop_dict : gmap nat (list nat))
    (vert_len n_verts i : nat) (chosen_zone : zone) (data : list uv)
  : option (list uv) :=
  match chosen_zone with
  | [bottom_left; top_right] =>
    fold_left (set_pair_uvs vert_loop_dict vert_len bottom_left top_right)
              (imap (fun j pair => (j, pair))
                    (vert_pairs n_verts i vert_len))
              (Some data)
  | _ => None
  end.

(** The zone of the card that starts at vertex [i], as the loop measures
    and draws it. *)
Definition card_zone (hairzone_uv_dict : atlas) (vert_len : nat)
    (verts : list vec) (rand : nat -> nat) (i : nat) : option zone :=
  let vert_count := (vert_len * 2)%nat in
  let hair_verts := hair_verts_at verts i vert_count in
  m ← measure vert_len hair_verts;
  choose_zone hairzone_uv_dict m.1 m.2
              (rand (2 * (i / vert_count))%nat)
              (rand (2 * (i / vert_count) + 1)%nat).

(** One turn of the outer loop of [_set_vert_group_uvs]. *)
Definition set_card (hairzone_uv_dict : atlas) (vert_len : nat)
    (verts : list vec) (vert_loop_dict : gmap nat (list nat))
    (rand : nat -> nat) (acc : option (list uv)) (i : nat)
  : option (list uv) :=
  data ← acc;
  chosen_zone ← card_zone hairzone_uv_dict vert_len verts rand i;
  set_card_uvs vert_loop_dict vert_len (length verts) i chosen_zone data.

(** [_set_vert_group_uvs]: the UV layer after the loop over the cards. *)
Definition set_vert_group_uvs (hairzone_uv_dict : atlas) (vert_len : nat)
    (verts : list vec) (vert_loop_dict : gmap nat (list nat))
    (rand : nat -> nat) (data : list uv) : option (list uv) :=
  if Nat.eqb (vert_len * 2) 0 then None
  else
    fold_left (set_card hairzone_uv_dict vert_len verts vert_loop_dict rand)
              (range_step (length verts) (vert_len * 2)) (Some data).

(** The loops one turn of the loop over the pairs may write: those of its
    two vertices. *)
Definition pair_footprint (polygons : list MeshPolygon)
    (e : nat * (nat * nat)) (l : nat) : Prop :=
  l ∈ loops_of polygons e.2.1 \/ l ∈ loops_of polygons e.2.2.

(** In [data], pair [e = (i, (vert_left, vert_right))] carries the UVs of
    its row: every loop of the left vertex is at the right edge [x_max] of
    the zone, every loop of the right vertex at the left edge [x_min], both
    at height [pair_v y_min y_max vert_len i]. *)
Definition pair_painted (polygons : list MeshPolygon) (vert_len : nat)
    (bottom_left top_right : list R) (e : nat * (nat * nat))
    (data : list uv) : Prop :=
  exists x_min y_min x_max y_max,
    bottom_left !! 0%nat = Some x_min /\ bottom_left !! 1%nat = Some y_min
    /\ top_right !! 0%nat = Some x_max /\ top_right !! 1%nat = Some y_max
    /\ (forall l, l ∈ loops_of polygons e.2.1 ->
          data !! l = Some (x_max, pair_v y_min y_max vert_len e.1))
    /\ (forall l, l ∈ loops_of polygons e.2.2 ->
          data !! l = Some (x_min, pair_v y_min y_max vert_len e.1)).

(** The loops of the vertices [i .. i + 2 vert_len - 1] of the card that
    starts at vertex [i]. *)
Definition card_footprint (polygons : list MeshPolygon) (vert_len i l : nat)
  : Prop :=
  exists v, (i <= v < i + vert_len * 2)%nat /\ l ∈ loops_of polygons v.

(** In [data], the card that starts at vertex [i] is laid out on the zone
    chosen for it: row [j] pairs vertex [i + j] with vertex
    [i + (2 vert_len - 1 - j)]. *)
Definition card_painted (hairzone_uv_dict : atlas) (vert_len : nat)
    (verts : list vec) (rand : nat -> nat) (polygons : list MeshPolygon)
    (i : nat) (data : list uv) : Prop :=
  exists bottom_left top_right,
    card_zone hairzone_uv_dict vert_len verts rand i
    = Some [bottom_left; top_right]
    /\ forall j, (j < vert_len)%nat ->
         pair_painted polygons vert_len bottom_left top_right
                      (j, (i + j, i + (vert_len * 2 - 1 - j)))%nat data.

(** A zone of the shape [[[x0, y0], [x1, y1]]]: two corners with two
    coordinates each (more would be ignored). *)
Definition rectangle (z : zone) : Prop :=
  exists bottom_left top_right,
    z = [bottom_left; top_right]
    /\ (2 <= length bottom_left)%nat /\ (2 <= length top_right)%nat.

(** Every zone of every list of the atlas is such a rectangle. *)
Definition atlas_rectangles (hairzone_uv_dict : atlas) : Prop :=
  forall length_key table subdict width_key zones z,
    dict_get length_key hairzone_uv_dict = Some table ->
    subdict ∈ dict_values table ->
    dict_get width_key subdict = Some zones ->
    z ∈ zones -> rectangle z.

(** The polygons Blender's [mesh.from_pydata] makes of quad faces (the
    call of [_create_obj_from_verts_and_faces]): the corners of face [p]
    are the loops [4 p .. 4 p + 3], on the vertices of the face in their
    order. *)
Definition polygons_of_faces (faces : list quad) : list MeshPolygon :=
  imap (fun p q =>
          {| vertices := map Z.to_nat (quad_indices q);
             loop_indices := seq (4 * p) 4 |})
       faces.

(** A haircard object as [add_uvs] sees it: its vertices and polygons. *)
Record HairObject : Type := {
  obj_vertices : list vec;
  obj_polygons : list MeshPolygon
}.

(** The body of the loop of [add_uvs] for one object: a new UV layer, all
    zero, one entry per loop; an object without polygons is passed over. *)
Definition add_uvs_object (hairzone_uv_dict : atlas) (vert_len : nat)
    (obj : HairObject) (rand : nat -> nat) : option (list uv) :=
  let uv_layer :=
    replicate (length (corners (obj_polygons obj))) (0, 0) in
  match obj_polygons obj with
  | [] => Some uv_layer
  | _ =>
    let vert_loop_dict := create_vert_loop_dict (obj_polygons obj) in
    set_vert_group_uvs hairzone_uv_dict vert_len (obj_vertices obj)
                       vert_loop_dict rand uv_layer
  end.

End UVLayout.

(* ===================================================================== *)
(** ** More sample inputs *)
(* ===================================================================== *)

Module MoreSamples.

Import Numeric QuadStrip Strands UVZones UVLayout Samples.

Local Open Scope R_scope.

(** A simplification that keeps the two ends of a strand and drops what is
    between them. *)
Definition keep_ends (points : list vec) (epsilon : R) : list bool :=
  imap (fun i _ => Nat.eqb i 0 || Nat.eqb i (length points - 1)) points.

(** Scalp normals for the five vertices of [sample_bm], and its two strands
    with a short and a medium length. *)
Definition sample_vertex_normals : list vec := replicate 5 (0, 0, 1).
Definition sample_hairs : list (list nat * R) :=
  [([0; 1; 2]%nat, 0.02); ([3; 4]%nat, 0.07)].

(** One card of two rows: vertices 0 and 1 up one edge, 2 and 3 down the
    other, under a single quad whose loops are 0 to 3. *)
Definition sample_quad_verts : list vec :=
  [(0, 0, 0); (0, 0, 1); (1, 0, 1); (1, 0, 0)].
Definition sample_polygons : list MeshPolygon :=
  [ {| vertices := [0; 1; 2; 3]%nat; loop_indices := [0; 1; 2; 3]%nat |} ].
Definition sample_uv_layer : list uv := replicate 4 (0, 0).

(** What the extractor yields on [sample_bm] with [sample_coords], and the
    colours of the sample haircap once painted. *)
Definition sample_extracted : list (list nat * R) :=
  [([0; 1; 2]%nat, norm (vsub (0, 0, 0) (1, 0, 0)));
   ([3; 4]%nat, norm (vsub (0, 1, 0) (0, 1, 0)))].
Definition sample_cap_painted : list Haircap.color :=
  [(0, 0, 0, 1); (0, 0, 0, 1);
   (11744051 # 16777216, 11744051 # 16777216, 11744051 # 16777216, 1)]%Q.

(** A perpendicular for each of the two points of [sample_hair_coords]. *)
Definition sample_perpendicular : list (list vec) :=
  [[(0, 1, 0); (0, 1, 0)]].

(** Two cards of two rows each, all on the x axis: the first one unit long
    and half a unit wide, the second 0.03 long and 0.005 wide; one quad
    over each. *)
Definition two_cards : list vec :=
  [(0, 0, 0); (0, 0, 0); (1, 0, 0); (0.5, 0, 0);
   (0, 0, 0); (0, 0, 0); (0.03, 0, 0); (0.005, 0, 0)].
Definition two_cards_polygons : list MeshPolygon :=
  [ {| vertices := [0; 1; 2; 3]%nat; loop_indices := [0; 1; 2; 3]%nat |};
    {| vertices := [4; 5; 6; 7]%nat; loop_indices := [4; 5; 6; 7]%nat |} ].
Definition two_cards_uv_layer : list uv := replicate 8 (0, 0).

(** One strand of a single point. *)
Definition sample_point_coords : list (list vec) := [[(0, 0, 0)]].
Definition sample_point_normals : list (list vec) := [[(1, 0, 0)]].

End MoreSamples.

(* ===================================================================== *)
(** * Properties *)
(* ===================================================================== *)

#[local] Set Warnings "-clear-no-such-hyp".

(* ===================================================================== *)
(** ** Shapes of arrays *)
(* ===================================================================== *)

Section ShapeFacts.

Import Numeric.

Context {A B C : Type}.

Lemma shapeb_spec (n k : nat) (a : list (list A)) :
  shapeb n k a = true <-> shape n k a.
Proof.
  unfold shapeb, shape.
  rewrite andb_true_iff, Nat.eqb_eq, forallb_forall, List.Forall_forall.
  split; intros [Hn Hr]; split; auto; intros row Hin.
  - apply Nat.eqb_eq; auto.
  - apply Nat.eqb_eq; auto.
Qed.

Lemma shape_length (n k : nat) (a : list (list A)) :
  shape n k a -> length a = n.
Proof. intros [H _]; exact H. Qed.

Lemma shape_concat (n k : nat) (a : list (list A)) :
  shape n k a -> length (concat a) = n * k.
Proof.
  intros [Hn Hr]. subst n.
  induction Hr as [|row a Hrow _ IH]; simpl; [reflexivity|].
  rewrite length_app, IH, Hrow. reflexivity.
Qed.

Lemma shape_map (f : list A -> list B) (n k k' : nat) (a : list (list A)) :
  (forall row, length row = k -> length (f row) = k') ->
  shape n k a -> shape n k' (map f a).
Proof.
  intros Hf [Hn Hr]. split.
  - rewrite length_map; exact Hn.
  - clear Hn. induction Hr; simpl; constructor; auto.
Qed.

Lemma shape_zip_with (f : list A -> list B -> list C) (n k1 k2 k' : nat)
    (a : list (list A)) (b : list (list B)) :
  (forall r1 r2, length r1 = k1 -> length r2 = k2 -> length (f r1 r2) = k') ->
  shape n k1 a -> shape n k2 b -> shape n k' (zip_with f a b).
Proof.
  intros Hf [Hn Ha] [Hm Hb]. subst n. split.
  - rewrite length_zip_with. lia.
  - clear Hm. revert b Hb.
    induction Ha as [|r1 a Hr1 _ IH]; intros b Hb; simpl; [constructor|].
    destruct Hb as [|r2 b Hr2 Hb]; simpl; constructor; auto.
Qed.

End ShapeFacts.

(* ===================================================================== *)
(** ** Quad-strip mesh builder: counts and index bounds *)
(* ===================================================================== *)

Section QuadStripFacts.

Import Numeric QuadStrip.

Lemma ceil_INR (k : nat) : ceil (INR k) = Z.of_nat k.
Proof.
  unfold ceil.
  assert (H : (- Z.of_nat k + 1)%Z = up (- INR k)).
  { apply tech_up; rewrite plus_IZR, opp_IZR, <- INR_IZR_INZ; lra. }
  lia.
Qed.

Lemma segment_step_count (k : nat) :
  (1 <= k)%nat -> ((0.03 - 0.01) / (0.02 / INR k))%R = INR k.
Proof.
  intros Hk.
  assert (Hpos : (0 < INR k)%R) by (apply lt_0_INR; lia).
  assert (Hd : (0.03 - 0.01 = 0.02)%R) by lra.
  rewrite Hd. unfold Rdiv.
  rewrite Rinv_mult, Rinv_inv, <- Rmult_assoc, Rinv_r by lra. lra.
Qed.

Lemma arange_length (start stop step : R) :
  length (arange start stop step) = Z.to_nat (ceil ((stop - start) / step)).
Proof. unfold arange. rewrite length_map, length_seq. reflexivity. Qed.

Lemma calculate_segment_correction_length (k : nat) :
  (1 <= k)%nat -> length (calculate_segment_correction k) = k.
Proof.
  intros Hk. unfold calculate_segment_correction.
  rewrite length_rev, arange_length.
  rewrite segment_step_count by lia.
  rewrite ceil_INR. lia.
Qed.

Lemma roll_left_length {A : Type} (row : list A) :
  length (roll_left row) = length row.
Proof. destruct row; simpl; [reflexivity|]. rewrite length_app; simpl; lia. Qed.

Lemma copy_penultimate_length {A : Type} (row : list A) :
  length (copy_penultimate row) = length row.
Proof.
  unfold copy_penultimate.
  destruct (rev row) as [|x [|p tl]] eqn:E; try reflexivity.
  rewrite length_rev. rewrite <- (length_rev row), E. reflexivity.
Qed.

Lemma zip_with_length_same {A B C : Type} (f : A -> B -> C) (k : nat)
    (r1 : list A) (r2 : list B) :
  length r1 = k -> length r2 = k -> length (zip_with f r1 r2) = k.
Proof. intros H1 H2. rewrite length_zip_with. lia. Qed.

Lemma shape_map2_2d {A B C : Type} (f : A -> B -> C) (n k : nat)
    (a : list (list A)) (b : list (list B)) :
  shape n k a -> shape n k b -> shape n k (map2_2d f a b).
Proof.
  intros Ha Hb. unfold map2_2d.
  apply (shape_zip_with _ n k k k); auto.
  intros; apply zip_with_length_same; auto.
Qed.

(** An array of shape [(n, k, 3)] combined with [k] scalars along axis 1 and
    [n] scalars along axis 0 keeps its shape. *)
Lemma shape_broadcast {A B C D : Type} (f : B -> A -> C -> D) (n k : nat)
    (seg : list B) (a : list (list A)) (lcs : list C) :
  length seg = k -> length lcs = n -> shape n k a ->
  shape n k (zip_with (fun row lc => zip_with (fun s p => f s p lc) seg row)
                      a lcs).
Proof.
  intros Hseg Hlcs [Hn Ha]. split.
  - rewrite length_zip_with. lia.
  - clear Hlcs Hn. revert lcs.
    induction Ha as [|row a Hrow _ IH]; intros lcs; simpl; [constructor|].
    destruct lcs as [|lc lcs]; simpl; constructor; auto.
    rewrite length_zip_with. lia.
Qed.

Section WithNormalize.

Variable normalize : vec -> vec.

Lemma calculate_perpendicular_vec_shape (n k : nat)
    (hair_coords nearest_normals : list (list vec)) :
  shape n k hair_coords -> shape n k nearest_normals ->
  shape n k (calculate_perpendicular_vec normalize k hair_coords
                                         nearest_normals).
Proof.
  intros Hc Hn. unfold calculate_perpendicular_vec.
  apply shape_map2_2d; [exact Hn|].
  assert (H0 : shape n k
            (map (map normalize)
                 (map2_2d vsub (map roll_left hair_coords) hair_coords))).
  { apply (shape_map _ n k k).
    - intros row Hrow. rewrite length_map. exact Hrow.
    - apply shape_map2_2d; [|exact Hc].
      apply (shape_map _ n k k); [|exact Hc].
      intros row Hrow. rewrite roll_left_length. exact Hrow. }
  destruct (1 <? k)%nat; [|exact H0].
  apply (shape_map _ n k k); [|exact H0].
  intros row Hrow. rewrite copy_penultimate_length. exact Hrow.
Qed.

(** On arrays of one shape [(n, k, 3)] the vertex builder returns two arrays
    of [2 n k] rows each. *)
Lemma compute_new_ver_coordinaes_counts (n k : nat)
    (hair_coords nearest_normals perpendicular : list (list vec)) :
  (1 <= k)%nat ->
  shape n k hair_coords -> shape n k nearest_normals ->
  shape n k perpendicular ->
  exists new_verts new_verts_parallel,
    compute_new_ver_coordinaes k hair_coords nearest_normals perpendicular
      = Some (new_verts, new_verts_parallel)
    /\ length new_verts = 2 * n * k
    /\ length new_verts_parallel = 2 * n * k.
Proof.
  intros Hk Hc Hn Hp.
  pose proof (shape_length _ _ _ Hc) as Hlen.
  pose proof (calculate_segment_correction_length k Hk) as Hseg.
  unfold compute_new_ver_coordinaes.
  rewrite Hlen.
  rewrite (proj2 (shapeb_spec n k hair_coords) Hc).
  rewrite (proj2 (shapeb_spec n k nearest_normals) Hn).
  rewrite (proj2 (shapeb_spec n k perpendicular) Hp).
  rewrite Hseg, Nat.eqb_refl.
  replace (0 <? k)%nat with true by (symmetry; apply Nat.ltb_lt; lia).
  simpl negb. cbv iota.
  set (lcs := map length_correction_of _).
  assert (Hlcs : length lcs = n)
    by (unfold lcs; rewrite !length_map; exact Hlen).
  set (poff := zip_with _ perpendicular lcs).
  set (hoff := zip_with _ nearest_normals lcs).
  assert (Hpoff : shape n k poff)
    by (apply (shape_broadcast (fun s p lc => vscale (scalev s p) lc));
        assumption).
  assert (Hhoff : shape n k hoff)
    by (apply (shape_broadcast
                 (fun s nn lc => vscale (vscale (scalev s (vabs nn)) lc) 0.3));
        assumption).
  assert (Hrev : shape n k (map (@rev vec) hair_coords)).
  { apply (shape_map _ n k k); [|exact Hc].
    intros row Hrow. rewrite length_rev. exact Hrow. }
  eexists _, _. split; [reflexivity|]. split.
  - rewrite (shape_concat n (k + k)); [lia|].
    apply (shape_zip_with _ n k k (k + k)).
    + intros r1 r2 H1 H2. rewrite length_app. lia.
    + apply shape_map2_2d; assumption.
    + apply shape_map2_2d; assumption.
  - rewrite (shape_concat n (k + k)); [lia|].
    apply (shape_zip_with _ n k k (k + k)).
    + intros r1 r2 H1 H2. rewrite length_app. lia.
    + apply shape_map2_2d; assumption.
    + apply shape_map2_2d; assumption.
Qed.

End WithNormalize.

Lemma range_length (n : Z) : length (range n) = Z.to_nat n.
Proof. unfold range. rewrite length_map, length_seq. reflexivity. Qed.

Lemma in_range (n x : Z) : In x (range n) <-> (0 <= x < n)%Z.
Proof.
  unfold range. rewrite in_map_iff. split.
  - intros [i [<- Hi]]. apply in_seq in Hi. lia.
  - intros Hx. exists (Z.to_nat x). split; [lia|]. apply in_seq. lia.
Qed.

(** The face builder succeeds for [k >= 1] and fills an array of shape
    [(n, k - 1, 4)], returned twice. *)
Lemma compute_new_face_vert_idxs_shape {A : Type} (k : nat)
    (hair_coords : list A) :
  (1 <= k)%nat ->
  exists faces,
    compute_new_face_vert_idxs k hair_coords = Some (faces, faces)
    /\ shape (length hair_coords) (k - 1) faces
    /\ forall q, In q (concat faces) ->
         exists i j, (0 <= i < Z.of_nat (length hair_coords))%Z
                     /\ (0 <= j < Z.of_nat k - 1)%Z
                     /\ q = face_at (Z.of_nat k) i j.
Proof.
  intros Hk. unfold compute_new_face_vert_idxs.
  replace (Z.of_nat k - 1 <? 0)%Z with false by (symmetry; apply Z.ltb_ge; lia).
  eexists. split; [reflexivity|]. split.
  - split.
    + rewrite length_map, range_length. lia.
    + apply List.Forall_forall. intros row Hrow.
      apply in_map_iff in Hrow. destruct Hrow as [i [<- _]].
      rewrite length_map, range_length. lia.
  - intros q Hq. apply in_concat in Hq. destruct Hq as [row [Hrow Hq]].
    apply in_map_iff in Hrow. destruct Hrow as [i [<- Hi]].
    apply in_map_iff in Hq. destruct Hq as [j [<- Hj]].
    apply in_range in Hi. apply in_range in Hj.
    exists i, j. auto.
Qed.

Lemma face_at_bounds (n k i j : Z) :
  (0 <= i < n)%Z -> (0 <= j < k - 1)%Z ->
  Forall (fun idx => (0 <= idx < 2 * n * k)%Z) (quad_indices (face_at k i j)).
Proof.
  intros Hi Hj. unfold face_at, quad_indices.
  assert (H1 : (0 <= i * k)%Z) by nia.
  assert (H2 : (i * k + k <= n * k)%Z) by nia.
  repeat constructor; lia.
Qed.

Lemma int64_wrap_small (z : Z) :
  (- 2 ^ 63 <= z < 2 ^ 63)%Z -> int64_wrap z = z.
Proof. intros Hz. unfold int64_wrap. rewrite Z.mod_small; lia. Qed.

Lemma quad_offset_bounds (lo hi off : Z) (q : quad) :
  (0 <= off)%Z -> (hi + off <= 2 ^ 63)%Z -> (0 <= lo)%Z ->
  Forall (fun idx => (lo <= idx < hi)%Z) (quad_indices q) ->
  Forall (fun idx => (lo + off <= idx < hi + off)%Z)
         (quad_indices (quad_offset off q)).
Proof.
  intros Hoff Hhi Hlo. destruct q as [[[a b] c] d]. simpl.
  intros H. repeat match goal with
  | H : Forall _ (_ :: _) |- _ => apply Forall_cons_1 in H; destruct H
  end.
  rewrite !int64_wrap_small by lia.
  repeat constructor; lia.
Qed.

End QuadStripFacts.

Section QuadStripTheorems.

Import Numeric QuadStrip.

Variable normalize : vec -> vec.

(** What [create_mesh_group] returns on a group of [n] strands of [k] points:
    the two vertex arrays of [2 n k] rows one after the other, and the faces
    of the flat ribbons followed by the same faces shifted by [2 n k]. *)
Lemma create_mesh_group_result (n k : nat)
    (hair_coords nearest_normals : list (list vec)) :
  (1 <= k)%nat -> shape n k hair_coords -> shape n k nearest_normals ->
  exists new_verts new_verts_parallel faces,
    create_mesh_group normalize k hair_coords nearest_normals
      = Some (new_verts ++ new_verts_parallel,
              concat (faces ++ map (map (quad_offset (Z.of_nat (2 * n * k))))
                                   faces))
    /\ length new_verts = 2 * n * k
    /\ length new_verts_parallel = 2 * n * k
    /\ compute_new_face_vert_idxs k hair_coords = Some (faces, faces)
    /\ shape n (k - 1) faces
    /\ forall q, In q (concat faces) ->
         exists i j, (0 <= i < Z.of_nat n)%Z /\ (0 <= j < Z.of_nat k - 1)%Z
                     /\ q = face_at (Z.of_nat k) i j.
Proof.
  intros Hk Hc Hn.
  pose proof (calculate_perpendicular_vec_shape normalize n k _ _ Hc Hn) as Hp.
  destruct (compute_new_ver_coordinaes_counts n k _ _ _ Hk Hc Hn Hp)
    as (nv & nvp & Hv & Hnv & Hnvp).
  destruct (compute_new_face_vert_idxs_shape k hair_coords Hk)
    as (faces & Hf & Hshape & Hin).
  rewrite (shape_length _ _ _ Hc) in Hshape, Hin.
  exists nv, nvp, faces. unfold create_mesh_group.
  rewrite Hv, Hf, Hnv. auto 10.
Qed.

(** C1. For a group of [n] strands that share the point count [k]
    (the claim takes [k >= 2]; the counts hold from [k >= 1] on), the
    quad-strip builder succeeds and the assembled object has exactly
    [4 n k] vertices and [2 n (k - 1)] faces, each of four vertex indices;
    that is [4 k] vertices and [2 (k - 1)] quads per strand. *)
Theorem create_mesh_group_counts (n k : nat)
    (hair_coords nearest_normals : list (list vec)) :
  (1 <= k)%nat -> shape n k hair_coords -> shape n k nearest_normals ->
  exists all_verts all_faces,
    create_mesh_group normalize k hair_coords nearest_normals
      = Some (all_verts, all_faces)
    /\ length all_verts = 4 * n * k
    /\ length all_faces = 2 * n * (k - 1)
    /\ Forall (fun q => length (quad_indices q) = 4) all_faces.
Proof.
  intros Hk Hc Hn.
  destruct (create_mesh_group_result n k _ _ Hk Hc Hn)
    as (nv & nvp & faces & Hb & Hnv & Hnvp & _ & Hshape & _).
  eexists _, _. split; [exact Hb|]. split; [|split].
  - rewrite length_app. lia.
  - rewrite (shape_concat (n + n) (k - 1)); [lia|].
    destruct Hshape as [Hlen Hrows]. split.
    + rewrite length_app, length_map. lia.
    + apply Forall_app. split; [exact Hrows|].
      apply List.Forall_forall. intros row Hrow.
      apply in_map_iff in Hrow. destruct Hrow as [row' [<- Hrow']].
      rewrite length_map.
      rewrite List.Forall_forall in Hrows. auto.
  - apply List.Forall_forall. intros [[[a b] c] d] _. reflexivity.
Qed.

(** C10. For a group of [n] strands of [k >= 2] points whose [4 n k]
    vertices fit the [int64] index range, every index of the
    perpendicular-ribbon faces lies in [[0, 2 n k)], and every index of the
    concatenated face array (the parallel-ribbon faces shifted by the
    [2 n k] flat-ribbon vertices) lies in [[0, 4 n k)], the length of the
    assembled vertex array. *)
Theorem create_mesh_group_face_indices_in_bounds (n k : nat)
    (hair_coords nearest_normals : list (list vec)) :
  (2 <= k)%nat -> shape n k hair_coords -> shape n k nearest_normals ->
  (Z.of_nat (4 * n * k) <= 2 ^ 63)%Z ->
  (exists faces faces_parallel,
     compute_new_face_vert_idxs k hair_coords = Some (faces, faces_parallel)
     /\ Forall (fun q => Forall (fun idx => (0 <= idx < Z.of_nat (2 * n * k))%Z)
                                (quad_indices q))
               (concat faces))
  /\ exists all_verts all_faces,
       create_mesh_group normalize k hair_coords nearest_normals
         = Some (all_verts, all_faces)
       /\ length all_verts = 4 * n * k
       /\ Forall (fun q =>
                    Forall (fun idx => (0 <= idx < Z.of_nat (length all_verts))%Z)
                           (quad_indices q))
                 all_faces.
Proof.
  intros Hk Hc Hn Hfit.
  destruct (create_mesh_group_result n k _ _ ltac:(lia) Hc Hn)
    as (nv & nvp & faces & Hb & Hnv & Hnvp & Hf & Hshape & Hin).
  assert (Hflat : forall q, In q (concat faces) ->
            Forall (fun idx => (0 <= idx < Z.of_nat (2 * n * k))%Z)
                   (quad_indices q)).
  { intros q Hq. destruct (Hin q Hq) as (i & j & Hi & Hj & ->).
    replace (Z.of_nat (2 * n * k)) with (2 * Z.of_nat n * Z.of_nat k)%Z by lia.
    apply face_at_bounds; assumption. }
  split.
  - exists faces, faces. split; [exact Hf|].
    apply List.Forall_forall. exact Hflat.
  - eexists _, _. split; [exact Hb|].
    assert (Hlen : length (nv ++ nvp) = 4 * n * k)
      by (rewrite length_app; lia).
    split; [exact Hlen|]. rewrite Hlen.
    apply List.Forall_forall. intros q Hq.
    rewrite concat_app in Hq. apply in_app_or in Hq. destruct Hq as [Hq|Hq].
    + eapply List.Forall_impl; [|apply Hflat; exact Hq].
      simpl. intros idx Hidx. lia.
    + apply in_concat in Hq. destruct Hq as [row [Hrow Hq]].
      apply in_map_iff in Hrow. destruct Hrow as [row' [<- Hrow']].
      apply in_map_iff in Hq. destruct Hq as [q' [<- Hq']].
      assert (Hq0 : In q' (concat faces))
        by (apply in_concat; exists row'; auto).
      eapply List.Forall_impl;
        [|apply (quad_offset_bounds 0 (Z.of_nat (2 * n * k)));
          [lia|lia|lia|apply Hflat; exact Hq0]].
      simpl. intros idx Hidx. lia.
Qed.

End QuadStripTheorems.

Section QuadStripWitnesses.

Import Numeric QuadStrip Samples.

Local Open Scope R_scope.

(** The sample arrays have shape (1, 2, 3). *)
Lemma sample_hair_coords_shape : shape 1 2 sample_hair_coords.
Proof. split; [reflexivity|]. repeat constructor. Qed.

Lemma sample_normals_shape : shape 1 2 sample_normals.
Proof. split; [reflexivity|]. repeat constructor. Qed.

(** The counts on the sample strand: 8 vertices and 2 quads. *)
Lemma create_mesh_group_counts_witness :
  exists all_verts all_faces,
    create_mesh_group (fun v => v) 2 sample_hair_coords sample_normals
      = Some (all_verts, all_faces)
    /\ length all_verts = (4 * 1 * 2)%nat
    /\ length all_faces = (2 * 1 * (2 - 1))%nat
    /\ Forall (fun q => length (quad_indices q) = 4%nat) all_faces.
Proof.
  apply (create_mesh_group_counts (fun v => v) 1 2).
  - lia.
  - exact sample_hair_coords_shape.
  - exact sample_normals_shape.
Defined.

(** The index bounds on the sample strand. *)
Lemma create_mesh_group_face_indices_in_bounds_witness :
  (exists faces faces_parallel,
     compute_new_face_vert_idxs 2 sample_hair_coords
       = Some (faces, faces_parallel)
     /\ Forall (fun q => Forall (fun idx => (0 <= idx < Z.of_nat (2 * 1 * 2))%Z)
                                (quad_indices q))
               (concat faces))
  /\ exists all_verts all_faces,
       create_mesh_group (fun v => v) 2 sample_hair_coords sample_normals
         = Some (all_verts, all_faces)
       /\ length all_verts = (4 * 1 * 2)%nat
       /\ Forall (fun q =>
                    Forall (fun idx => (0 <= idx < Z.of_nat (length all_verts))%Z)
                           (quad_indices q))
                 all_faces.
Proof.
  apply (create_mesh_group_face_indices_in_bounds (fun v => v) 1 2).
  - lia.
  - exact sample_hair_coords_shape.
  - exact sample_normals_shape.
  - vm_compute. discriminate.
Defined.

(** The faces of the sample strand: one quad per ribbon, the second ribbon
    shifted by the four vertices of the first. *)
Example sample_faces :
  compute_new_face_vert_idxs 2 sample_hair_coords
  = Some ([[(0, 1, 2, 3)%Z]], [[(0, 1, 2, 3)%Z]])
  /\ map (map (quad_offset 4)) [[(0, 1, 2, 3)%Z]] = [[(4, 5, 6, 7)%Z]].
Proof. split; reflexivity. Qed.

End QuadStripWitnesses.

(* ===================================================================== *)
(** ** Strand extractor: walking a path *)
(* ===================================================================== *)

Section StrandFacts.

Import Numeric Strands.

Implicit Types (bm : BMesh) (p q : list nat) (tags found : gset nat).

Lemma linked_path_reverse bm p :
  linked_path bm p -> linked_path bm (reverse p).
Proof.
  intros Hp l1 v l2 Hrev.
  assert (Hdec : p = reverse l2 ++ v :: reverse l1).
  { rewrite <- (reverse_involutive p), Hrev.
    rewrite reverse_app, reverse_cons, <- app_assoc. reflexivity. }
  rewrite (Hp _ _ _ Hdec), last_reverse, head_reverse.
  apply Permutation_app_comm.
Qed.

(** The untagged neighbours of a vertex [v] that has just been tagged,
    when the vertex before it on the path is tagged and the one after it is
    not: the vertex after it, if there is one. *)
Lemma linked_verts_on_path bm (pre suf : list nat) (v : nat) tags :
  linked_path bm (pre ++ v :: suf) ->
  (forall u, last pre = Some u -> u ∈ tags) ->
  (forall w, head suf = Some w -> w <> v /\ w ∉ tags) ->
  filter (fun x => x ∉ {[v]} ∪ tags)
         (map (fun e => other_vert e v) (link_edges bm v))
  = option_list (head suf).
Proof.
  intros Hlink Hpre Hnext.
  assert (Hperm :
    filter (fun x => x ∉ {[v]} ∪ tags)
           (map (fun e => other_vert e v) (link_edges bm v))
    ≡ₚ option_list (head suf)).
  { rewrite (Hlink pre v suf eq_refl), filter_app.
    assert (Hnil : filter (fun x => x ∉ {[v]} ∪ tags)
                          (option_list (last pre)) = []).
    { destruct (last pre) as [u|] eqn:Hu; [|reflexivity]. simpl.
      rewrite filter_cons_False; [reflexivity|].
      intros Hn. apply Hn. specialize (Hpre u eq_refl). set_solver. }
    rewrite Hnil. simpl.
    destruct (head suf) as [w|] eqn:Hw; [|reflexivity]. simpl.
    destruct (Hnext w eq_refl) as [Hwv Hwt].
    rewrite filter_cons_True; [reflexivity|]. set_solver. }
  destruct (head suf) as [w|]; simpl in *.
  - apply Permutation_singleton_r. exact Hperm.
  - apply Permutation_nil_r. exact Hperm.
Qed.

(** Walking from a vertex [v] of a path whose earlier part is tagged and
    whose later part [suf] is not: the walk yields [v :: suf] and tags it,
    provided the recursion may go as deep as the vertices left. *)
Lemma walk_island_path bm (suf : list nat) :
  forall (pre : list nat) (v fuel : nat) tags,
    linked_path bm (pre ++ v :: suf) ->
    NoDup (v :: suf) ->
    (forall u, last pre = Some u -> u ∈ tags) ->
    (forall x, x ∈ v :: suf -> x ∉ tags) ->
    length (v :: suf) <= fuel ->
    walk_island fuel bm tags v
    = Some (v :: suf, list_to_set (v :: suf) ∪ tags).
Proof.
  induction suf as [|w suf IH]; intros pre v fuel tags Hlink Hnd Hpre Hfresh Hfuel.
  - destruct fuel as [|fuel]; [simpl in Hfuel; lia|].
    cbn [walk_island].
    rewrite (linked_verts_on_path bm pre [] v tags Hlink Hpre)
      by (intros w Hw; discriminate).
    simpl. f_equal. f_equal. set_solver.
  - destruct fuel as [|fuel]; [simpl in Hfuel; lia|].
    cbn [walk_island].
    assert (Hwv : w <> v).
    { apply NoDup_cons in Hnd. destruct Hnd as [Hv _].
      intros ->. apply Hv. left. }
    assert (Hw : w ∉ tags) by (apply Hfresh; right; left).
    rewrite (linked_verts_on_path bm pre (w :: suf) v tags Hlink Hpre)
      by (intros w' Hw'; injection Hw' as <-; auto).
    change (option_list (head (w :: suf))) with [w].
    unfold fold_left, walk_linked.
    destruct (decide (w ∈ {[v]} ∪ tags)) as [Hin|_]; [set_solver|].
    rewrite (IH (pre ++ [v]) w fuel ({[v]} ∪ tags)).
    + simpl. f_equal. f_equal. set_solver.
    + rewrite <- app_assoc. exact Hlink.
    + apply NoDup_cons in Hnd. tauto.
    + intros u Hu. rewrite last_snoc in Hu. injection Hu as <-. set_solver.
    + intros x Hx. apply NoDup_cons in Hnd. destruct Hnd as [Hv _].
      assert (x <> v) by (intros ->; contradiction).
      assert (x ∉ tags) by (apply Hfresh; right; exact Hx).
      set_solver.
    + simpl in Hfuel |- *. lia.
Qed.

(** A whole untagged path walked from its first vertex. *)
Lemma walk_island_whole bm p (s fuel : nat) tags :
  linked_path bm p -> NoDup p -> head p = Some s ->
  (forall x, x ∈ p -> x ∉ tags) -> length p <= fuel ->
  walk_island fuel bm tags s = Some (p, list_to_set p ∪ tags).
Proof.
  intros Hlink Hnd Hhead Hfresh Hfuel.
  destruct p as [|v suf]; [discriminate|]. injection Hhead as ->.
  apply (walk_island_path bm suf []); auto.
  intros u Hu. discriminate.
Qed.

(** *** Indexing from either end *)

Lemma py_index_0 {A : Type} (l : list A) : py_index l 0 = head l.
Proof. unfold py_index. simpl. destruct l; reflexivity. Qed.

Lemma py_index_neg {A : Type} (l : list A) (k : nat) :
  1 <= k <= length l ->
  py_index l (- Z.of_nat k) = l !! (length l - k).
Proof.
  intros Hk. unfold py_index.
  destruct (Z.leb_spec 0 (- Z.of_nat k)) as [H|_]; [lia|].
  destruct (Z.leb_spec (- Z.of_nat (length l)) (- Z.of_nat k)) as [_|H]; [|lia].
  f_equal. lia.
Qed.

Lemma py_index_last {A : Type} (l : list A) :
  1 <= length l -> py_index l (-1) = last l.
Proof.
  intros Hl. change (-1)%Z with (- Z.of_nat 1)%Z.
  rewrite (py_index_neg l 1) by lia.
  rewrite last_lookup. f_equal. lia.
Qed.

Lemma py_index_before_last {A : Type} (l : list A) :
  2 <= length l -> py_index l (-2) = l !! (length l - 2).
Proof.
  intros Hl. change (-2)%Z with (- Z.of_nat 2)%Z.
  apply (py_index_neg l 2). lia.
Qed.

(** *** Ends of the paths and start vertices *)

Lemma head_elem_of {A : Type} (l : list A) (x : A) : head l = Some x -> x ∈ l.
Proof. destruct l; [discriminate|]. intros [= ->]. left. Qed.

Lemma last_elem_of {A : Type} (l : list A) (x : A) : last l = Some x -> x ∈ l.
Proof.
  intros H. apply last_Some in H. destruct H as [l' ->].
  apply elem_of_app. right. left.
Qed.

Lemma elem_of_concat {A : Type} (ls : list (list A)) (l : list A) (x : A) :
  l ∈ ls -> x ∈ l -> x ∈ concat ls.
Proof.
  rewrite !list_elem_of_In. intros Hl Hx. apply in_concat. eauto.
Qed.

Lemma elem_of_concat_inv {A : Type} (ls : list (list A)) (x : A) :
  x ∈ concat ls -> exists l, l ∈ ls /\ x ∈ l.
Proof.
  rewrite list_elem_of_In. intros H. apply in_concat in H.
  destruct H as [l [Hl Hx]]. exists l. rewrite !list_elem_of_In. auto.
Qed.

Lemma head_last_distinct (p : list nat) (a b : nat) :
  NoDup p -> 2 <= length p -> head p = Some a -> last p = Some b -> a <> b.
Proof.
  intros Hnd Hlen Ha Hb.
  destruct p as [|x [|y tl]]; simpl in Hlen; try lia.
  injection Ha as ->. intros ->.
  apply NoDup_cons in Hnd. destruct Hnd as [Hx _]. apply Hx.
  apply (last_elem_of (y :: tl)). exact Hb.
Qed.

Section OnStrandMesh.

Variables (ps : list (list nat)) (bm : BMesh).
Hypothesis Hsm : strand_mesh ps bm.

Lemma path_facts p :
  p ∈ ps -> 2 <= length p /\ NoDup p /\ linked_path bm p
            /\ forall x, x ∈ p -> x < length bm.
Proof.
  intros Hp. destruct Hsm as [Htwo Hnd Hcov Hlink].
  rewrite List.Forall_forall in Htwo, Hlink.
  pose proof (proj1 (list_elem_of_In _ _) Hp) as Hin.
  split; [auto|]. split; [|split; [auto|]].
  - apply list_elem_of_split in Hp. destruct Hp as (l1 & l2 & ->).
    rewrite concat_app, concat_cons in Hnd.
    apply NoDup_app in Hnd. destruct Hnd as (_ & _ & Hnd).
    apply NoDup_app in Hnd. tauto.
  - intros x Hx. apply Hcov. eapply elem_of_concat; eauto.
Qed.

(** Two paths of the mesh that share a vertex are the same entry of a
    duplicate-free family. *)
Lemma paths_disjoint (us1 us2 : list (list nat)) p p' (x : nat) :
  NoDup (concat (us1 ++ p :: us2)) ->
  p' ∈ us1 ++ us2 -> x ∈ p -> x ∈ p' -> False.
Proof.
  intros Hnd Hp' Hx Hx'.
  rewrite concat_app, concat_cons in Hnd.
  apply NoDup_app in Hnd. destruct Hnd as (_ & H1 & Hnd).
  apply NoDup_app in Hnd. destruct Hnd as (_ & H2 & _).
  apply elem_of_app in Hp'. destruct Hp' as [Hp'|Hp'].
  - apply (H1 x); [eapply elem_of_concat; eauto|].
    apply elem_of_app. left. exact Hx.
  - apply (H2 x Hx). eapply elem_of_concat; eauto.
Qed.

Lemma end_is_start_vert p (s : nat) :
  p ∈ ps -> head p = Some s \/ last p = Some s ->
  s ∈ filter (fun v => length (link_edges bm v) = 1) (seq 0 (length bm)).
Proof.
  intros Hp Hend.
  destruct (path_facts p Hp) as (Hlen & Hnd & Hlink & Hlt).
  apply list_elem_of_filter. split.
  - destruct Hend as [Hh|Hl].
    + destruct p as [|x [|y tl]]; simpl in Hlen; try lia.
      injection Hh as ->.
      pose proof (Hlink [] s (y :: tl) eq_refl) as Hperm.
      apply Permutation_length in Hperm.
      rewrite length_map in Hperm. exact Hperm.
    + apply last_Some in Hl. destruct Hl as [l' ->].
      pose proof (Hlink l' s [] eq_refl) as Hperm.
      apply Permutation_length in Hperm.
      rewrite length_map in Hperm. rewrite Hperm.
      destruct (last l') as [u|] eqn:Hu; [reflexivity|].
      apply last_None in Hu. subst l'. simpl in Hlen. lia.
  - apply elem_of_seq. split; [lia|]. simpl. apply Hlt.
    destruct Hend; [apply head_elem_of|apply last_elem_of]; assumption.
Qed.

Lemma start_vert_is_end (s : nat) :
  s ∈ filter (fun v => length (link_edges bm v) = 1) (seq 0 (length bm)) ->
  exists p, p ∈ ps /\ (head p = Some s \/ last p = Some s).
Proof.
  intros Hs. apply list_elem_of_filter in Hs. destruct Hs as [Hdeg Hs].
  apply elem_of_seq in Hs.
  assert (Hin : s ∈ concat ps) by (apply (sm_cover _ _ Hsm); lia).
  apply elem_of_concat_inv in Hin. destruct Hin as (p & Hp & Hsp).
  exists p. split; [exact Hp|].
  destruct (path_facts p Hp) as (_ & _ & Hlink & _).
  apply list_elem_of_split in Hsp. destruct Hsp as (l1 & l2 & ->).
  pose proof (Hlink l1 s l2 eq_refl) as Hperm.
  apply Permutation_length in Hperm.
  rewrite length_map, Hdeg, length_app in Hperm.
  destruct l1 as [|a l1]; [left; reflexivity|].
  destruct l2 as [|b l2]; [right; apply last_snoc|].
  exfalso.
  destruct (last (a :: l1)) as [u|] eqn:Hu.
  - simpl in Hperm. lia.
  - apply last_None in Hu. discriminate.
Qed.

End OnStrandMesh.

End StrandFacts.

(* ===================================================================== *)
(** ** Strand extractor: the loop over the start vertices *)
(* ===================================================================== *)

Section StrandLoop.

Import Numeric Strands.

Variables (ps : list (list nat)) (bm : BMesh).
Variables (fuel : nat) (hair_coords : list vec).
Hypothesis Hsm : strand_mesh ps bm.
Hypothesis Hcoords : length bm <= length hair_coords.
Hypothesis Hfuel : Forall (fun p => length p <= fuel) ps.

Lemma oriented_walk p (s : nat) tags :
  p ∈ ps -> head p = Some s \/ last p = Some s ->
  (forall x, x ∈ p -> x ∉ tags) ->
  exists q e,
    oriented q p /\ head q = Some s /\ last q = Some e
    /\ (head p = Some e \/ last p = Some e) /\ e <> s
    /\ walk_island fuel bm tags s = Some (q, list_to_set q ∪ tags).
Proof.
  intros Hp Hend Hfresh.
  destruct (path_facts ps bm Hsm p Hp) as (Hlen & Hnd & Hlink & _).
  assert (Hf : length p <= fuel).
  { rewrite List.Forall_forall in Hfuel. apply Hfuel.
    apply list_elem_of_In. exact Hp. }
  destruct Hend as [Hh|Hl].
  - destruct (last p) as [e|] eqn:He.
    2:{ apply last_None in He. subst p. discriminate. }
    exists p, e. split; [left; reflexivity|]. split; [exact Hh|].
    split; [congruence|]. split; [right; congruence|]. split.
    + intros ->. eapply head_last_distinct; eauto.
    + apply walk_island_whole; auto.
  - destruct (head p) as [e|] eqn:He.
    2:{ destruct p; [discriminate|]. discriminate. }
    exists (reverse p), e. split; [right; reflexivity|].
    rewrite head_reverse, last_reverse.
    split; [exact Hl|]. split; [congruence|]. split; [left; congruence|]. split.
    + intros ->. eapply head_last_distinct; eauto.
    + apply walk_island_whole.
      * apply linked_path_reverse. exact Hlink.
      * rewrite reverse_Permutation. exact Hnd.
      * rewrite head_reverse. exact Hl.
      * intros x Hx. apply Hfresh. apply elem_of_reverse. exact Hx.
      * rewrite length_reverse. exact Hf.
Qed.

(** The loop over the start vertices, from a state in which the paths
    [unwalked] are untouched and every vertex still to come is either
    recorded as found or an end of an unwalked path: it walks each unwalked
    path exactly once. *)
Lemma hairs_loop_paths (rest : list nat) :
  forall (unwalked : list (list nat)) (tags found : gset nat),
    NoDup rest ->
    (forall p, p ∈ unwalked -> p ∈ ps) ->
    NoDup (concat unwalked) ->
    (forall s, s ∈ rest ->
       s ∈ found \/ exists p, p ∈ unwalked
                              /\ (head p = Some s \/ last p = Some s)) ->
    (forall p x, p ∈ unwalked -> x ∈ p -> x ∉ tags) ->
    (forall p s, p ∈ unwalked -> head p = Some s \/ last p = Some s ->
       s ∈ rest /\ s ∉ found) ->
    exists hairs order,
      hairs_loop fuel hair_coords bm rest tags found = Some hairs
      /\ order ≡ₚ unwalked
      /\ Forall2 (fun h p => oriented h.1 p) hairs order.
Proof.
  induction rest as [|s rest IH];
    intros unwalked tags found Hnd Hsub Hdisj Hrest Hfresh Hends.
  - exists [], []. simpl. split; [reflexivity|]. split; [|constructor].
    destruct unwalked as [|p us]; [reflexivity|]. exfalso.
    assert (Hp : p ∈ p :: us) by left.
    destruct (path_facts ps bm Hsm p (Hsub p Hp)) as (Hlen & _).
    destruct p as [|x tl]; [simpl in Hlen; lia|].
    destruct (Hends (x :: tl) x Hp (or_introl eq_refl)) as [Hin _].
    inversion Hin.
  - apply NoDup_cons in Hnd. destruct Hnd as [Hs Hnd].
    cbn [hairs_loop].
    destruct (decide (s ∈ found)) as [Hfound|Hnew].
    + apply (IH unwalked tags found); auto.
      * intros s' Hs'. apply Hrest. right. exact Hs'.
      * intros p e Hp He. destruct (Hends p e Hp He) as [Hin Hnf].
        split; [|exact Hnf].
        apply elem_of_cons in Hin. destruct Hin as [->|Hin]; [contradiction|].
        exact Hin.
    + destruct (Hrest s ltac:(left)) as [Hf|(p & Hp & Hend)]; [contradiction|].
      destruct (oriented_walk p s tags (Hsub p Hp) Hend (fun x => Hfresh p x Hp))
        as (q & e & Hq & Hqh & Hql & Hpe & Hes & Hwalk).
      rewrite Hwalk.
      destruct (path_facts ps bm Hsm p (Hsub p Hp)) as (Hlen & Hndp & _ & Hlt).
      assert (Hqp : forall x, x ∈ q <-> x ∈ p).
      { intros x. destruct Hq as [->| ->]; [reflexivity|].
        apply elem_of_reverse. }
      assert (Hqlen : length q = length p).
      { destruct Hq as [->| ->]; [reflexivity|]. apply length_reverse. }
      rewrite py_index_0, Hqh.
      rewrite py_index_before_last by lia.
      rewrite py_index_last by lia. rewrite Hql.
      destruct (lookup_lt_is_Some_2 q (length q - 2) ltac:(lia)) as [b Hb].
      rewrite Hb.
      assert (Hsp : s ∈ p) by (apply Hqp; apply head_elem_of; exact Hqh).
      assert (Hbp : b ∈ p)
        by (apply Hqp; eapply list_elem_of_lookup_2; exact Hb).
      assert (Hep : e ∈ p) by (apply Hqp; apply last_elem_of; exact Hql).
      destruct (lookup_lt_is_Some_2 hair_coords s) as [cs Hcs];
        [specialize (Hlt s Hsp); lia|].
      destruct (lookup_lt_is_Some_2 hair_coords b) as [cb Hcb];
        [specialize (Hlt b Hbp); lia|].
      rewrite Hcs, Hcb.
      apply list_elem_of_split in Hp. destruct Hp as (us1 & us2 & ->).
      destruct (IH (us1 ++ us2) (list_to_set q ∪ tags) ({[e]} ∪ found))
        as (hairs & order & Hloop & Hperm & Horient).
      * exact Hnd.
      * intros p' Hp'. apply Hsub.
        apply elem_of_app in Hp'. apply elem_of_app.
        destruct Hp'; [left|right; right]; assumption.
      * rewrite concat_app, concat_cons in Hdisj. rewrite concat_app.
        apply NoDup_app in Hdisj. destruct Hdisj as (H1 & H2 & H3).
        apply NoDup_app in H3. destruct H3 as (_ & _ & H3).
        apply NoDup_app. split; [exact H1|]. split; [|exact H3].
        intros x Hx Hx'. apply (H2 x Hx). apply elem_of_app. right. exact Hx'.
      * intros s' Hs'.
        destruct (Hrest s' ltac:(right; exact Hs'))
          as [Hf|(p' & Hp' & Hend')]; [left; set_solver|].
        apply elem_of_app in Hp'. rewrite elem_of_cons in Hp'.
        destruct Hp' as [Hp'|[->|Hp']].
        -- right. exists p'. split; [|exact Hend'].
           apply elem_of_app. left. exact Hp'.
        -- left. assert (s' <> s) by (intros ->; contradiction).
           assert (s' = e); [|set_solver].
           destruct Hend as [Hh|Hl], Hend' as [Hh'|Hl'], Hpe as [He|He];
             congruence.
        -- right. exists p'. split; [|exact Hend'].
           apply elem_of_app. right. exact Hp'.
      * intros p' x Hp' Hx.
        assert (Hxt : x ∉ tags).
        { apply (Hfresh p' x); [|exact Hx].
          apply elem_of_app in Hp'. apply elem_of_app.
          destruct Hp'; [left|right; right]; assumption. }
        assert (Hxq : x ∉ q).
        { intros Hxq. apply Hqp in Hxq.
          exact (paths_disjoint us1 us2 p p' x Hdisj Hp' Hxq Hx). }
        rewrite elem_of_union, elem_of_list_to_set. tauto.
      * intros p' e' Hp' He'.
        assert (Hp'' : p' ∈ us1 ++ p :: us2).
        { apply elem_of_app in Hp'. apply elem_of_app.
          destruct Hp'; [left|right; right]; assumption. }
        destruct (Hends p' e' Hp'' He') as [Hin Hnf].
        assert (He'p : e' ∈ p')
          by (destruct He'; [apply head_elem_of|apply last_elem_of]; assumption).
        assert (Hne : forall y, y ∈ p -> e' <> y).
        { intros y Hy ->.
          exact (paths_disjoint us1 us2 p p' y Hdisj Hp' Hy He'p). }
        split.
        -- apply elem_of_cons in Hin. destruct Hin as [->|Hin]; [|exact Hin].
           exfalso. exact (Hne s Hsp eq_refl).
        -- specialize (Hne e Hep). set_solver.
      * rewrite Hloop.
        eexists _, (p :: order). split; [reflexivity|]. split.
        -- rewrite Hperm. apply Permutation_middle.
        -- constructor; [exact Hq|exact Horient].
Qed.

End StrandLoop.

Section StrandTheorems.

Import Numeric Strands.

Lemma concat_oriented (hairs : list (list nat)) (order : list (list nat)) :
  Forall2 oriented hairs order -> concat hairs ≡ₚ concat order.
Proof.
  induction 1 as [|h p hairs order Hhp _ IH]; simpl; [reflexivity|].
  rewrite IH. apply Permutation_app_tail.
  destruct Hhp as [->| ->]; [reflexivity|apply reverse_Permutation].
Qed.

Lemma concat_Permutation {A : Type} (l l' : list (list A)) :
  l ≡ₚ l' -> concat l ≡ₚ concat l'.
Proof.
  induction 1 as [|x l l' _ IH|x y l|l l' l'' _ IH1 _ IH2]; simpl.
  - reflexivity.
  - rewrite IH. reflexivity.
  - rewrite !app_assoc. apply Permutation_app_tail, Permutation_app_comm.
  - rewrite IH1. exact IH2.
Qed.

(** C2. On a hair mesh made of simple open edge paths [ps] (each with its
    two degree-1 ends), and with the recursion allowed to go as deep as the
    longest path, the strand extractor returns, and the index sequences it
    yields are pairwise disjoint and visit every vertex of the mesh exactly
    once: their concatenation has no duplicate and holds exactly the
    vertices of the mesh.  Each path is yielded as exactly one strand, from
    one of its ends. *)
Theorem strands_partition_mesh (ps : list (list nat)) (bm : BMesh)
    (fuel : nat) (hair_coords : list vec) :
  strand_mesh ps bm ->
  length bm <= length hair_coords ->
  Forall (fun p => length p <= fuel) ps ->
  exists hairs order,
    get_individual_hairs fuel hair_coords bm = Some hairs
    /\ NoDup (concat hairs.*1)
    /\ (forall v, v ∈ concat hairs.*1 <-> v < length bm)
    /\ order ≡ₚ ps
    /\ Forall2 oriented hairs.*1 order.
Proof.
  intros Hsm Hcoords Hfuel.
  destruct (hairs_loop_paths ps bm fuel hair_coords Hsm Hcoords Hfuel
              (filter (fun v => length (link_edges bm v) = 1)
                      (seq 0 (length bm)))
              ps ∅ ∅)
    as (hairs & order & Hloop & Hperm & Horient).
  - apply NoDup_filter, NoDup_seq.
  - auto.
  - exact (sm_nodup _ _ Hsm).
  - intros s Hs. right. exact (start_vert_is_end ps bm Hsm s Hs).
  - intros p x _ _. apply not_elem_of_empty.
  - intros p s Hp Hend. split; [|apply not_elem_of_empty].
    exact (end_is_start_vert ps bm Hsm p s Hp Hend).
  - assert (Horient' : Forall2 oriented hairs.*1 order).
    { clear -Horient. induction Horient; simpl; constructor; auto. }
    assert (Hall : concat hairs.*1 ≡ₚ concat ps).
    { rewrite (concat_oriented _ _ Horient').
      apply concat_Permutation. exact Hperm. }
    exists hairs, order. split; [exact Hloop|]. split; [|split; [|split]].
    + rewrite Hall. exact (sm_nodup _ _ Hsm).
    + intros v. rewrite Hall. exact (sm_cover _ _ Hsm v).
    + exact Hperm.
    + exact Horient'.
Qed.

Lemma norm_vsub_euclidean (a b : vec) :
  norm (vsub a b) = euclidean_distance a b.
Proof.
  destruct a as [[ax ay] az], b as [[bx by_] bz]. simpl.
  f_equal. ring.
Qed.

Lemma norm_vsub_same (a : vec) : norm (vsub a a) = 0%R.
Proof.
  destruct a as [[ax ay] az]. simpl.
  replace ((ax - ax) * (ax - ax) + (ay - ay) * (ay - ay)
           + (az - az) * (az - az))%R with 0%R by ring.
  apply sqrt_0.
Qed.

Lemma py_index_before_last_inv {A : Type} (l : list A) (x : A) :
  py_index l (-2) = Some x ->
  2 <= length l /\ l !! (length l - 2) = Some x.
Proof.
  unfold py_index. simpl (0 <=? -2)%Z. cbv iota.
  destruct (Z.leb_spec (- Z.of_nat (length l)) (-2)) as [H|H]; [|discriminate].
  intros Hx. split; [lia|]. rewrite <- Hx. f_equal. lia.
Qed.

Lemma hairs_loop_lengths (fuel : nat) (hair_coords : list vec) (bm : BMesh)
    (start_verts : list nat) :
  forall (tags found : gset nat) hairs,
    hairs_loop fuel hair_coords bm start_verts tags found = Some hairs ->
    Forall (length_from_first_to_before_last hair_coords) hairs.
Proof.
  induction start_verts as [|s rest IH]; intros tags found hairs; simpl.
  - intros [= <-]. constructor.
  - destruct (decide (s ∈ found)); [apply IH|].
    destruct (walk_island fuel bm tags s) as [[island tags']|]; [|discriminate].
    rewrite py_index_0.
    destruct (head island) as [first|] eqn:Hfirst; [|discriminate].
    destruct (py_index island (-2)) as [bl|] eqn:Hbl; [|discriminate].
    destruct (py_index island (-1)) as [e|]; [|discriminate].
    destruct (hair_coords !! first) as [cf|] eqn:Hcf; [|discriminate].
    destruct (hair_coords !! bl) as [cb|] eqn:Hcb; [|discriminate].
    destruct (hairs_loop fuel hair_coords bm rest tags' ({[e]} ∪ found))
      as [hairs'|] eqn:Hrest; [|discriminate].
    intros [= <-]. constructor; [|eapply IH; exact Hrest].
    apply py_index_before_last_inv in Hbl. destruct Hbl as [Hlen Hbl].
    exists first, bl, cf, cb. simpl.
    split; [exact Hlen|]. split; [|split; [exact Hbl|]].
    + destruct island; [discriminate|]. exact Hfirst.
    + split; [exact Hcf|]. split; [exact Hcb|]. apply norm_vsub_euclidean.
Qed.

(** C3. Whenever the extractor returns, the [length] paired with a strand
    is the Euclidean distance between the coordinates of the first recorded
    vertex and of the second-to-last recorded vertex of the strand (its
    index [-2], not its last vertex); a strand of exactly two recorded
    vertices therefore gets length 0. *)
Theorem strand_length_to_second_last (fuel : nat) (hair_coords : list vec)
    (bm : BMesh) (hairs : list (list nat * R)) :
  get_individual_hairs fuel hair_coords bm = Some hairs ->
  Forall (fun hair =>
            length_from_first_to_before_last hair_coords hair
            /\ (length hair.1 = 2 -> hair.2 = 0%R))
         hairs.
Proof.
  intros Hrun. unfold get_individual_hairs in Hrun.
  apply hairs_loop_lengths in Hrun.
  eapply List.Forall_impl; [|exact Hrun].
  intros [idxs len] Hh. split; [exact Hh|].
  destruct Hh as (first & bl & cf & cb & _ & Hf & Hb & Hcf & Hcb & Hlen).
  simpl in *. intros H2. rewrite H2 in Hb. simpl in Hb.
  assert (bl = first) by congruence. subst bl.
  assert (cb = cf) by congruence. subst cb.
  rewrite Hlen, <- norm_vsub_euclidean. apply norm_vsub_same.
Qed.

End StrandTheorems.

Section StrandWitnesses.

Import Numeric Strands Samples.

(** Every way of cutting a short list at one of its entries. *)
Ltac path_cases H :=
  lazymatch type of H with
  | _ = ?l1 ++ _ :: _ =>
      destruct l1 as [|? l1]; simpl in H;
      [ first [ discriminate H | injection H; intros; subst; clear H ]
      | first [ discriminate H | injection H as ? H; subst; path_cases H ] ]
  end.

(** The sample mesh is made of its two paths. *)
Lemma sample_strand_mesh : strand_mesh sample_paths sample_bm.
Proof.
  split.
  - repeat constructor.
  - apply NoDup_ListNoDup. vm_compute. repeat constructor; simpl; intuition lia.
  - intros v. simpl. rewrite !elem_of_cons, elem_of_nil. lia.
  - repeat constructor; intros l1 v l2 H; path_cases H;
      vm_compute; reflexivity.
Qed.

(** The sample mesh is partitioned by its strands, with a recursion depth
    of 3. *)
Lemma strands_partition_mesh_witness :
  exists hairs order,
    get_individual_hairs 3 sample_coords sample_bm = Some hairs
    /\ NoDup (concat hairs.*1)
    /\ (forall v, v ∈ concat hairs.*1 <-> v < length sample_bm)
    /\ order ≡ₚ sample_paths
    /\ Forall2 oriented hairs.*1 order.
Proof.
  apply (strands_partition_mesh sample_paths sample_bm 3 sample_coords).
  - exact sample_strand_mesh.
  - simpl. lia.
  - repeat constructor.
Defined.

(** The sample mesh yields the strands [0; 1; 2] and [3; 4]; the first is
    measured from vertex 0 to vertex 1, the second from vertex 3 to
    itself. *)
Example sample_hairs :
  get_individual_hairs 3 sample_coords sample_bm
  = Some [([0; 1; 2], norm (vsub (0, 0, 0) (1, 0, 0))%R);
          ([3; 4], norm (vsub (0, 1, 0) (0, 1, 0))%R)].
Proof. vm_compute. reflexivity. Qed.

(** The lengths recorded for the two strands of the sample mesh. *)
Lemma strand_length_to_second_last_witness :
  Forall (fun hair =>
            length_from_first_to_before_last sample_coords hair
            /\ (length hair.1 = 2 -> hair.2 = 0%R))
         [([0; 1; 2], norm (vsub (0, 0, 0) (1, 0, 0))%R);
          ([3; 4], norm (vsub (0, 1, 0) (0, 1, 0))%R)].
Proof.
  apply (strand_length_to_second_last 3 sample_coords sample_bm).
  vm_compute. reflexivity.
Defined.

(** On the strand [0; 1; 2] the recorded length is 1, the distance to the
    second-to-last vertex, while its two ends are 2 apart. *)
Example sample_length_not_to_last :
  norm (vsub (0, 0, 0) (1, 0, 0))%R = 1%R
  /\ euclidean_distance (0, 0, 0)%R (2, 0, 0)%R = 2%R.
Proof.
  split.
  - unfold norm, vsub.
    replace ((0 - 1) * (0 - 1) + (0 - 0) * (0 - 0) + (0 - 0) * (0 - 0))%R
      with 1%R by ring.
    apply sqrt_1.
  - unfold euclidean_distance.
    replace ((0 - 2) ^ 2 + (0 - 0) ^ 2 + (0 - 0) ^ 2)%R with (2 * 2)%R by ring.
    apply sqrt_square. lra.
Qed.

(** With the recursion cut below the length of a strand the walk fails. *)
Example sample_recursion_limit :
  get_individual_hairs 2 sample_coords sample_bm = None.
Proof. vm_compute. reflexivity. Qed.

End StrandWitnesses.

(* ===================================================================== *)
(** ** Strand classifier and downsampler *)
(* ===================================================================== *)

Section ClassifierFacts.

Import Numeric Classifier.

Lemma Rgtb_true (a b : R) : Rgtb a b = true <-> (b < a)%R.
Proof. unfold Rgtb. destruct (Rlt_dec b a); split; auto; discriminate. Qed.

Lemma Rgeb_true (a b : R) : Rgeb a b = true <-> (b <= a)%R.
Proof. unfold Rgeb. destruct (Rle_dec b a); split; auto; discriminate. Qed.

Lemma thresholds_ordered : (0.05 < 0.1)%R.
Proof. lra. Qed.

(** The three conditions of the code against the class of the
    specification. *)
Lemma class_flags_spec (length : R) :
  (is_short length, is_medium length, is_long length)
  = class_flags (spec_length_class length).
Proof.
  pose proof thresholds_ordered as Hlt.
  unfold is_short, is_medium, is_long, spec_length_class, Rgtb, Rgeb.
  destruct (Rle_dec length 0.05), (Rle_dec length 0.1),
           (Rlt_dec 0.1 length), (Rlt_dec 0.05 length);
    simpl; try reflexivity; exfalso; lra.
Qed.



Lemma every_nth_lookup {A : Type} (step : nat) (l : list A) :
  1 <= step ->
  forall skip j, every_nth step skip l !! j = l !! (skip + j * step).
Proof.
  intros Hstep. induction l as [|x tl IH]; intros skip j; simpl.
  - reflexivity.
  - destruct skip as [|skip].
    + destruct j as [|j]; simpl; [reflexivity|].
      rewrite IH. replace (step + j * step) with (S (step - 1 + j * step)) by lia.
      reflexivity.
    + rewrite IH. reflexivity.
Qed.

Lemma retained_kept {A : Type} (quality : Quality) (i : nat)
    (hair_list : list A) :
  exists kept,
    retained (quality_dict quality) i hair_list = Some kept
    /\ kept_every_nth (stride_at (quality_dict quality) i) hair_list kept.
Proof.
  assert (Hstep : 1 <= stride_at (quality_dict quality) i).
  { destruct quality; simpl; destruct i as [|[|i]]; lia. }
  unfold retained, slice_step.
  destruct (Nat.ltb_spec 30 (length hair_list)) as [Hbig|Hsmall].
  - destruct (Nat.eqb_spec (stride_at (quality_dict quality) i) 0) as [H0|_];
      [lia|].
    eexists. split; [reflexivity|]. split; [|lia].
    intros _ j. rewrite every_nth_lookup by exact Hstep. reflexivity.
  - exists hair_list. split; [reflexivity|]. split; [lia|reflexivity].
Qed.

(** C6. Whatever the quality tier, [all_hairs] is made of what is kept of
    the short, the medium and the long bucket, in this order; of a bucket
    of more than 30 strands exactly those at indices 0, N, 2N, ... are kept,
    N being the stride of the tier for the bucket, and a bucket of 30
    strands or fewer is kept whole.  The selection is a function of the
    bucket alone. *)
Theorem create_mesh_downsampling {A : Type} (quality : Quality)
    (hairs : list (A * R)) :
  exists kept_short kept_medium kept_long,
    create_mesh_all_hairs quality hairs = Some (kept_short ++ kept_medium ++ kept_long)
    /\ kept_every_nth (stride_at (quality_dict quality) 0)
                      (short_hairs hairs) kept_short
    /\ kept_every_nth (stride_at (quality_dict quality) 1)
                      (medium_hairs hairs) kept_medium
    /\ kept_every_nth (stride_at (quality_dict quality) 2)
                      (long_hairs hairs) kept_long.
Proof.
  destruct (retained_kept quality 0 (short_hairs hairs)) as (ks & Hs & Hks).
  destruct (retained_kept quality 1 (medium_hairs hairs)) as (km & Hm & Hkm).
  destruct (retained_kept quality 2 (long_hairs hairs)) as (kl & Hl & Hkl).
  exists ks, km, kl. split; [|auto].
  unfold create_mesh_all_hairs. simpl. rewrite Hs. simpl. rewrite Hm. simpl.
  rewrite Hl. rewrite <- app_assoc. reflexivity.
Qed.

(** A bucket of 31 strands under tier [high]: every third short strand is
    kept, every sixth long one. *)
Example retained_31_high :
  retained (quality_dict high) 0 (seq 0 31)
  = Some [0; 3; 6; 9; 12; 15; 18; 21; 24; 27; 30]
  /\ retained (quality_dict high) 2 (seq 0 31) = Some [0; 6; 12; 18; 24; 30]
  /\ retained (quality_dict high) 0 (seq 0 30) = Some (seq 0 30).
Proof. repeat split; reflexivity. Qed.



End ClassifierFacts.

(* ===================================================================== *)
(** ** UV zone mapper *)
(* ===================================================================== *)

Section UVZoneFacts.

Import Numeric UVZones.

Lemma choice_elem_of {A : Type} (r : nat) (l : list A) (x : A) :
  choice r l = Some x -> x ∈ l.
Proof. unfold choice. apply list_elem_of_lookup_2. Qed.

(** One strand: whatever the two draws, a zone that is chosen comes from
    the bucket matching the measured length and width. *)
Lemma choose_zone_matching (hairzone_uv_dict : atlas) (length width : R)
    (r1 r2 : nat) (z : zone) :
  choose_zone hairzone_uv_dict length width r1 r2 = Some z ->
  from_matching_bucket hairzone_uv_dict length width z.
Proof.
  unfold choose_zone, from_matching_bucket, spec_length_key, spec_width_key,
    Rgtb.
  destruct (Rlt_dec 0.05 length).
  - destruct (dict_get "long" hairzone_uv_dict) as [table|]; [|discriminate].
    simpl.
    destruct (choice r1 (dict_values table)) as [subdict|] eqn:Hsub;
      [|discriminate].
    simpl. apply choice_elem_of in Hsub.
    destruct (Rlt_dec 0.02 width).
    + destruct (dict_get "wide" subdict) as [zones|] eqn:Hz; [|discriminate].
      simpl. intros Hc. apply choice_elem_of in Hc. eauto 10.
    + destruct (dict_get "narrow" subdict) as [zones|] eqn:Hz; [|discriminate].
      simpl. intros Hc. apply choice_elem_of in Hc. eauto 10.
  - destruct (dict_get "short" hairzone_uv_dict) as [table|]; [|discriminate].
    simpl.
    destruct (choice r1 (dict_values table)) as [subdict|] eqn:Hsub;
      [|discriminate].
    simpl. apply choice_elem_of in Hsub.
    destruct (Rlt_dec 0.01 width).
    + destruct (dict_get "wide" subdict) as [zones|] eqn:Hz; [|discriminate].
      simpl. intros Hc. apply choice_elem_of in Hc. eauto 10.
    + destruct (dict_get "narrow" subdict) as [zones|] eqn:Hz; [|discriminate].
      simpl. intros Hc. apply choice_elem_of in Hc. eauto 10.
Qed.

End UVZoneFacts.


(* ===================================================================== *)
(** ** Binary32 rounding *)
(* ===================================================================== *)

Section Float32Facts.

Import Haircap DensitySpec.

Local Open Scope Q_scope.

Lemma rint_nearest (q : Q) : nearest_int_even q (rint q).
Proof.
  unfold nearest_int_even, rint.
  pose proof (Qfloor_le q) as Hlo. pose proof (Qlt_floor q) as Hhi.
  set (f := Qfloor q) in *.
  assert (Hf1 : inject_Z (f + 1) == inject_Z f + 1)
    by (rewrite inject_Z_plus; reflexivity).
  rewrite Hf1 in Hhi.
  destruct (Qcompare (q - inject_Z f) (1 # 2)) eqn:Hc.
  - apply Qeq_alt in Hc. destruct (Z.even f) eqn:He.
    + split.
      * rewrite Hc. discriminate.
      * intros _. exact He.
    + assert (Hd : q - inject_Z (f + 1) == - (1 # 2))
        by (rewrite Hf1; Lqa.lra).
      split.
      * rewrite Hd. discriminate.
      * intros _. replace (f + 1)%Z with (Z.succ f) by lia.
        rewrite Z.even_succ, <- Z.negb_even, He. reflexivity.
  - apply Qlt_alt in Hc. split.
    + apply Qabs_case; intros; Lqa.lra.
    + intros Ht. exfalso. revert Ht. apply Qabs_case; intros; Lqa.lra.
  - apply Qgt_alt in Hc. split.
    + rewrite Hf1. apply Qabs_case; intros; Lqa.lra.
    + intros Ht. exfalso. revert Ht. rewrite Hf1.
      apply Qabs_case; intros; Lqa.lra.
Qed.

Lemma pow2_pos (e : Z) : 0 < 2 ^ e.
Proof. apply Qpower_0_lt. reflexivity. Qed.

Lemma pow2_nonzero (e : Z) : ~ 2 ^ e == 0.
Proof. pose proof (pow2_pos e). Lqa.lra. Qed.

Lemma pow2_le (a b : Z) : (a <= b)%Z -> 2 ^ a <= 2 ^ b.
Proof. intros H. apply Qpower_le_compat_l; [exact H|discriminate]. Qed.

Lemma pow2_inject (a : Z) : (0 <= a)%Z -> inject_Z (2 ^ a) == 2 ^ a.
Proof. intros Ha. rewrite Zpower_Qpower by exact Ha. reflexivity. Qed.

Lemma pow2_succ (e : Z) : 2 ^ (e + 1) == 2 * 2 ^ e.
Proof.
  rewrite Qpower_plus by discriminate. rewrite Qpower_1_r. ring.
Qed.

(** A positive integer between the powers of two around it. *)
Lemma log2_bounds (n : Z) :
  (0 < n)%Z ->
  2 ^ Z.log2 n <= inject_Z n /\ inject_Z n < 2 ^ (Z.log2 n + 1).
Proof.
  intros Hn. destruct (Z.log2_spec n Hn) as [Hlo Hhi].
  pose proof (Z.log2_nonneg n) as Hnn.
  rewrite <- !pow2_inject by lia. split.
  - rewrite <- Zle_Qle. exact Hlo.
  - rewrite <- Zlt_Qlt. replace (Z.log2 n + 1)%Z with (Z.succ (Z.log2 n))
      by lia. exact Hhi.
Qed.

Lemma ilog2_spec (q : Q) :
  0 < q -> 2 ^ ilog2 q <= q /\ q < 2 ^ (ilog2 q + 1).
Proof.
  intros Hq. destruct q as [n d]. unfold ilog2. cbn [Qnum Qden].
  assert (Hn : (0 < n)%Z).
  { unfold Qlt in Hq. simpl in Hq. lia. }
  destruct (log2_bounds n Hn) as [Hn1 Hn2].
  destruct (log2_bounds (Zpos d) ltac:(lia)) as [Hd1 Hd2].
  set (a := Z.log2 n) in *. set (b := Z.log2 (Z.pos d)) in *.
  assert (Hq' : n # d == inject_Z n / inject_Z (Zpos d))
    by apply Qmake_Qdiv.
  assert (Hdpos : 0 < inject_Z (Zpos d)) by reflexivity.
  pose proof (pow2_pos a). pose proof (pow2_pos b).
  pose proof (pow2_succ a) as Ha1. pose proof (pow2_succ b) as Hb1.
  assert (Hk : 2 ^ (a - b) == 2 ^ a / 2 ^ b)
    by (apply Qpower_minus; discriminate).
  assert (Hlow : 2 ^ (a - b - 1) < n # d).
  { replace (a - b - 1)%Z with (a - (b + 1))%Z by lia.
    rewrite Qpower_minus by discriminate. rewrite Hq', Hb1.
    apply Qlt_shift_div_l; [exact Hdpos|].
    unfold Qdiv. rewrite <- Qmult_assoc, (Qmult_comm (/ _)), Qmult_assoc.
    apply Qlt_shift_div_r; [Lqa.lra|]. rewrite Hb1 in Hd2. Lqa.nra. }
  assert (Hhigh : n # d < 2 ^ (a - b + 1)).
  { replace (a - b + 1)%Z with (a + 1 - b)%Z by lia.
    rewrite Qpower_minus by discriminate. rewrite Hq'.
    apply Qlt_shift_div_r; [exact Hdpos|].
    unfold Qdiv. rewrite <- Qmult_assoc, (Qmult_comm (/ _)), Qmult_assoc.
    apply Qlt_shift_div_l; [assumption|]. Lqa.nra. }
  destruct (Qle_bool (2 ^ (a - b)) (n # d)) eqn:Hb.
  - apply Qle_bool_iff in Hb. split; [exact Hb|exact Hhigh].
  - assert (Hlt : n # d < 2 ^ (a - b)).
    { apply Qnot_le_lt. intros Hle. apply Qle_bool_iff in Hle. congruence. }
    split; [apply Qlt_le_weak; exact Hlow|].
    replace (a - b - 1 + 1)%Z with (a - b)%Z by lia. exact Hlt.
Qed.

(** The executable rounding meets the statement of binary32 rounding. *)
Lemma f32_round_spec (t : Q) : binary32_of t (f32_round t).
Proof.
  unfold f32_round. destruct (Qeq_bool t 0) eqn:Hz.
  - apply Qeq_bool_iff in Hz. exists 0%Z, (-149)%Z.
    split; [lia|]. split.
    { rewrite Hz. apply pow2_pos. }
    split; [lia|]. split; [|ring].
    assert (H0 : t / 2 ^ (-149) - inject_Z 0 == 0)
      by (rewrite Hz; field; apply pow2_nonzero).
    split.
    + rewrite H0. discriminate.
    + rewrite H0. intros H. discriminate H.
  - assert (Hne : ~ t == 0).
    { intros H. apply Qeq_bool_iff in H. congruence. }
    assert (Hpos : 0 < Qabs t).
    { apply Qabs_case; intros; Lqa.lra. }
    destruct (ilog2_spec (Qabs t) Hpos) as [Hlo Hhi].
    exists (rint (t / 2 ^ f32_exponent t)), (f32_exponent t).
    unfold f32_exponent. set (L := ilog2 (Qabs t)) in *.
    split; [lia|]. split.
    { eapply Qlt_le_trans; [exact Hhi|]. apply pow2_le. lia. }
    split.
    { intros He. replace (Z.max (L - 23) (-149) + 23)%Z with L by lia.
      exact Hlo. }
    split; [apply rint_nearest|]. apply Qred_correct.
Qed.

Lemma clip01_clamped (q : Q) : clamped01 q (clip01 q).
Proof.
  unfold clamped01, clip01.
  destruct (Q.max_spec q 0) as [[H1 H2]|[H1 H2]];
    destruct (Q.min_spec (Qmax q 0) 1) as [[H3 H4]|[H3 H4]];
    rewrite H4; rewrite H2 in *; repeat split; intros; Lqa.lra.
Qed.

Lemma clamped01_range (x y : Q) : clamped01 x y -> 0 <= y /\ y <= 1.
Proof.
  intros (H0 & H1 & Hm).
  destruct (Qlt_le_dec x 0) as [Hx|Hx].
  - rewrite H0 by Lqa.lra. split; discriminate.
  - destruct (Qlt_le_dec 1 x) as [Hx1|Hx1].
    + rewrite H1 by Lqa.lra. split; discriminate.
    + rewrite Hm by (split; assumption). split; assumption.
Qed.

Lemma nearest_int_even_comp (t t' : Q) (n : Z) :
  t == t' -> nearest_int_even t n -> nearest_int_even t' n.
Proof.
  intros Ht [H1 H2]. split.
  - rewrite <- Ht. exact H1.
  - rewrite <- Ht. exact H2.
Qed.

Lemma nearest_int_even_unique (t : Q) (n n' : Z) :
  nearest_int_even t n -> nearest_int_even t n' -> n = n'.
Proof.
  assert (Hstep : forall a b : Z,
            nearest_int_even t a -> nearest_int_even t b ->
            (a < b)%Z -> False).
  { intros a b [Ha Hea] [Hb Heb] Hlt.
    pose proof Ha as Ha'. pose proof Hb as Hb'.
    apply Qabs_Qle_condition in Ha', Hb'.
    assert (Hab : (b <= a + 1)%Z).
    { apply Z.lt_succ_r. rewrite Zlt_Qlt.
      replace (Z.succ (a + 1)) with (a + 2)%Z by lia.
      rewrite inject_Z_plus. change (inject_Z 2) with 2. Lqa.lra. }
    assert (Hb1 : b = (a + 1)%Z) by lia. subst b.
    rewrite inject_Z_plus in Hb', Hb, Heb. change (inject_Z 1) with 1 in *.
    assert (Hta : t - inject_Z a == 1 # 2) by Lqa.lra.
    assert (Htb : t - (inject_Z a + 1) == - (1 # 2)) by Lqa.lra.
    assert (E1 : Z.even a = true) by (apply Hea; rewrite Hta; reflexivity).
    assert (E2 : Z.even (a + 1) = true)
      by (apply Heb; rewrite Htb; reflexivity).
    replace (a + 1)%Z with (Z.succ a) in E2 by lia.
    rewrite Z.even_succ, <- Z.negb_even, E1 in E2. discriminate. }
  intros Hn Hn'. destruct (Z.lt_trichotomy n n') as [H|[H|H]].
  - exfalso. exact (Hstep n n' Hn Hn' H).
  - exact H.
  - exfalso. exact (Hstep n' n Hn' Hn H).
Qed.

Lemma binary32_of_comp (t t' y : Q) :
  t == t' -> binary32_of t y -> binary32_of t' y.
Proof.
  intros Ht (m & e & He & Hhi & Hlo & Hn & Hy).
  exists m, e. split; [exact He|]. split; [rewrite <- Ht; exact Hhi|].
  split; [intros H; rewrite <- Ht; exact (Hlo H)|]. split; [|exact Hy].
  eapply nearest_int_even_comp; [|exact Hn]. rewrite Ht. reflexivity.
Qed.

(** Binary32 rounding has one answer. *)
Lemma binary32_of_unique (t y y' : Q) :
  binary32_of t y -> binary32_of t y' -> y == y'.
Proof.
  assert (Hexp : forall e e' : Z,
            Qabs t < 2 ^ (e + 24) ->
            ((-149 < e')%Z -> 2 ^ (e' + 23) <= Qabs t) ->
            (-149 <= e)%Z -> (e' <= e)%Z).
  { intros e e' Hhi Hlo He.
    destruct (Z_le_gt_dec e' e) as [H|H]; [exact H|].
    assert (Hlt : 2 ^ (e' + 23) < 2 ^ (e + 24))
      by (eapply Qle_lt_trans; [apply Hlo; lia|exact Hhi]).
    apply Qpower_lt_compat_l_inv in Hlt; [lia|reflexivity]. }
  intros (m & e & He & Hhi & Hlo & Hn & Hy)
         (m' & e' & He' & Hhi' & Hlo' & Hn' & Hy').
  assert (Hee : e = e').
  { apply Z.le_antisymm; [exact (Hexp e' e Hhi' Hlo He')
                         |exact (Hexp e e' Hhi Hlo' He)]. }
  subst e'. rewrite (nearest_int_even_unique _ _ _ Hn Hn') in Hy.
  rewrite Hy, Hy'. reflexivity.
Qed.

Lemma binary32_sum_from_unique (ws : list Q) :
  forall acc acc' s s',
    acc == acc' ->
    binary32_sum_from acc ws s -> binary32_sum_from acc' ws s' -> s == s'.
Proof.
  induction ws as [|w ws IH]; intros acc acc' s s' Hacc; simpl.
  - intros H1 H2. rewrite H1, H2. exact Hacc.
  - intros (v & a1 & Hv & Ha1 & Hrest) (v' & a1' & Hv' & Ha1' & Hrest').
    pose proof (binary32_of_unique _ _ _ Hv Hv') as Hvv.
    apply (IH a1 a1' s s'); [|exact Hrest|exact Hrest'].
    apply (binary32_of_unique (acc + v)); [exact Ha1|].
    eapply binary32_of_comp; [|exact Ha1']. rewrite Hacc, Hvv. reflexivity.
Qed.

Lemma clamped01_unique (x x' y y' : Q) :
  x == x' -> clamped01 x y -> clamped01 x' y' -> y == y'.
Proof.
  intros Hx (H0 & H1 & Hm) (H0' & H1' & Hm').
  destruct (Qlt_le_dec x 0) as [Hlt|Hge].
  - rewrite H0, H0' by Lqa.lra. reflexivity.
  - destruct (Qlt_le_dec 1 x) as [Hgt|Hle].
    + rewrite H1, H1' by Lqa.lra. reflexivity.
    + rewrite Hm, Hm' by (split; Lqa.lra). exact Hx.
Qed.

(** The statement of the [float32] density has one answer. *)
Lemma float32_density_unique (ws : list Q) (a a' : Q) :
  float32_density ws a -> float32_density ws a' -> a == a'.
Proof.
  intros (s & p & n & r & Hs & Hp & Hn & Hr & Ha)
         (s' & p' & n' & r' & Hs' & Hp' & Hn' & Hr' & Ha').
  assert (Hss : s == s')
    by (apply (binary32_sum_from_unique ws 0 0 s s');
        [reflexivity|exact Hs|exact Hs']).
  assert (Hpp : p == p').
  { apply (binary32_of_unique (s * 10000)); [exact Hp|].
    eapply binary32_of_comp; [|exact Hp']. rewrite Hss. reflexivity. }
  assert (Hnn : n = n').
  { apply (nearest_int_even_unique p); [exact Hn|].
    eapply nearest_int_even_comp; [|exact Hn']. rewrite Hpp. reflexivity. }
  subst n'.
  assert (Hrr : r == r') by (apply (binary32_of_unique _ _ _ Hr Hr')).
  exact (clamped01_unique r r' a a' Hrr Ha Ha').
Qed.

(** The error of one rounding: half a unit of the last place. *)
Lemma binary32_error (t y : Q) :
  binary32_of t y ->
  Qabs (t - y) <= Qabs t * (1 # 16777216) + 2 ^ (-150).
Proof.
  intros (m & e & He & Hhi & Hlo & [Hn _] & Hy).
  pose proof (pow2_pos e) as Hpe. pose proof (Qabs_nonneg t) as Ht.
  assert (Hd : t - y == (t / 2 ^ e - inject_Z m) * 2 ^ e)
    by (rewrite Hy; field; apply pow2_nonzero).
  rewrite Hd, Qabs_Qmult, (Qabs_pos (2 ^ e)) by Lqa.lra.
  assert (Hhalf : Qabs (t / 2 ^ e - inject_Z m) * 2 ^ e <= (1 # 2) * 2 ^ e).
  { apply Qmult_le_compat_r; [exact Hn|Lqa.lra]. }
  eapply Qle_trans; [exact Hhalf|].
  destruct (Z_le_gt_dec e (-149)) as [Hsub|Hnorm].
  - assert (e = (-149)%Z) by lia. subst e.
    assert (H150 : (1 # 2) * 2 ^ (-149) == 2 ^ (-150)) by reflexivity.
    rewrite H150.
    assert (0 <= Qabs t * (1 # 16777216)) by Lqa.lra. Lqa.lra.
  - specialize (Hlo ltac:(lia)).
    assert (H23 : 2 ^ (e + 23) == 2 ^ e * 8388608).
    { rewrite Qpower_plus by discriminate. reflexivity. }
    rewrite H23 in Hlo. pose proof (pow2_pos (-150)). Lqa.lra.
Qed.

End Float32Facts.

(* ===================================================================== *)
(** ** Haircap density colours *)
(* ===================================================================== *)

Section HaircapFacts.

Import Haircap DensitySpec.

Lemma set_color_Some (data data' : list color) (i : nat) (c : color) :
  set_color data i c = Some data' ->
  i < length data /\ data' = <[i := c]> data.
Proof.
  unfold set_color. destruct (Nat.ltb_spec i (length data)); [|discriminate].
  intros [= <-]. auto.
Qed.

Lemma set_color_same (data data' : list color) (i : nat) (c : color) :
  set_color data i c = Some data' -> data' !! i = Some c.
Proof.
  intros H. apply set_color_Some in H. destruct H as [Hi ->].
  apply list_lookup_insert_eq. exact Hi.
Qed.

Lemma set_color_keeps (data data' : list color) (i j : nat) (c : color) :
  set_color data i c = Some data' -> data !! j = Some c -> data' !! j = Some c.
Proof.
  intros H Hj. destruct (decide (i = j)) as [->|Hne].
  - eapply set_color_same; eauto.
  - apply set_color_Some in H. destruct H as [_ ->].
    rewrite list_lookup_insert_ne by exact Hne. exact Hj.
Qed.

Lemma set_color_other (data data' : list color) (i j : nat) (c : color) :
  set_color data i c = Some data' -> i <> j -> data' !! j = data !! j.
Proof.
  intros H Hne. apply set_color_Some in H. destruct H as [_ ->].
  apply list_lookup_insert_ne. exact Hne.
Qed.

(** Once black, a vertex stays black through the loop over the edges. *)
Lemma zero_boundary_keeps_black (edges : list BMEdge) :
  forall (data data' : list color) (v : nat),
    zero_boundary edges data = Some data' ->
    data !! v = Some (0, 0, 0, 1)%Q -> data' !! v = Some (0, 0, 0, 1)%Q.
Proof.
  induction edges as [|edge rest IH]; intros data data' v; simpl.
  - intros [= <-]. auto.
  - destruct (is_boundary edge); [|apply IH].
    destruct (verts edge) as [v1 v2].
    destruct (set_color data v1 (0, 0, 0, 1)%Q) as [d1|] eqn:H1;
      [|discriminate].
    simpl.
    destruct (set_color d1 v2 (0, 0, 0, 1)%Q) as [d2|] eqn:H2; [|discriminate].
    simpl. intros Hrest Hv. eapply IH; [exact Hrest|].
    eapply set_color_keeps; [exact H2|].
    eapply set_color_keeps; [exact H1|exact Hv].
Qed.

Lemma zero_boundary_blackens (edges : list BMEdge) :
  forall (data data' : list color) (edge : BMEdge),
    zero_boundary edges data = Some data' ->
    edge ∈ edges -> is_boundary edge = true ->
    data' !! (verts edge).1 = Some (0, 0, 0, 1)%Q
    /\ data' !! (verts edge).2 = Some (0, 0, 0, 1)%Q.
Proof.
  induction edges as [|e rest IH]; intros data data' edge Hrun Hin Hb.
  - inversion Hin.
  - apply elem_of_cons in Hin. simpl in Hrun. destruct Hin as [->|Hin].
    + rewrite Hb in Hrun. destruct (verts e) as [v1 v2]. simpl.
      destruct (set_color data v1 (0, 0, 0, 1)%Q) as [d1|] eqn:H1;
        [|discriminate].
      simpl in Hrun.
      destruct (set_color d1 v2 (0, 0, 0, 1)%Q) as [d2|] eqn:H2;
        [|discriminate].
      simpl in Hrun. split.
      * eapply zero_boundary_keeps_black; [exact Hrun|].
        eapply set_color_keeps; [exact H2|]. eapply set_color_same; eauto.
      * eapply zero_boundary_keeps_black; [exact Hrun|].
        eapply set_color_same; eauto.
    + destruct (is_boundary e); [|eapply IH; eauto].
      destruct (verts e) as [v1 v2].
      destruct (set_color data v1 (0, 0, 0, 1)%Q) as [d1|]; [|discriminate].
      simpl in Hrun.
      destruct (set_color d1 v2 (0, 0, 0, 1)%Q) as [d2|]; [|discriminate].
      simpl in Hrun. eapply IH; eauto.
Qed.

Lemma binary32_of_zero : binary32_of 0 0.
Proof. exact (f32_round_spec 0). Qed.

Lemma vg_values_of_lookup (vert_count : nat) (vg : VertexGroup) (i : nat) :
  i < vert_count ->
  exists v,
    vg_values_of vert_count vg !! i = Some v
    /\ binary32_of (default 0%Q (vg !! i)) v.
Proof.
  intros Hi. unfold vg_values_of, weight.
  change (map ?f ?l) with (f <$> l).
  rewrite list_lookup_fmap, lookup_seq_lt by exact Hi.
  simpl. destruct (vg !! i) as [w|]; simpl.
  - exists (f32_round w). split; [reflexivity|apply f32_round_spec].
  - exists 0%Q. split; [reflexivity|exact binary32_of_zero].
Qed.

Lemma sum_fold_lookup (vert_count : nat) (groups : list VertexGroup)
    (i : nat) :
  i < vert_count ->
  forall (agg : list Q) (a : Q),
    agg !! i = Some a ->
    exists s,
      fold_left (fun agg vg =>
                   zip_with f32_add agg (vg_values_of vert_count vg))
                groups agg !! i = Some s
      /\ binary32_sum_from a (weights_at groups i) s.
Proof.
  intros Hi. induction groups as [|vg groups IH]; intros agg a Ha; simpl.
  - exists a. split; [exact Ha|reflexivity].
  - destruct (vg_values_of_lookup vert_count vg i Hi) as (v & Hv & Hbv).
    destruct (IH (zip_with f32_add agg (vg_values_of vert_count vg))
                 (f32_add a v)) as (s & Hs & Hsum).
    { rewrite lookup_zip_with, Ha. simpl. rewrite Hv. reflexivity. }
    exists s. split; [exact Hs|].
    exists v, (f32_add a v). split; [exact Hbv|].
    split; [apply f32_round_spec|exact Hsum].
Qed.

Lemma vg_sum_of_lookup (vert_count : nat) (groups : list VertexGroup)
    (i : nat) :
  i < vert_count ->
  exists s,
    vg_sum_of vert_count groups !! i = Some s
    /\ binary32_sum_from 0 (weights_at groups i) s.
Proof.
  intros Hi. apply (sum_fold_lookup vert_count groups i Hi).
  apply lookup_replicate_2. exact Hi.
Qed.

Lemma vg_aggregate_of_sum (vert_count : nat) (groups : list VertexGroup)
    (i : nat) (s : Q) :
  vg_sum_of vert_count groups !! i = Some s ->
  vg_aggregate_of vert_count groups !! i = Some (clip01 (round4 s)).
Proof.
  intros Hs. unfold vg_aggregate_of.
  change (map ?f ?l) with (f <$> l).
  rewrite !list_lookup_fmap, Hs. reflexivity.
Qed.

(** The aggregate computed by the code against the statement of the
    [float32] arithmetic. *)
Lemma vg_aggregate_of_lookup (vert_count : nat) (groups : list VertexGroup)
    (i : nat) :
  i < vert_count ->
  exists a,
    vg_aggregate_of vert_count groups !! i = Some a
    /\ float32_density (weights_at groups i) a.
Proof.
  intros Hi.
  destruct (vg_sum_of_lookup vert_count groups i Hi) as (s & Hs & Hsum).
  exists (clip01 (round4 s)). split; [apply vg_aggregate_of_sum, Hs|].
  exists s, (f32_mul s 10000), (rint (f32_mul s 10000)), (round4 s).
  split; [exact Hsum|]. split; [apply f32_round_spec|].
  split; [apply rint_nearest|]. split; [apply f32_round_spec|].
  apply clip01_clamped.
Qed.

Lemma vg_sum_of_length (vert_count : nat) (groups : list VertexGroup) :
  length (vg_sum_of vert_count groups) = vert_count.
Proof.
  unfold vg_sum_of.
  assert (H : forall agg, length agg = vert_count ->
            length (fold_left
                      (fun agg vg => zip_with f32_add agg
                                       (vg_values_of vert_count vg))
                      groups agg) = vert_count).
  { induction groups as [|vg groups IH]; intros agg Hagg; simpl; [exact Hagg|].
    apply IH. rewrite length_zip_with. unfold vg_values_of.
    rewrite length_map, length_seq. lia. }
  apply H. apply length_replicate.
Qed.

Lemma vg_aggregate_of_length (vert_count : nat) (groups : list VertexGroup) :
  length (vg_aggregate_of vert_count groups) = vert_count.
Proof.
  unfold vg_aggregate_of. rewrite !length_map. apply vg_sum_of_length.
Qed.

Section Painting.

Variable point : Type.
Variable kd_find : point -> nat.

Lemma paint_density_from_spec (vg_aggregate : list Q)
    (haircap_world_coords : list point) :
  forall (start : nat) (data data' : list color),
    paint_density_from point kd_find start vg_aggregate haircap_world_coords
                       data = Some data' ->
    (forall k, k < start -> data' !! k = data !! k)
    /\ forall i co, haircap_world_coords !! i = Some co ->
         exists value,
           vg_aggregate !! kd_find co = Some value
           /\ data' !! (start + i) = Some (value, value, value, 1%Q).
Proof.
  induction haircap_world_coords as [|co0 rest IH];
    intros start data data'; simpl.
  - intros [= <-]. split; [auto|]. intros i co Hi. discriminate.
  - destruct (vg_aggregate !! kd_find co0) as [value|] eqn:Hv; [|discriminate].
    simpl.
    destruct (set_color data start (value, value, value, 1%Q)) as [d1|] eqn:H1;
      [|discriminate].
    simpl. intros Hrest.
    destruct (IH (S start) d1 data' Hrest) as [Hkeep Hpaint]. split.
    + intros k Hk. rewrite Hkeep by lia.
      eapply set_color_other; [exact H1|lia].
    + intros [|i] co Hi; simpl in Hi.
      * injection Hi as <-. exists value. split; [exact Hv|].
        rewrite Nat.add_0_r, Hkeep by lia.
        eapply set_color_same; exact H1.
      * destruct (Hpaint i co Hi) as (v & Hv' & Hd).
        exists v. split; [exact Hv'|].
        replace (start + S i) with (S start + i) by lia. exact Hd.
Qed.

(** C8. Whenever the painting of the haircap completes, every vertex of a
    boundary edge of the haircap carries the colour (0, 0, 0, 1), whatever
    the density groups and whatever density was painted on it before. *)
Theorem boundary_vertices_black (vert_count : nat)
    (density_vertex_groups : list VertexGroup)
    (haircap_world_coords : list point) (edges : list BMEdge)
    (data data' : list color) (edge : BMEdge) :
  add_haircap_colors point kd_find vert_count density_vertex_groups
                     haircap_world_coords edges data = Some data' ->
  edge ∈ edges -> is_boundary edge = true ->
  data' !! (verts edge).1 = Some (0, 0, 0, 1)%Q
  /\ data' !! (verts edge).2 = Some (0, 0, 0, 1)%Q.
Proof.
  unfold add_haircap_colors. intros Hrun Hin Hb.
  destruct (paint_density point kd_find _ haircap_world_coords data)
    as [painted|]; [|discriminate].
  simpl in Hrun. eapply zero_boundary_blackens; eauto.
Qed.

(** C9, amended. The aggregate density of each body vertex is the sum of
    its weights over the density groups, a group the vertex is not
    assigned to counting for 0 and raising no error, rounded to 4 decimals
    the way [np.round] does on a [float32] array (the [float32] product
    with [10^4], its nearest integer with ties to even, the [float32]
    quotient by [10^4]) and then clamped to [[0, 1]]; and when the density
    loop completes, before the boundary is zeroed, each haircap vertex
    carries the colour (a, a, a, 1) with [a] the aggregate density of its
    nearest body vertex. *)
Theorem haircap_density_colors (vert_count : nat)
    (density_vertex_groups : list VertexGroup)
    (haircap_world_coords : list point) (data data' : list color) :
  paint_density point kd_find
                (vg_aggregate_of vert_count density_vertex_groups)
                haircap_world_coords data = Some data' ->
  (forall j, j < vert_count ->
     exists a,
       vg_aggregate_of vert_count density_vertex_groups !! j = Some a
       /\ float32_density (weights_at density_vertex_groups j) a
       /\ forall a', float32_density (weights_at density_vertex_groups j) a'
                    -> (a' == a)%Q)
  /\ forall i co, haircap_world_coords !! i = Some co ->
       kd_find co < vert_count
       /\ exists a,
            vg_aggregate_of vert_count density_vertex_groups !! kd_find co
            = Some a
            /\ float32_density
                 (weights_at density_vertex_groups (kd_find co)) a
            /\ data' !! i = Some (a, a, a, 1%Q).
Proof.
  intros Hrun. split.
  - intros j Hj.
    destruct (vg_aggregate_of_lookup vert_count density_vertex_groups j Hj)
      as (a & Ha & Hspec).
    exists a. split; [exact Ha|]. split; [exact Hspec|].
    intros a' Ha'. exact (float32_density_unique _ _ _ Ha' Hspec).
  - intros i co Hi. unfold paint_density in Hrun.
    destruct (paint_density_from_spec _ _ 0 data data' Hrun) as [_ Hpaint].
    destruct (Hpaint i co Hi) as (value & Hv & Hd).
    assert (Hlt : kd_find co < vert_count).
    { apply lookup_lt_Some in Hv.
      rewrite vg_aggregate_of_length in Hv. exact Hv. }
    split; [exact Hlt|].
    destruct (vg_aggregate_of_lookup vert_count density_vertex_groups
                (kd_find co) Hlt) as (a & Ha & Hspec).
    exists a. split; [exact Ha|]. split; [exact Hspec|].
    rewrite Ha in Hv. injection Hv as <-. exact Hd.
Qed.

End Painting.

End HaircapFacts.

Section HaircapWitnesses.

Import Haircap DensitySpec Samples.

Local Open Scope Q_scope.

(** The binary32 value nearest to 0.7. *)
Example binary32_of_seven_tenths :
  binary32_of (7 # 10) (11744051 # 16777216)
  /\ Qabs ((7 # 10) - (11744051 # 16777216)) < 1 # 10000000.
Proof.
  split; [|reflexivity].
  exists 11744051%Z, (-24)%Z. split; [lia|].
  split; [reflexivity|]. split; [intros _; discriminate|].
  split; [split; [discriminate|intros H; discriminate H]|reflexivity].
Qed.

(** Weights 0.3 and 0.4 in two groups give the binary32 value nearest to
    0.7; a vertex in no group gets 0. *)
Example sample_density :
  vg_aggregate_of 2%nat [group_a; group_b] = [11744051 # 16777216; 0].
Proof. vm_compute. reflexivity. Qed.

(** [np.round] on [float32] entries: 0.12355 goes up to 0.1236, while
    the binary32 values stored for 0.12345 and for 0.00025 go down to
    0.1234 and 0.0002 although they lie above the middle; clamping cuts
    at 0 and 1. *)
Example sample_rounding :
  round4 (f32_round (12355 # 100000)) == f32_round (1236 # 10000)
  /\ round4 (f32_round (12345 # 100000)) == f32_round (1234 # 10000)
  /\ (12345 # 100000) < f32_round (12345 # 100000)
  /\ round4 (f32_round (25 # 100000)) == f32_round (2 # 10000)
  /\ (25 # 100000) < f32_round (25 # 100000)
  /\ clip01 (3 # 2) = 1 /\ clip01 (- 1 # 2) = 0.
Proof. repeat split; vm_compute; reflexivity. Qed.

(** C9, as the specification states it: on the weight stored for 0.00025
    the aggregate of the code lies below 0.0002, while the sum rounded to 4
    decimals and clamped is 0.0003; so the aggregate is not the sum rounded
    to 4 decimals. *)
Lemma density_not_the_exact_rounding :
  exists a,
    vg_aggregate_of 1%nat [near_tie_group] !! 0%nat = Some a
    /\ a < 2 # 10000
    /\ (forall a', exact_density (weights_at [near_tie_group] 0%nat) a' ->
          a' == 3 # 10000)
    /\ ~ exact_density (weights_at [near_tie_group] 0%nat) a.
Proof.
  assert (Hexact : forall a',
             exact_density (weights_at [near_tie_group] 0%nat) a' ->
             a' == 3 # 10000).
  { intros a' (y & (n & Hy & Hd) & (_ & _ & Hm)).
    assert (Hw : fold_left Qplus (weights_at [near_tie_group] 0%nat) 0
                 == 8589935 # 34359738368) by (vm_compute; reflexivity).
    rewrite Hw in Hd. apply Qabs_Qle_condition in Hd.
    destruct Hd as [Hd1 Hd2].
    assert (Hn : n = 3%Z).
    { assert (Hyn : inject_Z n == y * 10000) by (rewrite Hy; field).
      assert (H1 : (2 < n)%Z).
      { rewrite Zlt_Qlt, Hyn. change (inject_Z 2) with 2. Lqa.lra. }
      assert (H2 : (n < 4)%Z).
      { rewrite Zlt_Qlt, Hyn. change (inject_Z 4) with 4. Lqa.lra. }
      lia. }
    subst n.
    assert (Hy3 : y == 3 # 10000) by (rewrite Hy; reflexivity).
    rewrite <- Hy3. apply Hm. rewrite Hy3. split; discriminate. }
  exists (13743895 # 68719476736). split; [vm_compute; reflexivity|].
  split; [reflexivity|]. split; [exact Hexact|].
  intros H. apply Hexact in H. discriminate H.
Qed.

(** The two vertices of the boundary edge of the sample haircap end up
    black, the third keeps its density. *)
Lemma boundary_vertices_black_witness :
  [(0, 0, 0, 1); (0, 0, 0, 1);
   (11744051 # 16777216, 11744051 # 16777216, 11744051 # 16777216, 1)]
    !! 0%nat
  = Some (0, 0, 0, 1)
  /\ [(0, 0, 0, 1); (0, 0, 0, 1);
      (11744051 # 16777216, 11744051 # 16777216, 11744051 # 16777216, 1)]
       !! 1%nat
     = Some (0, 0, 0, 1).
Proof.
  apply (boundary_vertices_black nat (fun v => v) 2%nat [group_a; group_b]
           sample_cap_points sample_cap_edges sample_cap_data _
           {| verts := (0, 1)%nat; is_boundary := true |}).
  - vm_compute. reflexivity.
  - left.
  - reflexivity.
Defined.

(** Before the boundary is zeroed the three vertices of the sample haircap
    carry the density of body vertex 0, the binary32 value nearest to
    0.7. *)
Lemma haircap_density_colors_witness :
  (forall j, (j < 2)%nat ->
     exists a,
       vg_aggregate_of 2%nat [group_a; group_b] !! j = Some a
       /\ float32_density (weights_at [group_a; group_b] j) a
       /\ forall a', float32_density (weights_at [group_a; group_b] j) a'
                    -> a' == a)
  /\ forall i co, sample_cap_points !! i = Some co ->
       (co < 2)%nat
       /\ exists a,
            vg_aggregate_of 2%nat [group_a; group_b] !! co = Some a
            /\ float32_density (weights_at [group_a; group_b] co) a
            /\ replicate 3%nat (11744051 # 16777216, 11744051 # 16777216,
                            11744051 # 16777216, 1) !! i
               = Some (a, a, a, 1).
Proof.
  apply (haircap_density_colors nat (fun v => v) 2%nat [group_a; group_b]
           sample_cap_points sample_cap_data).
  vm_compute. reflexivity.
Defined.

End HaircapWitnesses.

(* ===================================================================== *)
(** * Further properties of the hair card code *)
(* ===================================================================== *)

(* ===================================================================== *)
(** ** Strand extractor on arbitrary meshes *)
(* ===================================================================== *)

Section WalkAnyMesh.

Import Numeric Strands Topology.

Implicit Types (bm : BMesh) (tags found : gset nat).

Lemma walk_linked_fold_None
    (walk : gset nat -> nat -> option (list nat * gset nat))
    (linked : list nat) :
  fold_left (walk_linked walk) linked None = None.
Proof. induction linked as [|w linked IH]; simpl; auto. Qed.

(** The loop over [linked_verts], for a recursive call that behaves as
    [walk_post] says. *)
Lemma walk_linked_fold bm
    (walk : gset nat -> nat -> option (list nat * gset nat)) :
  (forall tags v out tags',
     walk tags v = Some (out, tags') -> walk_post bm tags v out tags') ->
  forall (linked yielded : list nat) tg (out : list nat) tags',
    fold_left (walk_linked walk) linked (Some (yielded, tg))
    = Some (out, tags') ->
    exists more,
      out = yielded ++ more
      /\ NoDup more
      /\ (forall x, x ∈ more -> x ∉ tg)
      /\ tags' = list_to_set more ∪ tg
      /\ (forall w, w ∈ linked -> w ∈ tags')
      /\ forall x y, x ∈ more -> y ∈ neighbours bm x -> y ∈ tags'.
Proof.
  intros Hwalk. induction linked as [|w linked IH];
    intros yielded tg out tags' Hfold.
  - simpl in Hfold. injection Hfold as <- <-. exists [].
    rewrite app_nil_r. split; [reflexivity|]. split; [constructor|].
    split; [intros x Hx; inversion Hx|]. split; [set_solver|].
    split; [intros w H; inversion H|intros x y H; inversion H].
  - simpl in Hfold. destruct (decide (w ∈ tg)) as [Hw|Hw].
    + destruct (IH _ _ _ _ Hfold) as (more & -> & Hnd & Hfresh & -> & Hl & Hn).
      exists more. repeat split; auto.
      intros w' Hw'. apply elem_of_cons in Hw'.
      destruct Hw' as [->|Hw']; [set_solver|auto].
    + destruct (walk tg w) as [[m1 tg1]|] eqn:Hw1.
      2:{ rewrite walk_linked_fold_None in Hfold. discriminate. }
      destruct (Hwalk _ _ _ _ Hw1) as (r1 & -> & Hnd1 & Hf1 & -> & Hn1).
      destruct (IH _ _ _ _ Hfold) as (m2 & -> & Hnd2 & Hf2 & -> & Hl2 & Hn2).
      exists ((w :: r1) ++ m2). rewrite app_assoc.
      split; [reflexivity|]. split; [|split; [|split; [|split]]].
      * apply NoDup_app. split; [|split; [|exact Hnd2]].
        -- apply NoDup_cons. split; [|exact Hnd1].
           intros Hin. destruct (Hf1 w Hin) as [Hne _]. congruence.
        -- intros x Hx Hx2. apply (Hf2 x Hx2).
           rewrite elem_of_union, elem_of_list_to_set. left. exact Hx.
      * intros x Hx. apply elem_of_app in Hx. destruct Hx as [Hx|Hx].
        -- apply elem_of_cons in Hx. destruct Hx as [->|Hx]; [exact Hw|].
           apply Hf1. exact Hx.
        -- specialize (Hf2 x Hx). set_solver.
      * rewrite list_to_set_app_L. set_solver.
      * intros w' Hw'. apply elem_of_cons in Hw'.
        destruct Hw' as [->|Hw']; [set_solver|auto].
      * intros x y Hx Hy. apply elem_of_app in Hx. destruct Hx as [Hx|Hx].
        -- specialize (Hn1 x y Hx Hy). set_solver.
        -- eauto.
Qed.

Lemma walk_island_post (fuel : nat) bm :
  forall tags (v : nat) (out : list nat) tags',
    walk_island fuel bm tags v = Some (out, tags') ->
    walk_post bm tags v out tags'.
Proof.
  induction fuel as [|fuel IH]; intros tags v out tags' Hwalk;
    [discriminate|].
  cbn [walk_island] in Hwalk.
  destruct (walk_linked_fold bm (walk_island fuel bm) IH _ _ _ _ _ Hwalk)
    as (more & -> & Hnd & Hfresh & -> & Hlinked & Hn).
  exists more. split; [reflexivity|]. split; [exact Hnd|].
  split; [|split].
  - intros x Hx. specialize (Hfresh x Hx). set_solver.
  - simpl. set_solver.
  - intros x y Hx Hy. apply elem_of_cons in Hx. destruct Hx as [->|Hx].
    + destruct (decide (y ∈ {[v]} ∪ tags)) as [Hin|Hout]; [set_solver|].
      apply Hlinked. apply list_elem_of_filter. split; [exact Hout|exact Hy].
    + eauto.
Qed.

(** A walk that starts on a vertex whose neighbours are all tagged yields
    that vertex alone. *)
Lemma walk_island_dead_end (fuel : nat) bm tags (v : nat) (out : list nat)
    tags' :
  (forall y, y ∈ neighbours bm v -> y ∈ {[v]} ∪ tags) ->
  walk_island fuel bm tags v = Some (out, tags') -> out = [v].
Proof.
  intros Hall. destruct fuel as [|fuel]; [discriminate|].
  cbn [walk_island].
  assert (Hnil : filter (fun x => x ∉ {[v]} ∪ tags)
                        (map (fun e => other_vert e v) (link_edges bm v)) = []).
  { destruct (filter _ _) as [|x l] eqn:E; [reflexivity|]. exfalso.
    assert (Hx : x ∈ x :: l) by left. rewrite <- E in Hx.
    apply list_elem_of_filter in Hx. destruct Hx as [Hx1 Hx2].
    apply Hx1, Hall. exact Hx2. }
  rewrite Hnil. simpl. intros [= <- _]. reflexivity.
Qed.

Lemma closed_tags_walk bm tags (v : nat) (out : list nat) tags' :
  closed_tags bm tags -> walk_post bm tags v out tags' ->
  closed_tags bm tags'.
Proof.
  intros Hc (rest & -> & _ & _ & -> & Hn) x y Hx Hy.
  apply elem_of_union in Hx. destruct Hx as [Hx|Hx].
  - apply elem_of_list_to_set in Hx. eauto.
  - apply elem_of_union. right. eauto.
Qed.

Lemma hairs_loop_disjoint (fuel : nat) (hair_coords : list vec) bm
    (start_verts : list nat) :
  forall tags found (hairs : list (list nat * R)),
    closed_tags bm tags ->
    (forall s, s ∈ start_verts -> length (link_edges bm s) = 1) ->
    hairs_loop fuel hair_coords bm start_verts tags found = Some hairs ->
    NoDup (concat hairs.*1)
    /\ (forall x, x ∈ concat hairs.*1 -> x ∉ tags)
    /\ Forall (starts_at_tip bm) hairs.*1.
Proof.
  induction start_verts as [|s rest IH]; intros tags found hairs Hc Hdeg Hrun.
  - simpl in Hrun. injection Hrun as <-. simpl.
    split; [constructor|]. split; [intros x Hx; inversion Hx|constructor].
  - cbn [hairs_loop] in Hrun.
    assert (Hdeg' : forall s', s' ∈ rest -> length (link_edges bm s') = 1)
      by (intros s' Hs'; apply Hdeg; right; exact Hs').
    destruct (decide (s ∈ found)); [eapply IH; eauto|].
    destruct (walk_island fuel bm tags s) as [[island tags']|] eqn:Hwalk;
      [|discriminate].
    destruct (py_index island 0) as [first|]; [|discriminate].
    destruct (py_index island (-2)) as [bl|] eqn:Hbl; [|discriminate].
    destruct (py_index island (-1)) as [e|]; [|discriminate].
    destruct (hair_coords !! first); [|discriminate].
    destruct (hair_coords !! bl); [|discriminate].
    destruct (hairs_loop fuel hair_coords bm rest tags' ({[e]} ∪ found))
      as [hairs'|] eqn:Hrest; [|discriminate].
    injection Hrun as <-.
    apply py_index_before_last_inv in Hbl. destruct Hbl as [Hlen _].
    pose proof (walk_island_post _ _ _ _ _ _ Hwalk) as Hpost.
    assert (Hs : s ∉ tags).
    { intros Hs.
      assert (island = [s]); [|subst island; simpl in Hlen; lia].
      eapply walk_island_dead_end; [|exact Hwalk].
      intros y Hy. apply elem_of_union. right. eapply Hc; eauto. }
    pose proof (closed_tags_walk _ _ _ _ _ Hc Hpost) as Hc'.
    destruct Hpost as (more & -> & Hnd & Hfresh & -> & _).
    destruct (IH _ _ _ Hc' Hdeg' Hrest) as (Hnd' & Hfresh' & Htips).
    cbn [fmap list_fmap fst concat]. split; [|split].
    + apply NoDup_app. split; [|split; [|exact Hnd']].
      * apply NoDup_cons. split; [|exact Hnd].
        intros Hin. destruct (Hfresh s Hin). congruence.
      * intros x Hx Hx'. apply (Hfresh' x Hx').
        rewrite elem_of_union, elem_of_list_to_set. left. exact Hx.
    + intros x Hx. apply elem_of_app in Hx. destruct Hx as [Hx|Hx].
      * apply elem_of_cons in Hx. destruct Hx as [->|Hx]; [exact Hs|].
        apply Hfresh. exact Hx.
      * specialize (Hfresh' x Hx). set_solver.
    + constructor; [|exact Htips].
      split; [exact Hlen|]. exists s. split; [reflexivity|].
      apply Hdeg. left.
Qed.

(** X1. Whatever the hair mesh, branching or not: when the extractor
    returns, no vertex occurs in two strands or twice in one strand, every
    strand holds at least two vertices, and every strand starts at a vertex
    with a single edge. *)
Theorem strands_disjoint_any_mesh (fuel : nat) (hair_coords : list vec) bm
    (hairs : list (list nat * R)) :
  get_individual_hairs fuel hair_coords bm = Some hairs ->
  NoDup (concat hairs.*1) /\ Forall (starts_at_tip bm) hairs.*1.
Proof.
  unfold get_individual_hairs. intros Hrun.
  apply hairs_loop_disjoint in Hrun.
  - tauto.
  - intros x y Hx. exfalso. exact (not_elem_of_empty x Hx).
  - intros s Hs. apply list_elem_of_filter in Hs. tauto.
Qed.

Lemma py_index_elem_of {A : Type} (l : list A) (i : Z) (x : A) :
  py_index l i = Some x -> x ∈ l.
Proof.
  unfold py_index. destruct (0 <=? i)%Z.
  - apply list_elem_of_lookup_2.
  - destruct (- Z.of_nat (length l) <=? i)%Z; [|discriminate].
    apply list_elem_of_lookup_2.
Qed.

(** A start vertex still to come that is tagged but not recorded as found
    dooms the loop: its walk yields it alone and the index [-2] fails. *)
Lemma hairs_loop_doomed (fuel : nat) (hair_coords : list vec) bm
    (start_verts : list nat) (x : nat) :
  forall tags found,
    closed_tags bm tags -> found ⊆ tags ->
    x ∈ start_verts -> x ∈ tags -> x ∉ found ->
    hairs_loop fuel hair_coords bm start_verts tags found = None.
Proof.
  induction start_verts as [|s rest IH]; intros tags found Hc Hsub Hin Hx Hnf.
  - inversion Hin.
  - cbn [hairs_loop].
    destruct (decide (s ∈ found)) as [Hs|Hs].
    + apply IH; auto. apply elem_of_cons in Hin.
      destruct Hin as [->|Hin]; [contradiction|exact Hin].
    + destruct (walk_island fuel bm tags s) as [[island tags']|] eqn:Hwalk;
        [|reflexivity].
      destruct (decide (s ∈ tags)) as [Hst|Hst].
      * assert (island = [s]) as ->.
        { eapply walk_island_dead_end; [|exact Hwalk].
          intros y Hy. apply elem_of_union. right. eapply Hc; eauto. }
        reflexivity.
      * destruct (py_index island 0) as [first|]; [|reflexivity].
        destruct (py_index island (-2)) as [bl|]; [|reflexivity].
        destruct (py_index island (-1)) as [e|] eqn:He; [|reflexivity].
        destruct (hair_coords !! first); [|reflexivity].
        destruct (hair_coords !! bl); [|reflexivity].
        pose proof (walk_island_post _ _ _ _ _ _ Hwalk) as Hpost.
        pose proof (closed_tags_walk _ _ _ _ _ Hc Hpost) as Hc'.
        destruct Hpost as (more & -> & Hnd & Hfresh & -> & _).
        assert (Hein : e ∈ s :: more).
        { eapply py_index_elem_of. exact He. }
        assert (Hex : e <> x).
        { intros ->. apply elem_of_cons in Hein.
          destruct Hein as [->|Hein]; [contradiction|].
          destruct (Hfresh x Hein). contradiction. }
        rewrite IH; [reflexivity|exact Hc'| | | |].
        -- intros y Hy. apply elem_of_union in Hy. destruct Hy as [Hy|Hy].
           ++ apply elem_of_singleton in Hy. subst y.
              rewrite elem_of_union, elem_of_list_to_set. left. exact Hein.
           ++ apply elem_of_union. right. apply Hsub. exact Hy.
        -- apply elem_of_cons in Hin. destruct Hin as [->|Hin]; [|exact Hin].
           contradiction.
        -- apply elem_of_union. right. exact Hx.
        -- set_solver.
Qed.

Lemma tip_in_range bm (x : nat) :
  length (link_edges bm x) = 1 -> x < length bm.
Proof.
  unfold link_edges. intros H.
  destruct (bm !! x) eqn:E; [|discriminate].
  eapply lookup_lt_Some. exact E.
Qed.

Lemma hairs_loop_tips (fuel : nat) (hair_coords : list vec) bm
    (start_verts : list nat) :
  forall tags found (hairs : list (list nat * R)),
    closed_tags bm tags -> found ⊆ tags ->
    (forall x, length (link_edges bm x) = 1 -> x ∉ tags -> x ∈ start_verts) ->
    hairs_loop fuel hair_coords bm start_verts tags found = Some hairs ->
    Forall (tips_at_ends bm) hairs.*1.
Proof.
  induction start_verts as [|s rest IH];
    intros tags found hairs Hc Hsub Htips Hrun.
  - simpl in Hrun. injection Hrun as <-. constructor.
  - cbn [hairs_loop] in Hrun.
    destruct (decide (s ∈ found)) as [Hs|Hs].
    + eapply IH; eauto. intros x Hx Hxt.
      specialize (Htips x Hx Hxt). apply elem_of_cons in Htips.
      destruct Htips as [->|H]; [|exact H]. exfalso. apply Hxt, Hsub, Hs.
    + destruct (walk_island fuel bm tags s) as [[island tags']|] eqn:Hwalk;
        [|discriminate].
      destruct (py_index island 0) as [first|]; [|discriminate].
      destruct (py_index island (-2)) as [bl|] eqn:Hbl; [|discriminate].
      destruct (py_index island (-1)) as [e|] eqn:He; [|discriminate].
      destruct (hair_coords !! first); [|discriminate].
      destruct (hair_coords !! bl); [|discriminate].
      destruct (hairs_loop fuel hair_coords bm rest tags' ({[e]} ∪ found))
        as [hairs'|] eqn:Hrest; [|discriminate].
      injection Hrun as <-.
      apply py_index_before_last_inv in Hbl. destruct Hbl as [Hlen _].
      rewrite py_index_last in He by lia.
      pose proof (walk_island_post _ _ _ _ _ _ Hwalk) as Hpost.
      assert (Hst : s ∉ tags).
      { intros Hst.
        assert (island = [s]); [|subst island; simpl in Hlen; lia].
        eapply walk_island_dead_end; [|exact Hwalk].
        intros y Hy. apply elem_of_union. right. eapply Hc; eauto. }
      pose proof (closed_tags_walk _ _ _ _ _ Hc Hpost) as Hc'.
      destruct Hpost as (more & -> & Hnd & Hfresh & -> & _).
      assert (Hein : e ∈ s :: more) by (apply last_elem_of; exact He).
      assert (Hsub' : {[e]} ∪ found ⊆ list_to_set (s :: more) ∪ tags).
      { intros y Hy. apply elem_of_union in Hy. destruct Hy as [Hy|Hy].
        - apply elem_of_singleton in Hy. subst y.
          rewrite elem_of_union, elem_of_list_to_set. left. exact Hein.
        - apply elem_of_union. right. apply Hsub. exact Hy. }
      cbn [fmap list_fmap fst]. constructor.
      * intros x Hx Hdeg.
        destruct (decide (x = s)) as [->|Hxs]; [left; reflexivity|].
        destruct (decide (x = e)) as [->|Hxe]; [right; exact He|].
        exfalso.
        apply elem_of_cons in Hx. destruct Hx as [->|Hx]; [congruence|].
        destruct (Hfresh x Hx) as [_ Hxt].
        assert (Hxr : x ∈ rest).
        { specialize (Htips x Hdeg Hxt). apply elem_of_cons in Htips.
          destruct Htips as [->|H]; [congruence|exact H]. }
        rewrite (hairs_loop_doomed fuel hair_coords bm rest x
                   (list_to_set (s :: more) ∪ tags) ({[e]} ∪ found))
          in Hrest; [discriminate|exact Hc'|exact Hsub'|exact Hxr| |].
        -- rewrite elem_of_union, elem_of_list_to_set. left. right. exact Hx.
        -- intros Hin. apply elem_of_union in Hin. destruct Hin as [Hin|Hin].
           ++ apply elem_of_singleton in Hin. congruence.
           ++ apply Hxt, Hsub, Hin.
      * eapply IH; [exact Hc'|exact Hsub'| |exact Hrest].
        intros x Hdeg Hxt.
        assert (Hxt0 : x ∉ tags) by set_solver.
        specialize (Htips x Hdeg Hxt0). apply elem_of_cons in Htips.
        destruct Htips as [->|H]; [|exact H].
        exfalso. apply Hxt. rewrite elem_of_union, elem_of_list_to_set.
        left. left.
Qed.

(** X2. Whatever the hair mesh: a strand that comes back has no vertex
    with a single edge other than its first and its last one.  A walk that
    passes a further tip, as on a branching component, makes the extractor
    fail when that tip is started from later. *)
Theorem strands_tips_at_ends (fuel : nat) (hair_coords : list vec) bm
    (hairs : list (list nat * R)) :
  get_individual_hairs fuel hair_coords bm = Some hairs ->
  Forall (tips_at_ends bm) hairs.*1.
Proof.
  unfold get_individual_hairs. intros Hrun.
  eapply hairs_loop_tips; [| | |exact Hrun].
  - intros x y Hx. exfalso. exact (not_elem_of_empty x Hx).
  - set_solver.
  - intros x Hdeg _. apply list_elem_of_filter. split; [exact Hdeg|].
    apply elem_of_seq. pose proof (tip_in_range bm x Hdeg). lia.
Qed.

End WalkAnyMesh.

(* ===================================================================== *)
(** ** [create_mesh]: grouping by point count *)
(* ===================================================================== *)

Section Grouping.

Import Numeric QuadStrip Classifier CreateMesh.

Lemma setdefault_append_keys {A : Type} (key : nat) (hair : A)
    (d : list (nat * list A)) :
  (setdefault_append key hair d).*1
  = if decide (key ∈ d.*1) then d.*1 else d.*1 ++ [key].
Proof.
  induction d as [|[k hairs] tl IH]; cbn [setdefault_append].
  - reflexivity.
  - destruct (Nat.eqb_spec k key) as [->|Hne]; rewrite !fmap_cons;
      cbn [fst].
    + clear IH.
      match goal with |- context [decide ?P] => destruct (decide P) as [_|H] end;
        [reflexivity|].
      exfalso. apply H. left.
    + rewrite IH. clear IH.
      match goal with |- context [decide ?P] => destruct (decide P) as [H1|H1] end;
      match goal with |- context [decide ?P] => destruct (decide P) as [H2|H2] end;
        try reflexivity.
      * exfalso. apply H2. right. exact H1.
      * exfalso. apply elem_of_cons in H2.
        destruct H2 as [->|H2]; [congruence|contradiction].
Qed.

Lemma setdefault_append_elem_of {A : Type} (key : nat) (hair : A)
    (d : list (nat * list A)) (k : nat) (group : list A) :
  NoDup d.*1 ->
  (k, group) ∈ setdefault_append key hair d ->
  (k <> key /\ (k, group) ∈ d)
  \/ (k = key
      /\ exists before, group = before ++ [hair]
                        /\ ((key, before) ∈ d
                            \/ (before = [] /\ key ∉ d.*1))).
Proof.
  induction d as [|[k1 g1] tl IH]; simpl; intros Hnd Hin.
  - apply list_elem_of_singleton in Hin. injection Hin as -> ->.
    right. split; [reflexivity|]. exists []. split; [reflexivity|].
    right. split; [reflexivity|]. intros H. inversion H.
  - apply NoDup_cons in Hnd. destruct Hnd as [Hk1 Hnd].
    destruct (Nat.eqb_spec k1 key) as [->|Hne].
    + apply elem_of_cons in Hin. destruct Hin as [Heq|Hin].
      * injection Heq as -> ->. right. split; [reflexivity|].
        exists g1. split; [reflexivity|]. left. left.
      * left. split; [|right; exact Hin].
        intros ->. apply Hk1.
        apply (list_elem_of_fmap_2 fst) in Hin. exact Hin.
    + apply elem_of_cons in Hin. destruct Hin as [Heq|Hin].
      * injection Heq as -> ->. left. split; [exact Hne|left].
      * destruct (IH Hnd Hin) as [[Hk Hd]|(-> & before & -> & Hb)].
        -- left. split; [exact Hk|right; exact Hd].
        -- right. split; [reflexivity|]. exists before.
           split; [reflexivity|].
           destruct Hb as [Hb|[-> Hb]]; [left; right; exact Hb|].
           right. split; [reflexivity|].
           intros H. apply elem_of_cons in H.
           destruct H as [H|H]; [congruence|contradiction].
Qed.

Lemma grouped_by_len_snoc (hairs : list (list nat)) (h : list nat)
    (d : list (nat * list (list nat))) :
  grouped_by_len hairs d ->
  grouped_by_len (hairs ++ [h]) (setdefault_append (length h) h d).
Proof.
  intros (Hnd & Hgroups & Hkeys).
  split; [|split].
  - rewrite setdefault_append_keys.
    destruct (decide (length h ∈ d.*1)) as [Hin|Hout]; [exact Hnd|].
    apply NoDup_app. split; [exact Hnd|]. split; [|apply NoDup_singleton].
    intros x Hx Hx'. apply list_elem_of_singleton in Hx'. subst x.
    contradiction.
  - intros k group Hin.
    destruct (setdefault_append_elem_of _ _ _ _ _ Hnd Hin)
      as [[Hk Hd]|(-> & before & -> & Hb)].
    + destruct (Hgroups k group Hd) as [Hne ->]. split; [exact Hne|].
      rewrite filter_app, filter_cons_False by congruence.
      rewrite filter_nil, app_nil_r. reflexivity.
    + split; [destruct before; discriminate|].
      rewrite filter_app, filter_cons_True by reflexivity.
      rewrite filter_nil. f_equal.
      destruct Hb as [Hb|[-> Hb]].
      * apply (Hgroups _ _ Hb).
      * destruct (filter _ hairs) as [|x l] eqn:E; [reflexivity|].
        exfalso. assert (Hx : x ∈ x :: l) by left. rewrite <- E in Hx.
        apply list_elem_of_filter in Hx. destruct Hx as [Hlen Hx].
        apply Hb. rewrite <- Hlen. apply Hkeys. exact Hx.
  - intros h' Hh'. rewrite setdefault_append_keys.
    apply elem_of_app in Hh'. destruct Hh' as [Hh'|Hh'].
    + specialize (Hkeys h' Hh').
      destruct (decide (length h ∈ d.*1)); [exact Hkeys|].
      apply elem_of_app. left. exact Hkeys.
    + apply list_elem_of_singleton in Hh'. subst h'.
      destruct (decide (length h ∈ d.*1)) as [Hin|_]; [exact Hin|].
      apply elem_of_app. right. left.
Qed.

Lemma group_by_len_grouped (hairs : list (list nat)) :
  grouped_by_len hairs (group_by_len hairs).
Proof.
  unfold group_by_len.
  induction hairs as [|h hairs IH] using rev_ind.
  - simpl. split; [constructor|]. split.
    + intros k group H. inversion H.
    + intros h H. inversion H.
  - rewrite fold_left_app. simpl. apply grouped_by_len_snoc. exact IH.
Qed.

(** X3. The grouping of the simplified strands: the keys of
    [hair_len_dict] are pairwise different, the group under the key [k]
    is never empty and holds exactly the strands of [k] points, in the
    order they came, and every strand lands under the key of its point
    count. *)
Theorem hair_len_dict_groups (hairs : list (list nat)) :
  NoDup (group_by_len hairs).*1
  /\ (forall k group, (k, group) ∈ group_by_len hairs ->
        group <> [] /\ group = filter (fun h => length h = k) hairs)
  /\ forall h, h ∈ hairs -> length h ∈ (group_by_len hairs).*1.
Proof. exact (group_by_len_grouped hairs). Qed.

End Grouping.

(* ===================================================================== *)
(** ** [create_mesh]: from the strands to the objects *)
(* ===================================================================== *)

Section CreateMeshFacts.

Import Numeric QuadStrip Classifier CreateMesh.

Variable normalize : vec -> vec.
Variable rdp : list vec -> R -> list bool.

(** The vertex builder accepts exactly the arrays of one shape
    [(n, k, 3)] with [k >= 1]. *)
Lemma compute_new_ver_coordinaes_Some (k : nat)
    (hair_coords nearest_normals perpendicular : list (list vec))
    (res : list vec * list vec) :
  compute_new_ver_coordinaes k hair_coords nearest_normals perpendicular
  = Some res ->
  1 <= k /\ shape (length hair_coords) k hair_coords
  /\ shape (length hair_coords) k nearest_normals.
Proof.
  unfold compute_new_ver_coordinaes.
  destruct (shapeb (length hair_coords) k hair_coords) eqn:H1;
    [|discriminate].
  destruct (shapeb (length hair_coords) k nearest_normals) eqn:H2;
    [|discriminate].
  destruct (shapeb (length hair_coords) k perpendicular); [|discriminate].
  destruct (Nat.eqb _ k); [|discriminate].
  destruct (Nat.ltb_spec 0 k) as [Hk|Hk]; [|discriminate].
  intros _. apply shapeb_spec in H1. apply shapeb_spec in H2. auto.
Qed.

(** An object that is built has the counts of its group. *)
Lemma create_mesh_group_Some (k : nat)
    (hair_coords nearest_normals : list (list vec))
    (verts : list vec) (faces : list quad) :
  create_mesh_group normalize k hair_coords nearest_normals
  = Some (verts, faces) ->
  1 <= k
  /\ length verts = 4 * length hair_coords * k
  /\ length faces = 2 * length hair_coords * (k - 1).
Proof.
  intros Hrun.
  assert (Hshape : 1 <= k /\ shape (length hair_coords) k hair_coords
                   /\ shape (length hair_coords) k nearest_normals).
  { unfold create_mesh_group in Hrun.
    destruct (compute_new_ver_coordinaes k hair_coords nearest_normals _)
      as [res|] eqn:Hv; [|discriminate].
    eapply compute_new_ver_coordinaes_Some. exact Hv. }
  destruct Hshape as (Hk & Hc & Hn).
  destruct (create_mesh_group_result normalize _ k _ _ Hk Hc Hn)
    as (nv & nvp & fs & Hb & Hnv & Hnvp & _ & Hfs & _).
  rewrite Hb in Hrun. injection Hrun as <- <-.
  split; [exact Hk|]. split.
  - rewrite length_app. lia.
  - rewrite (shape_concat (length hair_coords + length hair_coords) (k - 1));
      [lia|].
    destruct Hfs as [Hlen Hrows]. split.
    + rewrite length_app, length_map. lia.
    + apply Forall_app. split; [exact Hrows|].
      apply List.Forall_forall. intros row Hrow.
      apply in_map_iff in Hrow. destruct Hrow as [row' [<- Hrow']].
      rewrite length_map. rewrite List.Forall_forall in Hrows. auto.
Qed.

Lemma create_mesh_object_Some (hair_coords nearest_normals : list vec)
    (k : nat) (group : list (list nat))
    (obj : nat * (list vec * list quad)) :
  create_mesh_object normalize hair_coords nearest_normals (k, group)
  = Some obj ->
  obj.1 = k /\ 1 <= k
  /\ length obj.2.1 = 4 * length group * k
  /\ length obj.2.2 = 2 * length group * (k - 1).
Proof.
  unfold create_mesh_object.
  destruct (mapM (gather hair_coords) group) as [coords|] eqn:Hc;
    [|discriminate].
  simpl.
  destruct (mapM (gather nearest_normals) group) as [normals|];
    [|discriminate].
  simpl.
  destruct (create_mesh_group normalize k coords normals) as [[verts faces]|]
    eqn:Hg; [|discriminate].
  simpl. intros [= <-]. split; [reflexivity|].
  apply create_mesh_group_Some in Hg. destruct Hg as (Hk & Hv & Hf).
  apply length_mapM in Hc. simpl. rewrite Hc. auto.
Qed.

(** X4. The objects [create_mesh] yields, for the simplified strands
    [rdp_downsized_hair_co_idxs] of the run: the keys are pairwise
    different and are exactly the point counts that occur among the
    simplified strands, and the object under the key [k], built from the
    [n] simplified strands of [k] points, has [4 n k] vertices and
    [2 n (k - 1)] faces, with [n >= 1] and [k >= 1]. *)
Theorem create_mesh_objects (quality : Quality)
    (hair_coords nearest_normals : list vec) (hairs : list (list nat * R))
    (all_hairs rdp_downsized_hair_co_idxs : list (list nat))
    (objs : list (nat * (list vec * list quad))) :
  create_mesh_all_hairs quality hairs = Some all_hairs ->
  rdp_downsized rdp (quality_dict quality) hair_coords all_hairs
  = Some rdp_downsized_hair_co_idxs ->
  create_mesh normalize rdp quality hair_coords nearest_normals hairs
  = Some objs ->
  NoDup objs.*1
  /\ (forall k, k ∈ objs.*1
                <-> exists h, h ∈ rdp_downsized_hair_co_idxs /\ length h = k)
  /\ forall k verts faces, (k, (verts, faces)) ∈ objs ->
       let n := length (filter (fun h => length h = k)
                               rdp_downsized_hair_co_idxs) in
       1 <= n /\ 1 <= k
       /\ length verts = 4 * n * k /\ length faces = 2 * n * (k - 1).
Proof.
  intros Hall Hds. unfold create_mesh. rewrite Hall. simpl.
  rewrite Hds. simpl. intros Hobjs. apply mapM_Some_1 in Hobjs.
  destruct (group_by_len_grouped rdp_downsized_hair_co_idxs)
    as (Hnd & Hgroups & Hkeys).
  revert Hobjs Hnd Hgroups Hkeys.
  generalize (group_by_len rdp_downsized_hair_co_idxs).
  intros d Hobjs Hnd Hgroups Hkeys.
  assert (H : objs.*1 = d.*1
              /\ forall k verts faces, (k, (verts, faces)) ∈ objs ->
                   exists group, (k, group) ∈ d
                     /\ 1 <= k
                     /\ length verts = 4 * length group * k
                     /\ length faces = 2 * length group * (k - 1)).
  { clear Hnd Hgroups Hkeys.
    induction Hobjs as [|[k group] obj d' objs' Hobj _ [IH1 IH2]].
    - split; [reflexivity|]. intros k verts faces Hin. inversion Hin.
    - destruct (create_mesh_object_Some _ _ _ _ _ Hobj)
        as (Hk & Hk1 & Hv & Hf).
      split; [rewrite !fmap_cons, IH1; simpl; f_equal; exact Hk|].
      intros k' verts faces Hin. apply elem_of_cons in Hin.
      destruct Hin as [Heq|Hin].
      + subst obj. simpl in Hk, Hv, Hf. subst k'. exists group.
        split; [left|]. auto.
      + destruct (IH2 _ _ _ Hin) as (g & Hg & Hrest).
        exists g. split; [right; exact Hg|exact Hrest]. }
  destruct H as [Hfst Hcounts]. rewrite Hfst.
  split; [exact Hnd|]. split.
  - intros k. split.
    + intros Hk. apply list_elem_of_fmap in Hk.
      destruct Hk as ([k' group] & -> & Hin). simpl.
      destruct (Hgroups _ _ Hin) as [Hne Hgroup].
      destruct group as [|h group]; [contradiction|].
      assert (Hh : h ∈ filter (fun h => length h = k')
                               rdp_downsized_hair_co_idxs)
        by (rewrite <- Hgroup; left).
      apply list_elem_of_filter in Hh. destruct Hh as [Hlen Hh].
      exists h. auto.
    + intros (h & Hh & <-). apply Hkeys. exact Hh.
  - intros k verts faces Hin.
    destruct (Hcounts _ _ _ Hin) as (group & Hg & Hk1 & Hv & Hf).
    destruct (Hgroups _ _ Hg) as [Hne Hgroup].
    simpl. rewrite <- Hgroup.
    split; [destruct group; [contradiction|simpl; lia]|]. auto.
Qed.

Lemma mask_select_sublist {A : Type} (arr : list A) (mask : list bool)
    (l : list A) :
  mask_select arr mask = Some l -> l `sublist_of` arr.
Proof.
  unfold mask_select. destruct (Nat.eqb _ _); [|discriminate].
  intros [= <-]. revert mask.
  induction arr as [|x arr IH]; intros [|b mask]; simpl;
    try apply sublist_nil_l.
  destruct b; simpl.
  - apply sublist_skip. apply IH.
  - apply sublist_cons. apply IH.
Qed.

Lemma mask_select_nonempty {A : Type} (arr : list A) (mask : list bool)
    (l : list A) :
  mask_select arr mask = Some l -> true ∈ mask -> l <> [].
Proof.
  unfold mask_select. destruct (Nat.eqb_spec (length mask) (length arr))
    as [Hlen|]; [|discriminate].
  intros [= <-]. revert mask Hlen.
  induction arr as [|x arr IH]; intros [|b mask] Hlen Hin; simpl in *;
    try discriminate; try (inversion Hin; fail).
  destruct b; simpl; [discriminate|].
  apply IH; [lia|]. apply elem_of_cons in Hin.
  destruct Hin as [Hin|Hin]; [discriminate|exact Hin].
Qed.

Lemma every_nth_sublist {A : Type} (step : nat) (l : list A) :
  forall skip, every_nth step skip l `sublist_of` l.
Proof.
  induction l as [|x l IH]; intros skip; simpl; [constructor|].
  destruct skip; [apply sublist_skip|apply sublist_cons]; apply IH.
Qed.

Lemma retained_sublist {A : Type} (cq : quality_entry) (i : nat)
    (hair_list kept : list A) :
  retained cq i hair_list = Some kept -> kept `sublist_of` hair_list.
Proof.
  unfold retained, slice_step. destruct (_ <? _).
  - destruct (Nat.eqb _ 0); [discriminate|]. intros [= <-].
    apply every_nth_sublist.
  - intros [= <-]. reflexivity.
Qed.

Lemma bucket_elem_of {A : Type} (cond : R -> bool) (hairs : list (A * R))
    (h : A) :
  h ∈ bucket cond hairs -> h ∈ hairs.*1.
Proof.
  unfold bucket. rewrite !list_elem_of_In, in_map_iff.
  intros [[h' len] [<- Hin]]. apply filter_In in Hin.
  destruct Hin as [Hin _]. apply in_map_iff. exists (h', len). auto.
Qed.

(** The strands handed to the simplification are extracted strands. *)
Lemma create_mesh_all_hairs_elem_of {A : Type} (quality : Quality)
    (hairs : list (A * R)) (all_hairs : list A) :
  create_mesh_all_hairs quality hairs = Some all_hairs ->
  forall h, h ∈ all_hairs -> h ∈ hairs.*1.
Proof.
  unfold create_mesh_all_hairs. simpl.
  destruct (retained _ 0 (short_hairs hairs)) as [ks|] eqn:Hs;
    [|discriminate].
  simpl.
  destruct (retained _ 1 (medium_hairs hairs)) as [km|] eqn:Hm;
    [|discriminate].
  simpl.
  destruct (retained _ 2 (long_hairs hairs)) as [kl|] eqn:Hl;
    [|discriminate].
  simpl. intros [= <-] h Hh.
  apply retained_sublist in Hs, Hm, Hl.
  rewrite !elem_of_app in Hh. destruct Hh as [[Hh|Hh]|Hh].
  - eapply bucket_elem_of, elem_of_sublist; eauto.
  - eapply bucket_elem_of, elem_of_sublist; eauto.
  - eapply bucket_elem_of, elem_of_sublist; eauto.
Qed.

Lemma create_mesh_all_hairs_total {A : Type} (quality : Quality)
    (hairs : list (A * R)) :
  exists all_hairs, create_mesh_all_hairs quality hairs = Some all_hairs.
Proof.
  destruct (retained_kept quality 0 (short_hairs hairs)) as (ks & Hs & _).
  destruct (retained_kept quality 1 (medium_hairs hairs)) as (km & Hm & _).
  destruct (retained_kept quality 2 (long_hairs hairs)) as (kl & Hl & _).
  unfold create_mesh_all_hairs. simpl. rewrite Hs. simpl. rewrite Hm. simpl.
  rewrite Hl. eauto.
Qed.

Lemma rdp_downsized_sublists (cq : quality_entry) (hair_coords : list vec)
    (all_hairs ds : list (list nat)) :
  rdp_downsized rdp cq hair_coords all_hairs = Some ds ->
  Forall2 (fun h d => d `sublist_of` h) all_hairs ds.
Proof.
  unfold rdp_downsized. intros H. apply mapM_Some_1 in H.
  eapply Forall2_impl; [exact H|].
  intros h d Hd. simpl in Hd.
  destruct (gather hair_coords h); [|discriminate].
  simpl in Hd. eapply mask_select_sublist. exact Hd.
Qed.

(** X5. Simplification only drops points: every strand handed to the mesh
    builder is one of the extracted strands with some of its indices left
    out, the others in their order. *)
Theorem simplified_strands_are_sublists (quality : Quality)
    (hair_coords : list vec) (hairs : list (list nat * R))
    (all_hairs ds : list (list nat)) :
  create_mesh_all_hairs quality hairs = Some all_hairs ->
  rdp_downsized rdp (quality_dict quality) hair_coords all_hairs = Some ds ->
  Forall (fun d => exists h, h ∈ hairs.*1 /\ d `sublist_of` h) ds.
Proof.
  intros Hall Hds. apply rdp_downsized_sublists in Hds.
  pose proof (create_mesh_all_hairs_elem_of _ _ _ Hall) as Hin.
  clear Hall. induction Hds as [|h d all ds Hd _ IH]; constructor.
  - exists h. split; [apply Hin; left|exact Hd].
  - apply IH. intros h' Hh'. apply Hin. right. exact Hh'.
Qed.

Lemma gather_in_range {A : Type} (arr : list A) (idxs : list nat) :
  Forall (fun i => i < length arr) idxs ->
  exists l, gather arr idxs = Some l /\ length l = length idxs.
Proof.
  intros Hr.
  destruct (mapM_is_Some_2 (fun i => arr !! i) idxs) as [l Hl].
  - eapply List.Forall_impl; [|exact Hr]. intros i Hi.
    apply lookup_lt_is_Some_2. exact Hi.
  - exists l. split; [exact Hl|]. symmetry. eapply length_mapM. exact Hl.
Qed.

Lemma gather_rows_shape {A : Type} (arr : list A) (k : nat)
    (group : list (list nat)) :
  Forall (fun h => length h = k /\ Forall (fun i => i < length arr) h) group ->
  exists rows, mapM (gather arr) group = Some rows
               /\ shape (length group) k rows.
Proof.
  induction 1 as [|h group [Hlen Hr] _ IH].
  - exists []. split; [reflexivity|]. split; [reflexivity|constructor].
  - destruct IH as (rows & Hrows & Hn & Hshape).
    destruct (gather_in_range arr h Hr) as (row & Hrow & Hrl).
    exists (row :: rows). split.
    + simpl. rewrite Hrow. simpl. rewrite Hrows. reflexivity.
    + split; [simpl; lia|]. constructor; [lia|exact Hshape].
Qed.

Lemma sublist_Forall {A : Type} (P : A -> Prop) (l k : list A) :
  l `sublist_of` k -> Forall P k -> Forall P l.
Proof.
  intros Hs Hk. apply List.Forall_forall. intros x Hx.
  rewrite List.Forall_forall in Hk. apply Hk.
  apply list_elem_of_In. eapply elem_of_sublist; [|exact Hs].
  apply list_elem_of_In. exact Hx.
Qed.

(** [create_mesh] runs to its end on strands that are in range, with a
    simplification that answers as [rdp_mask_ok] says. *)
Lemma create_mesh_total (quality : Quality)
    (hair_coords nearest_normals : list vec) (hairs : list (list nat * R)) :
  rdp_mask_ok rdp ->
  Forall (hair_in_range hair_coords nearest_normals) hairs.*1 ->
  exists objs,
    create_mesh normalize rdp quality hair_coords nearest_normals hairs
    = Some objs.
Proof.
  intros Hrdp Hhairs.
  destruct (create_mesh_all_hairs_total quality hairs) as [all_hairs Hall].
  pose proof (create_mesh_all_hairs_elem_of _ _ _ Hall) as Hin.
  assert (Hgood : Forall (hair_in_range hair_coords nearest_normals)
                         all_hairs).
  { apply List.Forall_forall. intros h Hh.
    rewrite List.Forall_forall in Hhairs. apply Hhairs.
    apply list_elem_of_In, Hin, list_elem_of_In. exact Hh. }
  assert (Hds : exists ds,
    rdp_downsized rdp (quality_dict quality) hair_coords all_hairs = Some ds
    /\ Forall (hair_in_range hair_coords nearest_normals) ds).
  { clear Hall Hin. unfold rdp_downsized.
    induction Hgood as [|h all [Hne Hr] _ IH].
    - exists []. split; [reflexivity|constructor].
    - destruct IH as (ds & Hds & Hgood').
      destruct (gather_in_range hair_coords h) as (co & Hco & Hlen).
      { eapply List.Forall_impl; [|exact Hr]. simpl. tauto. }
      destruct (Hrdp co (epsilon_of (quality_dict quality))) as [Hml Hmk].
      assert (Hsel : exists d,
                mask_select h (rdp co (epsilon_of (quality_dict quality)))
                = Some d).
      { unfold mask_select. rewrite Hml, Hlen, Nat.eqb_refl. eauto. }
      destruct Hsel as [d Hd].
      exists (d :: ds). split.
      + simpl. rewrite Hco. simpl. rewrite Hd. simpl.
        simpl in Hds. rewrite Hds. reflexivity.
      + constructor; [|exact Hgood']. split.
        * eapply mask_select_nonempty; [exact Hd|]. apply Hmk.
          intros ->. destruct h; [contradiction|discriminate].
        * eapply sublist_Forall; [|exact Hr].
          eapply mask_select_sublist. exact Hd. }
  destruct Hds as (ds & Hds & Hgood').
  unfold create_mesh. rewrite Hall. simpl. rewrite Hds. simpl.
  destruct (group_by_len_grouped ds) as (_ & Hgroups & _).
  destruct (mapM_is_Some_2
              (create_mesh_object normalize hair_coords nearest_normals)
              (group_by_len ds)) as [objs Hobjs]; [|eauto].
  apply List.Forall_forall. intros [k group] Hin'.
  apply list_elem_of_In in Hin'.
  destruct (Hgroups k group Hin') as [Hne Hgroup].
  assert (Hmem : Forall (fun h => length h = k
                   /\ hair_in_range hair_coords nearest_normals h) group).
  { subst group. apply List.Forall_forall. intros h Hh.
    apply list_elem_of_In, list_elem_of_filter in Hh.
    destruct Hh as [Hlen Hh]. split; [exact Hlen|].
    rewrite List.Forall_forall in Hgood'. apply Hgood'.
    apply list_elem_of_In. exact Hh. }
  assert (Hk : 1 <= k).
  { destruct group as [|h group]; [contradiction|].
    apply Forall_cons_1 in Hmem. destruct Hmem as [[Hlen [Hnonempty _]] _].
    destruct h; [contradiction|simpl in Hlen; lia]. }
  destruct (gather_rows_shape hair_coords k group) as (coords & Hc & Hcs).
  { eapply List.Forall_impl; [|exact Hmem]. intros h [Hlen [_ Hr]].
    split; [exact Hlen|]. eapply List.Forall_impl; [|exact Hr].
    simpl. tauto. }
  destruct (gather_rows_shape nearest_normals k group) as (normals & Hn & Hns).
  { eapply List.Forall_impl; [|exact Hmem]. intros h [Hlen [_ Hr]].
    split; [exact Hlen|]. eapply List.Forall_impl; [|exact Hr].
    simpl. tauto. }
  destruct (create_mesh_group_result normalize _ k _ _ Hk Hcs Hns)
    as (nv & nvp & fs & Hb & _).
  unfold compose, create_mesh_object. rewrite Hc. simpl. rewrite Hn. simpl.
  rewrite Hb. simpl. eauto.
Qed.

(** X6. [create_mesh] raises nothing when every extracted strand is not
    empty and indexes within [hair_coords] and [nearest_normals], and the
    simplification returns a mask of the length of the strand that keeps a
    point. *)
Theorem create_mesh_succeeds (quality : Quality)
    (hair_coords nearest_normals : list vec) (hairs : list (list nat * R)) :
  rdp_mask_ok rdp ->
  Forall (hair_in_range hair_coords nearest_normals) hairs.*1 ->
  exists objs,
    create_mesh normalize rdp quality hair_coords nearest_normals hairs
    = Some objs.
Proof. apply create_mesh_total. Qed.

End CreateMeshFacts.

Section Pipeline.

Import Numeric Strands QuadStrip Classifier CreateMesh.

Variable normalize : vec -> vec.
Variable rdp : list vec -> R -> list bool.

(** X7. Extraction and mesh building compose: on a hair mesh made of
    simple open paths, with coordinates and normals for every vertex, a
    recursion deep enough for the longest path and a simplification that
    answers as [rdp_mask_ok] says, [__init__] extracts the strands and
    [create_mesh] builds its objects from them without an error. *)
Theorem extract_then_create_mesh (quality : Quality)
    (ps : list (list nat)) (bm : BMesh) (fuel : nat)
    (hair_coords nearest_normals : list vec) :
  strand_mesh ps bm ->
  length bm <= length hair_coords ->
  length bm <= length nearest_normals ->
  Forall (fun p => length p <= fuel) ps ->
  rdp_mask_ok rdp ->
  exists hairs objs,
    get_individual_hairs fuel hair_coords bm = Some hairs
    /\ create_mesh normalize rdp quality hair_coords nearest_normals hairs
       = Some objs.
Proof.
  intros Hsm Hc Hn Hfuel Hrdp.
  destruct (hairs_loop_paths ps bm fuel hair_coords Hsm Hc Hfuel
              (filter (fun v => length (link_edges bm v) = 1)
                      (seq 0 (length bm)))
              ps ∅ ∅)
    as (hairs & order & Hloop & Hperm & Horient).
  - apply NoDup_filter, NoDup_seq.
  - auto.
  - exact (sm_nodup _ _ Hsm).
  - intros s Hs. right. exact (start_vert_is_end ps bm Hsm s Hs).
  - intros p x _ _. apply not_elem_of_empty.
  - intros p s Hp Hend. split; [|apply not_elem_of_empty].
    exact (end_is_start_vert ps bm Hsm p s Hp Hend).
  - assert (Hgood : Forall (hair_in_range hair_coords nearest_normals)
                           hairs.*1).
    { assert (Hps : forall p, p ∈ order -> p ∈ ps)
        by (intros p Hp; rewrite <- Hperm; exact Hp).
      clear Hloop Hperm.
      induction Horient as [|h p hairs order Hhp _ IH]; [constructor|].
      rewrite fmap_cons. constructor.
      - destruct (path_facts ps bm Hsm p (Hps p ltac:(left)))
          as (Hlen & _ & _ & Hlt).
        assert (Hmem : forall x, x ∈ h.1 -> x ∈ p).
        { intros x. destruct Hhp as [->| ->]; [auto|apply elem_of_reverse]. }
        assert (Hlenh : length h.1 = length p).
        { destruct Hhp as [->| ->]; [reflexivity|apply length_reverse]. }
        split.
        + intros Heq. rewrite Heq in Hlenh. simpl in Hlenh. lia.
        + apply List.Forall_forall. intros x Hx.
          apply list_elem_of_In, Hmem, Hlt in Hx. lia.
      - apply IH. intros p' Hp'. apply Hps. right. exact Hp'. }
    destruct (create_mesh_total normalize rdp quality _ _ _ Hrdp Hgood)
      as [objs Hobjs].
    exists hairs, objs. split; [exact Hloop|exact Hobjs].
Qed.

End Pipeline.

(* ===================================================================== *)
(** ** Region growing *)
(* ===================================================================== *)

Section ExpandRegion.

Import Strands Topology.

Lemma insert_sorted_elem_of (x z : Z) (l : list Z) :
  z ∈ insert_sorted x l <-> z = x \/ z ∈ l.
Proof.
  induction l as [|y tl IH]; simpl.
  - rewrite list_elem_of_singleton, elem_of_nil. tauto.
  - destruct (Z.ltb_spec x y).
    + rewrite !elem_of_cons. tauto.
    + destruct (Z.eqb_spec x y) as [->|Hne].
      * rewrite !elem_of_cons. tauto.
      * rewrite !elem_of_cons, IH. tauto.
Qed.

Lemma insert_sorted_sorted (x : Z) (l : list Z) :
  StronglySorted Z.lt l -> StronglySorted Z.lt (insert_sorted x l).
Proof.
  induction 1 as [|y tl Hs IH Hy]; simpl.
  - repeat constructor.
  - destruct (Z.ltb_spec x y).
    + constructor; [constructor; assumption|].
      constructor; [assumption|].
      eapply List.Forall_impl; [|exact Hy]. intros a Ha. simpl in Ha. lia.
    + destruct (Z.eqb_spec x y) as [->|Hne].
      * constructor; assumption.
      * constructor; [exact IH|].
        apply List.Forall_forall. intros a Ha.
        apply list_elem_of_In, insert_sorted_elem_of in Ha.
        destruct Ha as [->|Ha]; [lia|].
        rewrite List.Forall_forall in Hy. apply Hy.
        apply list_elem_of_In. exact Ha.
Qed.

Lemma np_unique_elem_of (z : Z) (l : list Z) : z ∈ np_unique l <-> z ∈ l.
Proof.
  unfold np_unique. induction l as [|x l IH]; simpl; [reflexivity|].
  rewrite insert_sorted_elem_of, IH, elem_of_cons. tauto.
Qed.

Lemma np_unique_sorted (l : list Z) : StronglySorted Z.lt (np_unique l).
Proof.
  unfold np_unique. induction l as [|x l IH]; simpl; [constructor|].
  apply insert_sorted_sorted. exact IH.
Qed.

Lemma bm_vert_is_Some (bm : BMesh) (i : Z) :
  is_Some (bm_vert bm i) <-> valid_index bm i.
Proof.
  unfold bm_vert, py_index, valid_index. rewrite length_seq.
  destruct (Z.leb_spec 0 i).
  - rewrite lookup_lt_is_Some, length_seq. lia.
  - destruct (Z.leb_spec (- Z.of_nat (length bm)) i).
    + rewrite lookup_lt_is_Some, length_seq. lia.
    + split; [intros [x Hx]; discriminate|lia].
Qed.

(** The loop that fills [other_verts]. *)
Lemma other_verts_fold (bm : BMesh) (vert_idxs : list Z) :
  forall (acc : gset nat),
    match foldl (other_verts_update bm) (Some acc) vert_idxs with
    | Some others =>
        Forall (valid_index bm) vert_idxs
        /\ forall w, w ∈ others <->
             w ∈ acc \/ exists i v, i ∈ vert_idxs /\ bm_vert bm i = Some v
                                    /\ w ∈ neighbours bm v
    | None => ~ Forall (valid_index bm) vert_idxs
    end.
Proof.
  induction vert_idxs as [|i idxs IH]; intros acc; cbn [foldl].
  - split; [constructor|]. intros w. split; [auto|].
    intros [H|(i & v & Hi & _)]; [exact H|inversion Hi].
  - unfold other_verts_update at 2. cbn [mbind option_bind].
    destruct (bm_vert bm i) as [v|] eqn:Hv; cbn [mbind option_bind].
    + specialize (IH (acc ∪ list_to_set (neighbours bm v))).
      destruct (foldl _ _ idxs) as [others|].
      * destruct IH as [Hvalid Hmem]. split.
        -- constructor; [|exact Hvalid].
           apply bm_vert_is_Some. rewrite Hv. eauto.
        -- intros w. rewrite Hmem, elem_of_union, elem_of_list_to_set.
           split.
           ++ intros [[H|H]|(i' & v' & Hi' & Hv' & Hw)]; [auto| |].
              ** right. exists i, v. split; [left|auto].
              ** right. exists i', v'. split; [right; exact Hi'|auto].
           ++ intros [H|(i' & v' & Hi' & Hv' & Hw)]; [auto|].
              apply elem_of_cons in Hi'. destruct Hi' as [->|Hi'].
              ** rewrite Hv in Hv'. injection Hv' as <-. auto.
              ** right. eauto.
      * intros Hall. apply IH. apply Forall_cons_1 in Hall. tauto.
    + assert (Hnone : foldl (other_verts_update bm) None idxs = None)
        by (clear; induction idxs; simpl; auto).
      rewrite Hnone. intros Hall. apply Forall_cons_1 in Hall.
      destruct Hall as [Hi _]. apply bm_vert_is_Some in Hi.
      rewrite Hv in Hi. destruct Hi; discriminate.
Qed.

(** X8. [expand_region] returns exactly when every given index is one
    [bm.verts] accepts; what it returns is in strictly increasing order,
    and holds the given indices and the indices of the vertices linked to
    them, and nothing else. *)
Theorem expand_region_spec (bm : BMesh) (vert_idxs : list Z) :
  (is_Some (expand_region bm vert_idxs)
   <-> Forall (valid_index bm) vert_idxs)
  /\ forall out, expand_region bm vert_idxs = Some out ->
       StronglySorted Z.lt out
       /\ forall z, z ∈ out <-> z ∈ vert_idxs \/ linked_to bm vert_idxs z.
Proof.
  unfold expand_region.
  pose proof (other_verts_fold bm vert_idxs ∅) as Hfold.
  destruct (foldl _ _ vert_idxs) as [others|]; simpl.
  - destruct Hfold as [Hvalid Hmem]. split.
    + split; [intros _; exact Hvalid|eauto].
    + intros out [= <-]. split; [apply np_unique_sorted|].
      intros z. rewrite np_unique_elem_of, elem_of_app.
      apply or_iff_compat_l. unfold linked_to.
      rewrite list_elem_of_In, in_map_iff. split.
      * intros (w & <- & Hw).
        apply list_elem_of_In, elem_of_elements, Hmem in Hw.
        destruct Hw as [Hw|(i & v & Hi & Hv & Hw)];
          [exfalso; exact (not_elem_of_empty w Hw)|].
        exists i, v, w. auto.
      * intros (i & v & w & Hi & Hv & Hw & ->).
        exists w. split; [reflexivity|].
        apply list_elem_of_In, elem_of_elements, Hmem. right. eauto.
  - split.
    + split; [intros [x Hx]; discriminate|contradiction].
    + intros out H. discriminate.
Qed.

End ExpandRegion.

(* ===================================================================== *)
(** ** Geometry of the ribbons *)
(* ===================================================================== *)

Section RibbonFacts.

Import Numeric QuadStrip Ribbon.

Lemma dot_cross_l (a b : vec) : dot a (cross a b) = 0%R.
Proof. destruct a as [[ax ay] az], b as [[bx by_] bz]. simpl. ring. Qed.

Lemma dot_cross_r (a b : vec) : dot b (cross a b) = 0%R.
Proof. destruct a as [[ax ay] az], b as [[bx by_] bz]. simpl. ring. Qed.

Lemma at2_map2_2d {A B C : Type} (f : A -> B -> C)
    (a : list (list A)) (b : list (list B)) (i j : nat) (z : C) :
  at2 (map2_2d f a b) i j = Some z ->
  exists x y, at2 a i j = Some x /\ at2 b i j = Some y /\ z = f x y.
Proof.
  unfold at2, map2_2d. rewrite lookup_zip_with.
  destruct (a !! i) as [ra|]; [|discriminate]. simpl.
  destruct (b !! i) as [rb|]; [|discriminate]. simpl.
  rewrite lookup_zip_with.
  destruct (ra !! j) as [x|]; [|discriminate]. simpl.
  destruct (rb !! j) as [y|]; [|discriminate]. simpl.
  intros [= <-]. eauto.
Qed.

Lemma roll_left_lookup {A : Type} (row : list A) (j : nat) :
  j + 1 < length row -> roll_left row !! j = row !! (j + 1).
Proof.
  intros Hj. destruct row as [|x tl]; simpl in *; [lia|].
  rewrite lookup_app_l by lia. replace (j + 1) with (S j) by lia.
  reflexivity.
Qed.

Lemma copy_penultimate_lookup {A : Type} (row : list A) (j : nat) :
  2 <= length row -> j < length row ->
  copy_penultimate row !! j = row !! Nat.min j (length row - 2).
Proof.
  intros Hlen Hj. unfold copy_penultimate.
  destruct (rev row) as [|x [|p tl]] eqn:E.
  - apply (f_equal (@length A)) in E. rewrite length_rev in E.
    simpl in E. lia.
  - apply (f_equal (@length A)) in E. rewrite length_rev in E.
    simpl in E. lia.
  - assert (Hrow : row = rev tl ++ [p; x]).
    { rewrite <- (rev_involutive row), E. simpl.
      rewrite <- !app_assoc. reflexivity. }
    subst row. rewrite length_app, length_rev in Hj |- *.
    cbn [length] in Hj |- *. cbn [rev]. rewrite <- !app_assoc.
    cbn [app].
    replace (length tl + 2 - 2) with (length tl) by lia.
    destruct (Nat.lt_ge_cases j (length tl)) as [Hlow|Hhigh].
    + rewrite Nat.min_l by lia.
      rewrite !lookup_app_l by (rewrite length_rev; lia). reflexivity.
    + rewrite Nat.min_r by lia.
      rewrite !lookup_app_r by (rewrite length_rev; lia).
      rewrite length_rev, Nat.sub_diag.
      destruct (j - length tl) as [|[|d]] eqn:Hd; [reflexivity|reflexivity|lia].
Qed.

(** X9. For strands of [k >= 2] points, the vector
    [_calculate_perpendicular_vec] returns for point [j] of strand [i] is
    the cross product of the scalp normal at that point with the
    normalized step from point [j] to point [j + 1] of the strand, the
    last point taking the step that leads to it; so it is at right angles
    to that normal and to that step. *)
Theorem perpendicular_is_orthogonal (normalize : vec -> vec) (n k : nat)
    (hair_coords nearest_normals : list (list vec)) (i j : nat) :
  2 <= k -> shape n k hair_coords -> shape n k nearest_normals ->
  i < n -> j < k ->
  exists normal a b,
    at2 nearest_normals i j = Some normal
    /\ at2 hair_coords i (Nat.min j (k - 2)) = Some a
    /\ at2 hair_coords i (Nat.min j (k - 2) + 1) = Some b
    /\ at2 (calculate_perpendicular_vec normalize k hair_coords
                                        nearest_normals) i j
       = Some (cross normal (normalize (vsub b a)))
    /\ dot normal (cross normal (normalize (vsub b a))) = 0%R
    /\ dot (normalize (vsub b a)) (cross normal (normalize (vsub b a)))
       = 0%R.
Proof.
  intros Hk [Hcl Hcr] [Hnl Hnr] Hi Hj.
  destruct (lookup_lt_is_Some_2 hair_coords i ltac:(lia)) as [row Hrow].
  destruct (lookup_lt_is_Some_2 nearest_normals i ltac:(lia))
    as [nrow Hnrow].
  rewrite Forall_lookup in Hcr, Hnr.
  pose proof (Hcr i row Hrow) as Hlrow.
  pose proof (Hnr i nrow Hnrow) as Hlnrow. cbv beta in Hlrow, Hlnrow.
  set (j' := Nat.min j (k - 2)).
  destruct (lookup_lt_is_Some_2 nrow j ltac:(lia)) as [normal Hnormal].
  destruct (lookup_lt_is_Some_2 row j' ltac:(lia)) as [a Ha].
  destruct (lookup_lt_is_Some_2 row (j' + 1) ltac:(lia)) as [b Hb].
  exists normal, a, b. unfold at2. rewrite Hnrow, Hrow.
  cbn [mbind option_bind].
  split; [exact Hnormal|]. split; [exact Ha|]. split; [exact Hb|].
  split; [|split; [apply dot_cross_l|apply dot_cross_r]].
  unfold calculate_perpendicular_vec.
  replace (1 <? k) with true by (symmetry; apply Nat.ltb_lt; lia).
  unfold map2_2d. change (map ?f ?l) with (f <$> l).
  rewrite lookup_zip_with, Hnrow. cbn [mbind option_bind].
  rewrite !list_lookup_fmap, lookup_zip_with, list_lookup_fmap, Hrow.
  cbn [fmap option_fmap option_map mbind option_bind].
  rewrite lookup_zip_with, Hnormal. cbn [mbind option_bind].
  set (d := map normalize (zip_with vsub (roll_left row) row)).
  assert (Hld : length d = k).
  { unfold d. rewrite length_map, length_zip_with, roll_left_length. lia. }
  rewrite (copy_penultimate_lookup d j) by lia.
  rewrite Hld. fold j'. unfold d. change (map ?f ?l) with (f <$> l).
  rewrite list_lookup_fmap, lookup_zip_with.
  rewrite roll_left_lookup by lia. rewrite Hb, Ha. reflexivity.
Qed.

Lemma arange_lookup (start stop step : R) (j : nat) :
  j < length (arange start stop step) ->
  arange start stop step !! j = Some (start + INR j * step)%R.
Proof.
  rewrite arange_length. intros Hj. unfold arange.
  change (map ?f ?l) with (f <$> l).
  rewrite list_lookup_fmap, lookup_seq_lt by exact Hj. reflexivity.
Qed.

Lemma rev_reverse {A : Type} (l : list A) : rev l = reverse l.
Proof.
  induction l as [|x l IH]; [reflexivity|].
  rewrite reverse_cons. simpl. rewrite IH. reflexivity.
Qed.

Lemma calculate_segment_correction_lookup (k j : nat) :
  j < k ->
  calculate_segment_correction k !! j
  = Some (0.01 + INR (k - 1 - j) * (0.02 / INR k))%R.
Proof.
  intros Hj.
  assert (Hk : 1 <= k) by lia.
  pose proof (calculate_segment_correction_length k Hk) as Hlen.
  unfold calculate_segment_correction in *.
  rewrite rev_reverse in *. rewrite length_reverse in Hlen.
  rewrite reverse_lookup by lia. rewrite Hlen.
  replace (k - S j) with (k - 1 - j) by lia.
  rewrite arange_lookup by (rewrite Hlen; lia). reflexivity.
Qed.

Lemma taper_step_pos (k : nat) : 1 <= k -> (0 < 0.02 / INR k)%R.
Proof.
  intros Hk. assert (0 < INR k)%R by (apply lt_0_INR; lia).
  apply Rdiv_lt_0_compat; lra.
Qed.

Lemma taper_below (k m : nat) :
  m < k -> (INR m * (0.02 / INR k) < 0.02)%R.
Proof.
  intros Hm. assert (Hk : (0 < INR k)%R) by (apply lt_0_INR; lia).
  assert (Hmk : (INR m < INR k)%R) by (apply lt_INR; exact Hm).
  unfold Rdiv. rewrite <- Rmult_assoc, (Rmult_comm (INR m)), Rmult_assoc.
  assert (H1 : (INR m * / INR k < 1)%R).
  { apply (Rmult_lt_reg_r (INR k)); [exact Hk|].
    rewrite Rmult_assoc, Rinv_l by lra. lra. }
  assert (H0 : (0 <= INR m * / INR k)%R).
  { apply Rmult_le_pos; [apply pos_INR|].
    left. apply Rinv_0_lt_compat. exact Hk. }
  nra.
Qed.

(** X10. The scalars of [_calculate_segment_correction], one per point of
    the strand: each lies in [[0.01, 0.03)], each is strictly smaller than
    the one before it, and the last one is 0.01: the card gets narrower
    with each segment, as the docstring says. *)
Theorem segment_correction_tapers (k : nat) :
  1 <= k ->
  length (calculate_segment_correction k) = k
  /\ (forall j a, calculate_segment_correction k !! j = Some a ->
        (0.01 <= a < 0.03)%R)
  /\ (forall j a b,
        calculate_segment_correction k !! j = Some a ->
        calculate_segment_correction k !! S j = Some b -> (b < a)%R)
  /\ calculate_segment_correction k !! (k - 1) = Some 0.01%R.
Proof.
  intros Hk.
  pose proof (calculate_segment_correction_length k Hk) as Hlen.
  pose proof (taper_step_pos k Hk) as Hstep.
  split; [exact Hlen|]. split; [|split].
  - intros j a Ha.
    assert (Hj : j < k) by (apply lookup_lt_Some in Ha; lia).
    rewrite calculate_segment_correction_lookup in Ha by exact Hj.
    injection Ha as <-.
    pose proof (taper_below k (k - 1 - j) ltac:(lia)).
    pose proof (pos_INR (k - 1 - j)). nra.
  - intros j a b Ha Hb.
    assert (Hj : S j < k) by (apply lookup_lt_Some in Hb; lia).
    rewrite calculate_segment_correction_lookup in Ha by lia.
    rewrite calculate_segment_correction_lookup in Hb by lia.
    injection Ha as <-. injection Hb as <-.
    replace (k - 1 - j) with (S (k - 1 - S j)) by lia.
    rewrite S_INR. nra.
  - rewrite calculate_segment_correction_lookup by lia.
    replace (k - 1 - (k - 1)) with 0 by lia. simpl. f_equal. lra.
Qed.

End RibbonFacts.

(* ===================================================================== *)
(** ** Faces against vertices *)
(* ===================================================================== *)

Section FaceCoverage.

Import Numeric QuadStrip.

Lemma face_at_in_faces {A : Type} (k : nat) (hair_coords : list A)
    (faces faces_parallel : list (list quad)) (i j : Z) :
  compute_new_face_vert_idxs k hair_coords = Some (faces, faces_parallel) ->
  (0 <= i < Z.of_nat (length hair_coords))%Z ->
  (0 <= j < Z.of_nat k - 1)%Z ->
  In (face_at (Z.of_nat k) i j) (concat faces).
Proof.
  unfold compute_new_face_vert_idxs.
  destruct (Z.of_nat k - 1 <? 0)%Z; [discriminate|].
  intros [= <- _] Hi Hj. apply in_concat.
  exists (map (fun j => face_at (Z.of_nat k) i j) (range (Z.of_nat k - 1))).
  split.
  - apply in_map_iff. exists i. split; [reflexivity|]. apply in_range. exact Hi.
  - apply in_map_iff. exists j. split; [reflexivity|]. apply in_range. exact Hj.
Qed.

(** Every index below [2 n k] is a corner of one of the faces of the flat
    ribbons. *)
Lemma flat_vertex_on_face (n k z : Z) :
  (2 <= k)%Z -> (0 <= z < 2 * n * k)%Z ->
  exists i j, (0 <= i < n)%Z /\ (0 <= j < k - 1)%Z
              /\ In z (quad_indices (face_at k i j)).
Proof.
  intros Hk Hz.
  pose proof (Z.div_mod z (2 * k) ltac:(lia)) as Hdm.
  pose proof (Z.mod_pos_bound z (2 * k) ltac:(lia)) as Hr.
  set (i := (z / (2 * k))%Z) in *. set (r := (z mod (2 * k))%Z) in *.
  assert (Hi : (0 <= i < n)%Z).
  { split; [apply Z.div_pos; lia|].
    apply Z.div_lt_upper_bound; [lia|]. lia. }
  exists i. unfold face_at, quad_indices.
  destruct (Z_lt_le_dec r (k - 1)) as [H1|H1].
  - exists r. split; [exact Hi|]. split; [lia|]. left. lia.
  - destruct (Z_lt_le_dec r k) as [H2|H2].
    + exists (k - 2)%Z. split; [exact Hi|]. split; [lia|].
      right. left. lia.
    + destruct (Z_lt_le_dec r (k + 1)) as [H3|H3].
      * exists (k - 2)%Z. split; [exact Hi|]. split; [lia|].
        right. right. left. lia.
      * exists (2 * k - 1 - r)%Z. split; [exact Hi|]. split; [lia|].
        right. right. right. left. lia.
Qed.

Lemma quad_offset_index (off a : Z) (q : quad) :
  In a (quad_indices q) ->
  (- 2 ^ 63 <= a + off < 2 ^ 63)%Z ->
  In (a + off)%Z (quad_indices (quad_offset off q)).
Proof.
  destruct q as [[[x y] z] w]. simpl. intros Hin Hfit.
  rewrite <- (int64_wrap_small (a + off) Hfit).
  destruct Hin as [->|[->|[->|[->|[]]]]]; auto.
Qed.

(** The faces of the flat ribbons and of the parallel ones, taken
    together, touch every index below [4 n k]. *)
Lemma ribbon_vertex_on_face {A : Type} (n k : nat) (hair_coords : list A)
    (faces : list (list quad)) (v : nat) :
  2 <= k -> length hair_coords = n ->
  (Z.of_nat (4 * n * k) <= 2 ^ 63)%Z ->
  compute_new_face_vert_idxs k hair_coords = Some (faces, faces) ->
  v < 4 * n * k ->
  exists q,
    In q (concat (faces ++ map (map (quad_offset (Z.of_nat (2 * n * k))))
                               faces))
    /\ In (Z.of_nat v) (quad_indices q).
Proof.
  intros Hk Hlen Hfit Hf Hv.
  assert (Hflat : forall z, (0 <= z < Z.of_nat (2 * n * k))%Z ->
            exists q, In q (concat faces) /\ In z (quad_indices q)).
  { intros z Hz.
    destruct (flat_vertex_on_face (Z.of_nat n) (Z.of_nat k) z)
      as (i & j & Hi & Hj & Hin); [lia|lia|].
    exists (face_at (Z.of_nat k) i j). split; [|exact Hin].
    eapply face_at_in_faces; [exact Hf|lia|lia]. }
  rewrite concat_app.
  destruct (Nat.lt_ge_cases v (2 * n * k)) as [Hlow|Hhigh].
  - destruct (Hflat (Z.of_nat v)) as (q & Hq & Hin); [lia|].
    exists q. split; [apply in_or_app; left; exact Hq|exact Hin].
  - destruct (Hflat (Z.of_nat v - Z.of_nat (2 * n * k))%Z)
      as (q & Hq & Hin); [lia|].
    exists (quad_offset (Z.of_nat (2 * n * k)) q). split.
    + apply in_or_app. right.
      apply in_concat in Hq. destruct Hq as (row & Hrow & Hq).
      apply in_concat.
      exists (map (quad_offset (Z.of_nat (2 * n * k))) row). split.
      * apply in_map. exact Hrow.
      * apply in_map. exact Hq.
    + replace (Z.of_nat v)
        with (Z.of_nat v - Z.of_nat (2 * n * k) + Z.of_nat (2 * n * k))%Z
        by lia.
      apply quad_offset_index; [exact Hin|lia].
Qed.

(** X11. In the object built for a group of [n] strands of [k >= 2]
    points, its [4 n k] vertices fitting the [int64] range, every vertex
    is a corner of at least one face: no vertex is left without loops, so
    the vertex-to-loop dictionary of the UV mapper has an entry for each
    of them. *)
Theorem every_vertex_on_a_face (normalize : vec -> vec) (n k : nat)
    (hair_coords nearest_normals : list (list vec)) :
  2 <= k -> shape n k hair_coords -> shape n k nearest_normals ->
  (Z.of_nat (4 * n * k) <= 2 ^ 63)%Z ->
  exists all_verts all_faces,
    create_mesh_group normalize k hair_coords nearest_normals
    = Some (all_verts, all_faces)
    /\ forall v, v < length all_verts ->
         exists q, In q all_faces /\ In (Z.of_nat v) (quad_indices q).
Proof.
  intros Hk Hc Hn Hfit.
  destruct (create_mesh_group_result normalize n k _ _ ltac:(lia) Hc Hn)
    as (nv & nvp & faces & Hb & Hnv & Hnvp & Hf & _ & _).
  eexists _, _. split; [exact Hb|].
  intros v Hv. rewrite length_app, Hnv, Hnvp in Hv.
  apply (ribbon_vertex_on_face n k hair_coords faces v Hk
           (shape_length _ _ _ Hc) Hfit Hf).
  lia.
Qed.

End FaceCoverage.

(* ===================================================================== *)
(** ** Haircap colours: completion and final state *)
(* ===================================================================== *)

Section HaircapCompletion.

Import Haircap Completion.

Variable point : Type.
Variable kd_find : point -> nat.

Lemma set_color_length (data data' : list color) (i : nat) (c : color) :
  set_color data i c = Some data' -> length data' = length data.
Proof.
  intros H. apply set_color_Some in H. destruct H as [_ ->].
  apply length_insert.
Qed.

Lemma set_color_is_Some (data : list color) (i : nat) (c : color) :
  is_Some (set_color data i c) <-> i < length data.
Proof.
  unfold set_color. destruct (Nat.ltb_spec i (length data)).
  - split; [auto|eauto].
  - split; [intros [x Hx]; discriminate|lia].
Qed.

(** The density loop, from index [start] on: it completes exactly when its
    indices are in range, keeps the length, and leaves every entry outside
    the points it paints as it was. *)
Lemma paint_density_from_frame (vg_aggregate : list Q)
    (haircap_world_coords : list point) :
  forall (start : nat) (data : list color),
    (is_Some (paint_density_from point kd_find start vg_aggregate
                                 haircap_world_coords data)
     <-> (start + length haircap_world_coords <= length data
          \/ haircap_world_coords = [])
         /\ Forall (fun co => kd_find co < length vg_aggregate)
                   haircap_world_coords)
    /\ forall data',
         paint_density_from point kd_find start vg_aggregate
                            haircap_world_coords data = Some data' ->
         length data' = length data
         /\ forall v, start + length haircap_world_coords <= v ->
              data' !! v = data !! v.
Proof.
  induction haircap_world_coords as [|co rest IH]; intros start data.
  - simpl. split.
    + split; [intros _; split; [auto|constructor]|eauto].
    + intros data' [= <-]. auto.
  - cbn [paint_density_from]. split.
    + destruct (vg_aggregate !! kd_find co) as [value|] eqn:Hv; simpl.
      * destruct (set_color data start (value, value, value, 1%Q))
          as [d1|] eqn:H1; simpl.
        -- pose proof (set_color_length _ _ _ _ H1) as Hlen.
           assert (Hs : start < length data)
             by (apply (set_color_is_Some data start
                          (value, value, value, 1%Q)); rewrite H1; eauto).
           destruct (IH (S start) d1) as [IH1 _]. rewrite IH1, Hlen.
           split.
           ++ intros [Hr Hkd]. split.
              ** left. destruct Hr as [Hr| ->]; simpl; lia.
              ** constructor; [|exact Hkd].
                 eapply lookup_lt_Some. exact Hv.
           ++ intros [Hr Hkd]. apply Forall_cons_1 in Hkd. split; [|tauto].
              destruct Hr as [Hr|Hr]; [|discriminate].
              left. simpl in Hr. lia.
        -- split; [intros [x Hx]; discriminate|].
           intros [[Hr|Hr] _]; [|discriminate]. exfalso.
           assert (Hs : is_Some (set_color data start
                                   (value, value, value, 1%Q)))
             by (apply set_color_is_Some; simpl in Hr; lia).
           rewrite H1 in Hs. destruct Hs; discriminate.
      * split; [intros [x Hx]; discriminate|].
        intros [_ Hkd]. apply Forall_cons_1 in Hkd. destruct Hkd as [Hkd _].
        apply lookup_lt_is_Some_2 in Hkd. rewrite Hv in Hkd.
        destruct Hkd; discriminate.
    + intros data'.
      destruct (vg_aggregate !! kd_find co) as [value|]; [|discriminate].
      simpl.
      destruct (set_color data start (value, value, value, 1%Q))
        as [d1|] eqn:H1; [|discriminate].
      simpl. intros Hrest.
      destruct (IH (S start) d1) as [_ IH2].
      destruct (IH2 data' Hrest) as [Hlen Hframe].
      pose proof (set_color_length _ _ _ _ H1) as Hlen1.
      split; [lia|]. intros v Hv. simpl in Hv.
      rewrite Hframe by lia. eapply set_color_other; [exact H1|lia].
Qed.

(** The loop over the edges: it completes exactly when the vertices of the
    boundary edges are in range, keeps the length, and leaves every vertex
    off the boundary as it was. *)
Lemma zero_boundary_frame (edges : list BMEdge) :
  forall (data : list color),
    (is_Some (zero_boundary edges data)
     <-> Forall (fun edge => is_boundary edge = true ->
                             (verts edge).1 < length data
                             /\ (verts edge).2 < length data) edges)
    /\ forall data',
         zero_boundary edges data = Some data' ->
         length data' = length data
         /\ forall v, ~ on_boundary edges v -> data' !! v = data !! v.
Proof.
  induction edges as [|edge rest IH]; intros data.
  - simpl. split.
    + split; [intros _; constructor|eauto].
    + intros data' [= <-]. auto.
  - cbn [zero_boundary].
    assert (Hoff : forall v, ~ on_boundary (edge :: rest) v ->
                     ~ on_boundary rest v).
    { intros v Hv (e & He & Hb & Hends). apply Hv.
      exists e. split; [right; exact He|auto]. }
    destruct (is_boundary edge) eqn:Hb.
    + destruct (verts edge) as [v1 v2] eqn:Hverts.
      destruct (set_color data v1 (0, 0, 0, 1)%Q) as [d1|] eqn:H1; simpl.
      * pose proof (set_color_length _ _ _ _ H1) as Hl1.
        assert (Hv1 : v1 < length data)
          by (apply (set_color_is_Some data v1 (0, 0, 0, 1)%Q);
              rewrite H1; eauto).
        destruct (set_color d1 v2 (0, 0, 0, 1)%Q) as [d2|] eqn:H2; simpl.
        -- pose proof (set_color_length _ _ _ _ H2) as Hl2.
           assert (Hv2 : v2 < length d1)
             by (apply (set_color_is_Some d1 v2 (0, 0, 0, 1)%Q);
                 rewrite H2; eauto).
           destruct (IH d2) as [IH1 IH2]. split.
           ++ rewrite IH1, Hl2, Hl1. split.
              ** intros Hall. constructor; [|exact Hall].
                 intros _. rewrite Hverts. simpl. lia.
              ** intros Hall. apply Forall_cons_1 in Hall. tauto.
           ++ intros data' Hrest. destruct (IH2 data' Hrest) as [Hlen Hfr].
              split; [lia|]. intros v Hv.
              rewrite Hfr by (apply Hoff; exact Hv).
              assert (Hne : v <> v1 /\ v <> v2).
              { split; intros ->; apply Hv; exists edge;
                  (split; [left|]); rewrite Hverts; simpl; auto. }
              rewrite (set_color_other _ _ _ v _ H2) by (intros ->; tauto).
              apply (set_color_other _ _ _ v _ H1). intros ->. tauto.
        -- split; [|intros data' H; discriminate].
           split; [intros [x Hx]; discriminate|].
           intros Hall. apply Forall_cons_1 in Hall.
           destruct Hall as [Hedge _]. destruct (Hedge Hb) as [_ Hv2].
           rewrite Hverts in Hv2. simpl in Hv2. exfalso.
           assert (Hs : is_Some (set_color d1 v2 (0, 0, 0, 1)%Q))
             by (apply set_color_is_Some; lia).
           rewrite H2 in Hs. destruct Hs; discriminate.
      * split; [|intros data' H; discriminate].
        split; [intros [x Hx]; discriminate|].
        intros Hall. apply Forall_cons_1 in Hall.
        destruct Hall as [Hedge _]. destruct (Hedge Hb) as [Hv1 _].
        rewrite Hverts in Hv1. simpl in Hv1. exfalso.
        assert (Hs : is_Some (set_color data v1 (0, 0, 0, 1)%Q))
          by (apply set_color_is_Some; lia).
        rewrite H1 in Hs. destruct Hs; discriminate.
    + destruct (IH data) as [IH1 IH2]. split.
      * rewrite IH1. split.
        -- intros Hall. constructor; [|exact Hall]. intros H. congruence.
        -- intros Hall. apply Forall_cons_1 in Hall. tauto.
      * intros data' Hrest. destruct (IH2 data' Hrest) as [Hlen Hfr].
        split; [exact Hlen|]. intros v Hv. apply Hfr, Hoff, Hv.
Qed.

(** X12. The painting of the haircap completes exactly when its indices
    are in range: a colour entry for every haircap point, every
    nearest-vertex answer within the body, and a colour entry for both
    vertices of every boundary edge.  Any index out of range is an
    error. *)
Theorem add_haircap_colors_completes (vert_count : nat)
    (density_vertex_groups : list VertexGroup)
    (haircap_world_coords : list point) (edges : list BMEdge)
    (data : list color) :
  is_Some (add_haircap_colors point kd_find vert_count density_vertex_groups
                              haircap_world_coords edges data)
  <-> haircap_indices_ok kd_find vert_count haircap_world_coords edges data.
Proof.
  unfold add_haircap_colors, haircap_indices_ok, paint_density.
  destruct (paint_density_from_frame
              (vg_aggregate_of vert_count density_vertex_groups)
              haircap_world_coords 0 data) as [Hp1 Hp2].
  rewrite vg_aggregate_of_length in Hp1.
  destruct (paint_density_from point kd_find 0 _ haircap_world_coords data)
    as [painted|] eqn:Hpaint; simpl.
  - destruct (Hp2 painted eq_refl) as [Hlen _].
    destruct (zero_boundary_frame edges painted) as [Hz _].
    rewrite Hz, Hlen.
    destruct (proj1 Hp1 ltac:(eauto)) as [Hr Hkd]. split.
    + intros Hall. split; [|split; assumption].
      destruct Hr as [Hr| ->]; simpl in *; lia.
    + tauto.
  - split; [intros [x Hx]; discriminate|].
    intros (Hlen & Hkd & _). exfalso.
    assert (Hs : is_Some (@None (list color))); [|destruct Hs; discriminate].
    apply Hp1. split; [left; simpl; lia|exact Hkd].
Qed.

(** X13. The colours [add_haircap] leaves: the colour attribute keeps its
    length; a haircap vertex off the boundary carries the entry of the
    aggregate density array at its nearest body vertex, grey with alpha 1;
    an entry beyond the haircap points and off the boundary is left as it
    was. *)
Theorem add_haircap_colors_off_boundary (vert_count : nat)
    (density_vertex_groups : list VertexGroup)
    (haircap_world_coords : list point) (edges : list BMEdge)
    (data data' : list color) :
  add_haircap_colors point kd_find vert_count density_vertex_groups
                     haircap_world_coords edges data = Some data' ->
  length data' = length data
  /\ forall v, ~ on_boundary edges v ->
       (forall co, haircap_world_coords !! v = Some co ->
          exists a,
            vg_aggregate_of vert_count density_vertex_groups !! kd_find co
            = Some a
            /\ data' !! v = Some (a, a, a, 1%Q))
       /\ (length haircap_world_coords <= v -> data' !! v = data !! v).
Proof.
  unfold add_haircap_colors, paint_density. intros Hrun.
  destruct (paint_density_from point kd_find 0 _ haircap_world_coords data)
    as [painted|] eqn:Hpaint; [|discriminate].
  simpl in Hrun.
  destruct (paint_density_from_frame
              (vg_aggregate_of vert_count density_vertex_groups)
              haircap_world_coords 0 data) as [_ Hp2].
  destruct (Hp2 painted Hpaint) as [Hlen Hframe].
  destruct (zero_boundary_frame edges painted) as [_ Hz2].
  destruct (Hz2 data' Hrun) as [Hlen' Hoff].
  split; [lia|]. intros v Hv. split.
  - intros co Hco.
    destruct (paint_density_from_spec point kd_find _ _ 0 data painted Hpaint)
      as [_ Hpainted].
    destruct (Hpainted v co Hco) as (value & Hvalue & Hd).
    exists value. split; [exact Hvalue|].
    etransitivity; [apply (Hoff v Hv)|]. exact Hd.
  - intros Hbeyond. etransitivity; [apply (Hoff v Hv)|].
    apply Hframe. simpl. exact Hbeyond.
Qed.

End HaircapCompletion.

(* ===================================================================== *)
(** ** Rounding and clamping of the density *)
(* ===================================================================== *)

Section DensityBounds.

Import Haircap DensitySpec.

Local Open Scope Q_scope.

Lemma clip01_range (q : Q) : 0 <= clip01 q /\ clip01 q <= 1.
Proof. apply (clamped01_range q), clip01_clamped. Qed.

(** Clamping brings a value nearer to any point of [[0, 1]]. *)
Lemma clip01_nearer (r s : Q) :
  0 <= s -> s <= 1 -> Qabs (clip01 r - s) <= Qabs (r - s).
Proof.
  intros H0 H1. destruct (clip01_clamped r) as (Hlo & Hhi & Hmid).
  destruct (Qlt_le_dec r 0) as [Hr|Hr].
  - rewrite Hlo by Lqa.lra.
    apply Qabs_case; intros; apply Qabs_case; intros; Lqa.lra.
  - destruct (Qlt_le_dec 1 r) as [Hr1|Hr1].
    + rewrite Hhi by Lqa.lra.
      apply Qabs_case; intros; apply Qabs_case; intros; Lqa.lra.
    + rewrite Hmid by (split; assumption). apply Qle_refl.
Qed.

(** [np.round(x, 4)] in [float32] on an entry of [[0, 1]]: within 0.00005
    and three rounding errors of it. *)
Lemma round4_near (s : Q) :
  0 <= s -> s <= 1 -> Qabs (round4 s - s) <= 251 # 5000000.
Proof.
  intros H0 H1. unfold round4, f32_div, f32_mul.
  pose proof (binary32_error _ _ (f32_round_spec (s * 10000))) as Hp.
  set (p := f32_round (s * 10000)) in *. clearbody p.
  destruct (rint_nearest p) as [Hn _].
  pose proof (binary32_error _ _ (f32_round_spec (inject_Z (rint p) / 10000)))
    as Hr.
  set (r := f32_round (inject_Z (rint p) / 10000)) in *. clearbody r.
  assert (Htiny : 2 ^ (-150) <= 1 # 1000000000000) by discriminate.
  pose proof (pow2_pos (-150)) as Htiny0.
  set (tiny := 2 ^ (-150)) in *. clearbody tiny.
  rewrite (Qabs_pos (s * 10000)) in Hp by Lqa.lra.
  apply Qabs_Qle_condition in Hp, Hn. destruct Hp as [Hp1 Hp2].
  destruct Hn as [Hn1 Hn2].
  assert (Hz : (0 <= rint p)%Z).
  { apply Z.lt_pred_le. rewrite Zlt_Qlt.
    change (inject_Z (Z.pred 0)) with (- (1)).
    set (n := inject_Z (rint p)) in *. clearbody n. Lqa.lra. }
  rewrite Zle_Qle in Hz. change (inject_Z 0) with 0 in Hz.
  set (n := inject_Z (rint p)) in *. clearbody n.
  unfold Qdiv in Hr. change (/ 10000) with (1 # 10000) in Hr.
  rewrite (Qabs_pos (n * (1 # 10000))) in Hr by Lqa.lra.
  apply Qabs_Qle_condition in Hr. destruct Hr as [Hr1 Hr2].
  apply Qabs_Qle_condition. split; Lqa.lra.
Qed.

(** X14. An entry of the aggregate density array always lies in
    [[0, 1]]; and when the entry [s] of the [float32] sum of the weights
    lies in [[0, 1]], the density differs from [s] by at most 0.0000502:
    half a unit of the fourth decimal and the errors of the three
    [float32] roundings of [np.round]. *)
Theorem density_bounds (vert_count : nat)
    (density_vertex_groups : list VertexGroup) (i : nat) (s a : Q) :
  vg_sum_of vert_count density_vertex_groups !! i = Some s ->
  vg_aggregate_of vert_count density_vertex_groups !! i = Some a ->
  0 <= a /\ a <= 1
  /\ (0 <= s -> s <= 1 -> Qabs (a - s) <= 251 # 5000000).
Proof.
  intros Hs Ha. rewrite (vg_aggregate_of_sum _ _ _ _ Hs) in Ha.
  injection Ha as <-.
  destruct (clip01_range (round4 s)) as [H0 H1].
  split; [exact H0|]. split; [exact H1|].
  intros Hs0 Hs1.
  eapply Qle_trans; [apply clip01_nearer; assumption|].
  apply round4_near; assumption.
Qed.

End DensityBounds.

(* ===================================================================== *)
(** ** Zone choice: when it completes *)
(* ===================================================================== *)

Section ZoneCompletion.

Import Numeric UVZones Completion.

Lemma choice_is_Some {A : Type} (r : nat) (l : list A) :
  l <> [] -> is_Some (choice r l).
Proof.
  intros Hne. unfold choice. apply lookup_lt_is_Some_2.
  apply Nat.mod_upper_bound. destruct l; [contradiction|discriminate].
Qed.

Lemma choose_from_table (hairzone_uv_dict : atlas) (key : string)
    (r1 r2 : nat) (wide : bool) :
  table_complete hairzone_uv_dict key ->
  is_Some (table ← dict_get key hairzone_uv_dict;
           subdict ← choice r1 (dict_values table);
           if wide
           then zones ← dict_get "wide" subdict; choice r2 zones
           else zones ← dict_get "narrow" subdict; choice r2 zones).
Proof.
  intros (table & -> & Hne & Hgroups). simpl.
  destruct (choice_is_Some r1 (dict_values table)) as [subdict Hsub].
  { unfold dict_values. destruct table; [contradiction|discriminate]. }
  rewrite Hsub. simpl.
  assert (Hg : group_complete subdict).
  { rewrite List.Forall_forall in Hgroups. apply Hgroups.
    apply list_elem_of_In. eapply choice_elem_of. exact Hsub. }
  destruct Hg as [(zw & Hw & Hwne) (zn & Hn & Hnne)].
  destruct wide.
  - rewrite Hw. simpl. apply choice_is_Some. exact Hwne.
  - rewrite Hn. simpl. apply choice_is_Some. exact Hnne.
Qed.

Lemma choose_zone_is_Some (hairzone_uv_dict : atlas) (length width : R)
    (r1 r2 : nat) :
  atlas_complete hairzone_uv_dict ->
  is_Some (choose_zone hairzone_uv_dict length width r1 r2).
Proof.
  intros [Hlong Hshort]. unfold choose_zone.
  destruct (Rgtb length 0.05).
  - apply (choose_from_table _ "long" r1 r2 (Rgtb width 0.02) Hlong).
  - apply (choose_from_table _ "short" r1 r2 (Rgtb width 0.01) Hshort).
Qed.

Lemma range_step_exact (cards step : nat) :
  1 <= step ->
  range_step (cards * step) step = map (fun c => c * step) (seq 0 cards).
Proof.
  intros Hstep. unfold range_step. f_equal. f_equal.
  replace (cards * step + step - 1) with (step - 1 + cards * step) by lia.
  rewrite Nat.div_add by lia. rewrite Nat.div_small by lia. reflexivity.
Qed.

Lemma measure_full_chunk (vert_len : nat) (verts : list vec) (i : nat) :
  1 <= vert_len -> i + vert_len * 2 <= List.length verts ->
  is_Some (measure vert_len (hair_verts_at verts i (vert_len * 2))).
Proof.
  intros Hk Hi. unfold measure, hair_verts_at.
  set (chunk := take (vert_len * 2) (drop i verts)).
  assert (Hlen : List.length chunk = vert_len * 2).
  { unfold chunk. rewrite length_take, length_drop. lia. }
  destruct (lookup_lt_is_Some_2 chunk 0 ltac:(lia)) as [a Ha].
  destruct (lookup_lt_is_Some_2 chunk vert_len ltac:(lia)) as [b Hb].
  rewrite Ha, Hb. simpl.
  destruct (last chunk) as [c|] eqn:Hc; [simpl; eauto|].
  apply last_None in Hc. rewrite Hc in Hlen. simpl in Hlen. lia.
Qed.

End ZoneCompletion.

(* ===================================================================== *)
(** ** UV layout: the loops of a vertex *)
(* ===================================================================== *)

Section VertLoopDict.

Import Numeric UVZones UVLayout.

Lemma add_loop_models (d : gmap nat (list nat)) (cs : list (nat * nat))
    (e : nat * nat) :
  dict_models d cs -> dict_models (add_loop d e) (cs ++ [e]).
Proof.
  intros Hd v. destruct e as [vi lp]. unfold add_loop.
  rewrite filter_app, fmap_app. specialize (Hd v) as Hv.
  destruct (decide (vi = v)) as [->|Hne].
  - rewrite filter_cons_True by reflexivity. rewrite filter_nil. cbn [fmap list_fmap snd].
    rewrite Hv.
    destruct ((filter (fun e => e.1 = v) cs).*2) as [|a l].
    + rewrite lookup_insert_eq. reflexivity.
    + rewrite lookup_insert_eq. reflexivity.
  - rewrite filter_cons_False by (simpl; congruence). rewrite filter_nil.
    cbn [fmap list_fmap]. rewrite app_nil_r.
    destruct (d !! vi); rewrite lookup_insert_ne by exact Hne; exact Hv.
Qed.

Lemma add_loops_models (es : list (nat * nat)) :
  forall (d : gmap nat (list nat)) (cs : list (nat * nat)),
    dict_models d cs -> dict_models (fold_left add_loop es d) (cs ++ es).
Proof.
  induction es as [|e es IH]; intros d cs Hd.
  - rewrite app_nil_r. exact Hd.
  - simpl. replace (cs ++ e :: es) with ((cs ++ [e]) ++ es)
      by (rewrite <- app_assoc; reflexivity).
    apply IH. apply add_loop_models. exact Hd.
Qed.

Lemma create_vert_loop_dict_models (polygons : list MeshPolygon) :
  dict_models (create_vert_loop_dict polygons) (corners polygons).
Proof.
  unfold create_vert_loop_dict, corners.
  assert (H : forall (d : gmap nat (list nat)) cs,
             dict_models d cs ->
             dict_models
               (fold_left (fun d poly =>
                             fold_left add_loop
                               (zip (vertices poly) (loop_indices poly)) d)
                          polygons d)
               (cs ++ concat (map (fun poly =>
                                     zip (vertices poly) (loop_indices poly))
                                  polygons))).
  { induction polygons as [|p ps IH]; intros d cs Hd.
    - simpl. rewrite app_nil_r. exact Hd.
    - simpl. rewrite app_assoc. apply IH. apply add_loops_models. exact Hd. }
  apply (H ∅ []). intros v. simpl. apply lookup_empty.
Qed.

Lemma create_vert_loop_dict_Some (polygons : list MeshPolygon) (v : nat)
    (loops : list nat) :
  create_vert_loop_dict polygons !! v = Some loops ->
  loops = loops_of polygons v.
Proof.
  rewrite (create_vert_loop_dict_models polygons v). unfold loops_of.
  destruct ((filter (fun e => e.1 = v) (corners polygons)).*2);
    congruence.
Qed.

Lemma loops_of_corner (polygons : list MeshPolygon) (v l : nat) :
  l ∈ loops_of polygons v <-> (v, l) ∈ corners polygons.
Proof.
  unfold loops_of. rewrite list_elem_of_fmap. split.
  - intros ([v' l'] & -> & Hin). apply list_elem_of_filter in Hin.
    destruct Hin as [Hv Hin]. simpl in Hv. subst v'. exact Hin.
  - intros Hin. exists (v, l). split; [reflexivity|].
    apply list_elem_of_filter. split; [reflexivity|exact Hin].
Qed.

(** X16. The dictionary of [_create_vert_loop_dict] has a key for exactly
    the vertices that are a corner of some polygon, and lists under a
    vertex all the loops of its corners, in the order of the polygons and
    of the corners in each. *)
Theorem vert_loop_dict_lookup (polygons : list MeshPolygon) (v : nat) :
  (is_Some (create_vert_loop_dict polygons !! v)
   <-> exists l, (v, l) ∈ corners polygons)
  /\ (forall loops,
        create_vert_loop_dict polygons !! v = Some loops ->
        loops = loops_of polygons v).
Proof.
  split.
  - rewrite (create_vert_loop_dict_models polygons v).
    fold (loops_of polygons v).
    destruct (loops_of polygons v) as [|l ls] eqn:Hl.
    + split.
      * intros [x Hx]. discriminate.
      * intros [l Hin]. apply loops_of_corner in Hin. rewrite Hl in Hin.
        inversion Hin.
    + split; [|eauto]. intros _. exists l. apply loops_of_corner.
      rewrite Hl. left.
  - apply create_vert_loop_dict_Some.
Qed.

End VertLoopDict.

(* ===================================================================== *)
(** ** UV layout: the UV layer after [_set_vert_group_uvs] *)
(* ===================================================================== *)

Section UVWrites.

Import Numeric UVZones UVLayout.

Lemma set_loops_uv_length (data : list uv) (loops : list nat) (u : uv) :
  List.length (set_loops_uv data loops u) = List.length data.
Proof.
  unfold set_loops_uv. revert data.
  induction loops as [|a loops IH]; intros data; simpl; [reflexivity|].
  rewrite IH. apply length_insert.
Qed.

Lemma set_loops_uv_other (data : list uv) (loops : list nat) (u : uv)
    (l : nat) :
  l ∉ loops -> set_loops_uv data loops u !! l = data !! l.
Proof.
  unfold set_loops_uv. revert data.
  induction loops as [|a loops IH]; intros data Hn; simpl; [reflexivity|].
  rewrite IH by (intros H; apply Hn; right; exact H).
  apply list_lookup_insert_ne. intros ->. apply Hn. left.
Qed.

Lemma set_loops_uv_elem (data : list uv) (loops : list nat) (u : uv)
    (l : nat) :
  l ∈ loops -> l < List.length data ->
  set_loops_uv data loops u !! l = Some u.
Proof.
  revert data.
  induction loops as [|a loops IH]; intros data Hin Hlt; [inversion Hin|].
  destruct (decide (l ∈ loops)) as [Hl|Hl].
  - unfold set_loops_uv. simpl. apply IH; [exact Hl|].
    rewrite length_insert. exact Hlt.
  - assert (l = a) by (apply elem_of_cons in Hin as [?|?]; [assumption|contradiction]).
    subst a. unfold set_loops_uv. simpl.
    fold (set_loops_uv (<[l := u]> data) loops u).
    rewrite set_loops_uv_other by exact Hl.
    apply list_lookup_insert_eq. exact Hlt.
Qed.

Lemma fold_left_None {A B : Type} (f : option A -> B -> option A)
    (xs : list B) :
  (forall x, f None x = None) -> fold_left f xs None = None.
Proof.
  intros HNone. induction xs as [|x xs IH]; simpl; [reflexivity|].
  rewrite HNone. exact IH.
Qed.

(** A loop of steps that each write inside a footprint of their own: what a
    step has put into its footprint is still there at the end. *)
Lemma fold_writes {Item : Type} (n : nat)
    (stepo : option (list uv) -> Item -> option (list uv))
    (F : Item -> nat -> Prop) (P : Item -> list uv -> Prop)
    (xs : list Item) :
  (forall x, stepo None x = None) ->
  (forall x d d',
      P x d -> (forall l, F x l -> d' !! l = d !! l) -> P x d') ->
  (forall x d d',
      x ∈ xs -> List.length d = n -> stepo (Some d) x = Some d' ->
      List.length d' = n
      /\ (forall l, ~ F x l -> d' !! l = d !! l)
      /\ P x d') ->
  ForallOrdPairs (fun x y => forall l, F x l -> F y l -> False) xs ->
  forall d d',
    List.length d = n -> fold_left stepo xs (Some d) = Some d' ->
    List.length d' = n
    /\ (forall l, (forall x, x ∈ xs -> ~ F x l) -> d' !! l = d !! l)
    /\ (forall x, x ∈ xs -> P x d').
Proof.
  intros HNone Hstable.
  induction xs as [|x xs IH]; intros Hstep Hdisj d d' Hlen Hfold.
  - simpl in Hfold. injection Hfold as <-.
    split; [exact Hlen|]. split; [reflexivity|].
    intros x Hx. inversion Hx.
  - simpl in Hfold. destruct (stepo (Some d) x) as [d1|] eqn:H1.
    2:{ rewrite fold_left_None in Hfold by exact HNone. discriminate. }
    destruct (Hstep x d d1 ltac:(left) Hlen H1) as (Hl1 & Hfr1 & HP1).
    inversion Hdisj as [|? ? Hx Hrest]; subst.
    destruct (IH (fun y e e' Hy => Hstep y e e' ltac:(right; exact Hy))
                 Hrest d1 d' Hl1 Hfold) as (Hl' & Hfr' & HP').
    split; [exact Hl'|]. split.
    + intros l Hl. rewrite Hfr'.
      * apply Hfr1. apply Hl. left.
      * intros y Hy. apply Hl. right. exact Hy.
    + intros y Hy. apply elem_of_cons in Hy as [->|Hy].
      * apply (Hstable x d1 d' HP1). intros l HF. apply Hfr'.
        intros y Hy HFy. rewrite List.Forall_forall in Hx.
        apply (Hx y (proj1 (list_elem_of_In _ _) Hy) l HF HFy).
      * apply HP'. exact Hy.
Qed.

Lemma ForallOrdPairs_map_seq {A : Type} (R : A -> A -> Prop)
    (f : nat -> A) (m : nat) :
  (forall p q, p < q < m -> R (f p) (f q)) ->
  ForallOrdPairs R (map f (seq 0 m)).
Proof.
  intros HR.
  assert (H : forall s, s <= m ->
                        ForallOrdPairs R (map f (seq s (m - s)))).
  { intros s. remember (m - s) as r eqn:Hr. revert s Hr.
    induction r as [|r IH]; intros s Hr Hs; simpl; constructor.
    - apply List.Forall_forall. intros y Hy. apply in_map_iff in Hy.
      destruct Hy as (q & <- & Hq). apply in_seq in Hq. apply HR. lia.
    - apply IH; lia. }
  specialize (H 0 ltac:(lia)). rewrite Nat.sub_0_r in H. exact H.
Qed.

Lemma NoDup_snd_inj {A B : Type} (l : list (A * B)) (a a' : A) (b : B) :
  NoDup l.*2 -> (a, b) ∈ l -> (a', b) ∈ l -> a = a'.
Proof.
  induction l as [|[x y] l IH]; intros Hnd H1 H2; [inversion H1|].
  rewrite fmap_cons in Hnd. cbn [snd] in Hnd.
  apply NoDup_cons in Hnd as [Hy Hnd].
  assert (Hin : forall c, (c, y) ∈ l -> False).
  { intros c Hc. apply Hy. apply list_elem_of_fmap. exists (c, y).
    split; [reflexivity|exact Hc]. }
  apply elem_of_cons in H1 as [H1|H1]; apply elem_of_cons in H2 as [H2|H2].
  - congruence.
  - injection H1 as -> ->. exfalso. eapply Hin. exact H2.
  - injection H2 as -> ->. exfalso. eapply Hin. exact H1.
  - apply IH; assumption.
Qed.

Lemma loops_of_disjoint (polygons : list MeshPolygon) (v v' l : nat) :
  NoDup (corners polygons).*2 ->
  l ∈ loops_of polygons v -> l ∈ loops_of polygons v' -> v = v'.
Proof.
  intros Hnd H1 H2. apply loops_of_corner in H1, H2.
  exact (NoDup_snd_inj _ _ _ _ Hnd H1 H2).
Qed.

Lemma loops_of_range (polygons : list MeshPolygon) (n v l : nat) :
  Forall (fun l => l < n) (corners polygons).*2 ->
  l ∈ loops_of polygons v -> l < n.
Proof.
  intros Hr Hl. apply loops_of_corner in Hl.
  rewrite Forall_forall in Hr. apply Hr. apply list_elem_of_fmap.
  exists (v, l). split; [reflexivity|exact Hl].
Qed.

Lemma pair_painted_stable (polygons : list MeshPolygon) (vert_len : nat)
    (bottom_left top_right : list R) (e : nat * (nat * nat))
    (d d' : list uv) :
  pair_painted polygons vert_len bottom_left top_right e d ->
  (forall l, pair_footprint polygons e l -> d' !! l = d !! l) ->
  pair_painted polygons vert_len bottom_left top_right e d'.
Proof.
  intros (x_min & y_min & x_max & y_max & H1 & H2 & H3 & H4 & Hl & Hr) Hsame.
  exists x_min, y_min, x_max, y_max. repeat (split; [assumption|]). split.
  - intros l Hin. rewrite Hsame by (left; exact Hin). apply Hl. exact Hin.
  - intros l Hin. rewrite Hsame by (right; exact Hin). apply Hr. exact Hin.
Qed.

Lemma set_pair_uvs_None (vert_loop_dict : gmap nat (list nat))
    (vert_len : nat) (bottom_left top_right : list R)
    (e : nat * (nat * nat)) :
  set_pair_uvs vert_loop_dict vert_len bottom_left top_right None e = None.
Proof. destruct e as [j [a b]]. reflexivity. Qed.

Lemma set_pair_uvs_step (polygons : list MeshPolygon) (vert_len n : nat)
    (bottom_left top_right : list R) (e : nat * (nat * nat))
    (d d' : list uv) :
  NoDup (corners polygons).*2 ->
  Forall (fun l => l < n) (corners polygons).*2 ->
  e.2.1 <> e.2.2 ->
  List.length d = n ->
  set_pair_uvs (create_vert_loop_dict polygons) vert_len bottom_left
               top_right (Some d) e = Some d' ->
  List.length d' = n
  /\ (forall l, ~ pair_footprint polygons e l -> d' !! l = d !! l)
  /\ pair_painted polygons vert_len bottom_left top_right e d'.
Proof.
  intros Hnd Hrange Hne Hlen Hstep. destruct e as [j [vl vr]].
  cbn [fst snd] in Hne. unfold set_pair_uvs in Hstep.
  cbn [mbind option_bind] in Hstep.
  destruct (create_vert_loop_dict polygons !! vl) as [ll|] eqn:Hll;
    [|discriminate].
  destruct (create_vert_loop_dict polygons !! vr) as [lr|] eqn:Hlr;
    [|discriminate].
  apply create_vert_loop_dict_Some in Hll, Hlr.
  cbn [mbind option_bind] in Hstep.
  destruct (bottom_left !! 0) as [x_min|] eqn:Hx0; [|discriminate].
  destruct (top_right !! 0) as [x_max|] eqn:Hx1; [|discriminate].
  cbn [mbind option_bind] in Hstep.
  destruct (bottom_left !! 1) as [y_min|] eqn:Hy0; [|discriminate].
  destruct (top_right !! 1) as [y_max|] eqn:Hy1; [|discriminate].
  cbn [mbind option_bind] in Hstep.
  destruct (Nat.eqb (vert_len - 1) 0); [discriminate|].
  injection Hstep as <-. subst ll lr.
  split; [|split].
  - rewrite !set_loops_uv_length. exact Hlen.
  - intros l Hl. rewrite !set_loops_uv_other; [reflexivity| |].
    + intros H. apply Hl. left. exact H.
    + intros H. apply Hl. right. exact H.
  - exists x_min, y_min, x_max, y_max. repeat (split; [assumption|]).
    cbn [fst snd]. split.
    + intros l Hin. rewrite set_loops_uv_other.
      * apply set_loops_uv_elem; [exact Hin|]. rewrite Hlen.
        eapply loops_of_range; eassumption.
      * intros Hin'. apply Hne.
        exact (loops_of_disjoint polygons vl vr l Hnd Hin Hin').
    + intros l Hin. apply set_loops_uv_elem; [exact Hin|].
      rewrite set_loops_uv_length, Hlen.
      eapply loops_of_range; eassumption.
Qed.

Lemma card_pairs_full (n_verts i vert_len : nat) :
  i + vert_len * 2 <= n_verts ->
  imap (fun j pair => (j, pair)) (vert_pairs n_verts i vert_len)
  = map (fun j => (j, (i + j, i + (vert_len * 2 - 1 - j))))
        (seq 0 vert_len).
Proof.
  intros Hi. apply list_eq. intros j.
  rewrite list_lookup_imap, list_lookup_fmap. unfold vert_pairs.
  rewrite drop_seq, take_seq.
  replace (Nat.min (vert_len * 2) (n_verts - i)) with (vert_len * 2) by lia.
  rewrite take_seq, drop_seq.
  replace (Nat.min vert_len (vert_len * 2)) with vert_len by lia.
  replace (vert_len * 2 - vert_len) with vert_len by lia.
  rewrite lookup_zip_with.
  destruct (decide (j < vert_len)) as [Hj|Hj].
  - rewrite !lookup_seq_lt by exact Hj.
    rewrite reverse_lookup by (rewrite length_seq; exact Hj).
    rewrite length_seq. rewrite lookup_seq_lt by lia. simpl.
    do 3 f_equal; lia.
  - rewrite !lookup_seq_ge by lia. reflexivity.
Qed.

Lemma set_card_step (hairzone_uv_dict : atlas) (vert_len n : nat)
    (verts : list vec) (polygons : list MeshPolygon) (rand : nat -> nat)
    (i : nat) (d d' : list uv) :
  NoDup (corners polygons).*2 ->
  Forall (fun l => l < n) (corners polygons).*2 ->
  i + vert_len * 2 <= List.length verts ->
  List.length d = n ->
  set_card hairzone_uv_dict vert_len verts (create_vert_loop_dict polygons)
           rand (Some d) i = Some d' ->
  List.length d' = n
  /\ (forall l, ~ card_footprint polygons vert_len i l -> d' !! l = d !! l)
  /\ card_painted hairzone_uv_dict vert_len verts rand polygons i d'.
Proof.
  intros Hnd Hrange Hi Hlen Hstep. unfold set_card in Hstep.
  cbn [mbind option_bind] in Hstep.
  destruct (card_zone hairzone_uv_dict vert_len verts rand i)
    as [chosen_zone|] eqn:Hzone; [|discriminate].
  cbn [mbind option_bind] in Hstep. unfold set_card_uvs in Hstep.
  destruct chosen_zone as [|bottom_left [|top_right [|? ?]]];
    try discriminate.
  rewrite card_pairs_full in Hstep by exact Hi.
  destruct (fold_writes n
              (set_pair_uvs (create_vert_loop_dict polygons) vert_len
                            bottom_left top_right)
              (pair_footprint polygons)
              (pair_painted polygons vert_len bottom_left top_right)
              (map (fun j => (j, (i + j, i + (vert_len * 2 - 1 - j))))
                   (seq 0 vert_len)))
    with (d := d) (d' := d') as (Hl & Hframe & Hpainted).
  - apply set_pair_uvs_None.
  - apply pair_painted_stable.
  - intros e e0 e1 He. apply list_elem_of_fmap in He.
    destruct He as (j & -> & Hj). apply elem_of_seq in Hj.
    apply set_pair_uvs_step; [exact Hnd|exact Hrange|].
    cbn [fst snd]. lia.
  - apply ForallOrdPairs_map_seq. intros p q Hpq l [Hp|Hp] [Hq|Hq];
      cbn [fst snd] in Hp, Hq;
      pose proof (loops_of_disjoint _ _ _ _ Hnd Hp Hq); lia.
  - exact Hlen.
  - exact Hstep.
  - split; [exact Hl|]. split.
    + intros l Hout. apply Hframe. intros e He.
      apply list_elem_of_fmap in He. destruct He as (j & -> & Hj).
      apply elem_of_seq in Hj. intros [Hf|Hf]; cbn [fst snd] in Hf;
        apply Hout; eexists; (split; [|exact Hf]); lia.
    + exists bottom_left, top_right. split; [exact Hzone|].
      intros j Hj. apply Hpainted. apply list_elem_of_fmap.
      exists j. split; [reflexivity|]. apply elem_of_seq. lia.
Qed.

Lemma card_painted_stable (hairzone_uv_dict : atlas) (vert_len : nat)
    (verts : list vec) (rand : nat -> nat) (polygons : list MeshPolygon)
    (i : nat) (d d' : list uv) :
  card_painted hairzone_uv_dict vert_len verts rand polygons i d ->
  (forall l, card_footprint polygons vert_len i l -> d' !! l = d !! l) ->
  card_painted hairzone_uv_dict vert_len verts rand polygons i d'.
Proof.
  intros (bottom_left & top_right & Hzone & Hrows) Hsame.
  exists bottom_left, top_right. split; [exact Hzone|].
  intros j Hj. apply (pair_painted_stable _ _ _ _ _ d); [apply Hrows, Hj|].
  intros l [Hf|Hf]; cbn [fst snd] in Hf; apply Hsame;
    eexists; (split; [|exact Hf]); lia.
Qed.

(** The UV layer once the loop over the cards has returned. *)
Lemma set_vert_group_uvs_layout (hairzone_uv_dict : atlas)
    (vert_len cards : nat) (verts : list vec)
    (polygons : list MeshPolygon) (rand : nat -> nat)
    (data data' : list uv) :
  2 <= vert_len ->
  List.length verts = cards * (vert_len * 2) ->
  NoDup (corners polygons).*2 ->
  Forall (fun l => l < List.length data) (corners polygons).*2 ->
  set_vert_group_uvs hairzone_uv_dict vert_len verts
                     (create_vert_loop_dict polygons) rand data
  = Some data' ->
  List.length data' = List.length data
  /\ (forall c, c < cards ->
        card_painted hairzone_uv_dict vert_len verts rand polygons
                     (c * (vert_len * 2)) data')
  /\ (forall l,
        (forall v, v < List.length verts -> l ∉ loops_of polygons v) ->
        data' !! l = data !! l).
Proof.
  intros Hk Hlen Hnd Hrange Hrun. unfold set_vert_group_uvs in Hrun.
  destruct (Nat.eqb_spec (vert_len * 2) 0) as [H0|_]; [lia|].
  rewrite Hlen, range_step_exact in Hrun by lia.
  destruct (fold_writes (List.length data)
              (set_card hairzone_uv_dict vert_len verts
                        (create_vert_loop_dict polygons) rand)
              (card_footprint polygons vert_len)
              (card_painted hairzone_uv_dict vert_len verts rand polygons)
              (map (fun c => c * (vert_len * 2)) (seq 0 cards)))
    with (d := data) (d' := data') as (Hl & Hframe & Hpainted).
  - reflexivity.
  - apply card_painted_stable.
  - intros i e e' Hi. apply list_elem_of_fmap in Hi.
    destruct Hi as (c & -> & Hc). apply elem_of_seq in Hc.
    apply set_card_step; [exact Hnd|exact Hrange|]. rewrite Hlen. nia.
  - apply ForallOrdPairs_map_seq.
    intros p q Hpq l (v & Hv & Hlv) (v' & Hv' & Hlv').
    pose proof (loops_of_disjoint _ _ _ _ Hnd Hlv Hlv'). nia.
  - reflexivity.
  - exact Hrun.
  - split; [exact Hl|]. split.
    + intros c Hc. apply Hpainted. apply list_elem_of_fmap.
      exists c. split; [reflexivity|]. apply elem_of_seq. lia.
    + intros l Hout. apply Hframe. intros i Hi.
      apply list_elem_of_fmap in Hi. destruct Hi as (c & -> & Hc).
      apply elem_of_seq in Hc. intros (v & Hv & Hlv).
      apply (Hout v); [rewrite Hlen; nia|exact Hlv].
Qed.

(** X17. For an object of [cards] cards of [2 k] vertices, [k >= 2], whose
    loops each belong to one corner and all have an entry in the UV layer:
    when [_set_vert_group_uvs] returns, the layer has kept its length, and
    every card [c] lies on the zone [[bottom_left, top_right]] chosen for
    it. In row [j] of the card, every loop of vertex [2 k c + j] has
    [u = top_right[0]], every loop of vertex [2 k c + (2 k - 1 - j)] has
    [u = bottom_left[0]], and both have
    [v = y_min + (y_max - y_min) * (j / (k - 1))]. A loop on no vertex of
    the object keeps its UV. *)
Theorem uv_layer_after_set_vert_group_uvs (hairzone_uv_dict : atlas)
    (vert_len cards : nat) (verts : list vec)
    (polygons : list MeshPolygon) (rand : nat -> nat)
    (data data' : list uv) :
  2 <= vert_len ->
  List.length verts = cards * (vert_len * 2) ->
  NoDup (corners polygons).*2 ->
  Forall (fun l => l < List.length data) (corners polygons).*2 ->
  set_vert_group_uvs hairzone_uv_dict vert_len verts
                     (create_vert_loop_dict polygons) rand data
  = Some data' ->
  List.length data' = List.length data
  /\ (forall c, c < cards ->
        card_painted hairzone_uv_dict vert_len verts rand polygons
                     (c * (vert_len * 2)) data')
  /\ (forall l,
        (forall v, v < List.length verts -> l ∉ loops_of polygons v) ->
        data' !! l = data !! l).
Proof.
  apply set_vert_group_uvs_layout.
Qed.

End UVWrites.

(* ===================================================================== *)
(** ** UV layout: from [create_mesh] to [add_uvs] *)
(* ===================================================================== *)

Section UVCompletion.

Import Numeric QuadStrip UVZones Completion UVLayout.

Lemma create_vert_loop_dict_is_Some (polygons : list MeshPolygon)
    (v l : nat) :
  (v, l) ∈ corners polygons ->
  is_Some (create_vert_loop_dict polygons !! v).
Proof.
  intros Hin. apply loops_of_corner in Hin.
  rewrite (create_vert_loop_dict_models polygons v).
  fold (loops_of polygons v).
  destruct (loops_of polygons v); [inversion Hin|eauto].
Qed.

Lemma polygons_from (s : nat) (faces : list quad) :
  (concat (map (fun poly => zip (vertices poly) (loop_indices poly))
               (imap (fun p q =>
                        {| vertices := map Z.to_nat (quad_indices q);
                           loop_indices := seq (4 * (s + p)) 4 |})
                     faces))).*2
  = seq (4 * s) (4 * length faces).
Proof.
  revert s. induction faces as [|q faces IH]; intros s; [reflexivity|].
  cbn [imap map concat]. rewrite fmap_app.
  rewrite (imap_ext _ (fun p q =>
             {| vertices := map Z.to_nat (quad_indices q);
                loop_indices := seq (4 * (S s + p)) 4 |}) faces)
    by (intros; unfold compose; f_equal; f_equal; lia).
  rewrite IH. cbn [vertices loop_indices].
  replace (4 * length (q :: faces)) with (4 + 4 * length faces)
    by (simpl; lia).
  rewrite seq_app. f_equal.
  - destruct q as [[[a b] c] d]. rewrite Nat.add_0_r. reflexivity.
  - f_equal. lia.
Qed.

Lemma polygons_of_faces_loops (faces : list quad) :
  (corners (polygons_of_faces faces)).*2 = seq 0 (4 * length faces).
Proof. exact (polygons_from 0 faces). Qed.

Lemma polygons_of_faces_corner (faces : list quad) (q : quad) (z : Z) :
  In q faces -> In z (quad_indices q) ->
  exists l, (Z.to_nat z, l) ∈ corners (polygons_of_faces faces).
Proof.
  intros Hq Hz. apply list_elem_of_In in Hq.
  apply list_elem_of_lookup in Hq. destruct Hq as [p Hp].
  apply list_elem_of_In in Hz. apply list_elem_of_lookup in Hz.
  destruct Hz as [c Hc].
  assert (Hc4 : c < 4).
  { apply lookup_lt_Some in Hc. destruct q as [[[? ?] ?] ?]. exact Hc. }
  exists (4 * p + c). unfold corners.
  eapply elem_of_concat.
  { apply list_elem_of_In, in_map, list_elem_of_In.
    apply list_elem_of_lookup. exists p. unfold polygons_of_faces.
    rewrite list_lookup_imap, Hp. reflexivity. }
  cbn [vertices loop_indices]. apply list_elem_of_lookup. exists c.
  rewrite lookup_zip_with, list_lookup_fmap, Hc.
  rewrite lookup_seq_lt by exact Hc4. reflexivity.
Qed.

Lemma fold_total {Item : Type} (n : nat)
    (stepo : option (list uv) -> Item -> option (list uv))
    (xs : list Item) :
  (forall x d, x ∈ xs -> List.length d = n ->
     exists d', stepo (Some d) x = Some d' /\ List.length d' = n) ->
  forall d, List.length d = n ->
    exists d', fold_left stepo xs (Some d) = Some d' /\ List.length d' = n.
Proof.
  induction xs as [|x xs IH]; intros Hstep d Hlen.
  - exists d. split; [reflexivity|exact Hlen].
  - destruct (Hstep x d ltac:(left) Hlen) as (d1 & H1 & Hl1).
    simpl. rewrite H1. apply IH; [|exact Hl1].
    intros y e Hy. apply Hstep. right. exact Hy.
Qed.

Lemma set_pair_uvs_total (polygons : list MeshPolygon) (vert_len : nat)
    (bottom_left top_right : list R) (j vl vr : nat) (d : list uv) :
  2 <= vert_len ->
  2 <= List.length bottom_left -> 2 <= List.length top_right ->
  (exists l, (vl, l) ∈ corners polygons) ->
  (exists l, (vr, l) ∈ corners polygons) ->
  exists d',
    set_pair_uvs (create_vert_loop_dict polygons) vert_len bottom_left
                 top_right (Some d) (j, (vl, vr)) = Some d'
    /\ List.length d' = List.length d.
Proof.
  intros Hk Hbl Htr [l1 H1] [l2 H2].
  destruct (create_vert_loop_dict_is_Some _ _ _ H1) as [ll Hll].
  destruct (create_vert_loop_dict_is_Some _ _ _ H2) as [lr Hlr].
  destruct (lookup_lt_is_Some_2 bottom_left 0 ltac:(lia)) as [x_min Hx0].
  destruct (lookup_lt_is_Some_2 bottom_left 1 ltac:(lia)) as [y_min Hy0].
  destruct (lookup_lt_is_Some_2 top_right 0 ltac:(lia)) as [x_max Hx1].
  destruct (lookup_lt_is_Some_2 top_right 1 ltac:(lia)) as [y_max Hy1].
  unfold set_pair_uvs. cbn [mbind option_bind].
  rewrite Hll, Hlr. cbn [mbind option_bind].
  rewrite Hx0, Hx1. cbn [mbind option_bind].
  rewrite Hy0, Hy1. cbn [mbind option_bind].
  destruct (Nat.eqb_spec (vert_len - 1) 0) as [H0|_]; [lia|].
  eexists. split; [reflexivity|]. rewrite !set_loops_uv_length. reflexivity.
Qed.

Lemma card_zone_rectangle (hairzone_uv_dict : atlas) (vert_len : nat)
    (verts : list vec) (rand : nat -> nat) (i : nat) :
  1 <= vert_len -> i + vert_len * 2 <= List.length verts ->
  atlas_complete hairzone_uv_dict -> atlas_rectangles hairzone_uv_dict ->
  exists z, card_zone hairzone_uv_dict vert_len verts rand i = Some z
            /\ rectangle z.
Proof.
  intros Hk Hi Hcomplete Hrect. unfold card_zone.
  destruct (measure_full_chunk vert_len verts i Hk Hi) as [m Hm].
  rewrite Hm. cbn [mbind option_bind].
  destruct (choose_zone_is_Some hairzone_uv_dict m.1 m.2
              (rand (2 * (i / (vert_len * 2))))
              (rand (2 * (i / (vert_len * 2)) + 1)) Hcomplete) as [z Hz].
  exists z. split; [exact Hz|].
  apply choose_zone_matching in Hz.
  destruct Hz as (table & subdict & zones & Ht & Hs & Hzs & Hin).
  exact (Hrect _ _ _ _ _ _ Ht Hs Hzs Hin).
Qed.

Lemma set_card_total (hairzone_uv_dict : atlas) (vert_len : nat)
    (verts : list vec) (polygons : list MeshPolygon) (rand : nat -> nat)
    (i : nat) (d : list uv) :
  2 <= vert_len -> i + vert_len * 2 <= List.length verts ->
  atlas_complete hairzone_uv_dict -> atlas_rectangles hairzone_uv_dict ->
  (forall v, v < List.length verts -> exists l, (v, l) ∈ corners polygons) ->
  exists d',
    set_card hairzone_uv_dict vert_len verts
             (create_vert_loop_dict polygons) rand (Some d) i = Some d'
    /\ List.length d' = List.length d.
Proof.
  intros Hk Hi Hcomplete Hrect Hcover. unfold set_card.
  destruct (card_zone_rectangle hairzone_uv_dict vert_len verts rand i
              ltac:(lia) Hi Hcomplete Hrect)
    as (z & Hz & bottom_left & top_right & -> & Hbl & Htr).
  cbn [mbind option_bind]. rewrite Hz. cbn [mbind option_bind].
  unfold set_card_uvs. rewrite card_pairs_full by exact Hi.
  apply fold_total; [|reflexivity].
  intros e e0 He Hlen. apply list_elem_of_fmap in He.
  destruct He as (j & -> & Hj). apply elem_of_seq in Hj.
  rewrite <- Hlen.
  apply set_pair_uvs_total; try assumption; apply Hcover; lia.
Qed.

Lemma set_vert_group_uvs_total (hairzone_uv_dict : atlas)
    (vert_len cards : nat) (verts : list vec)
    (polygons : list MeshPolygon) (rand : nat -> nat) (data : list uv) :
  2 <= vert_len -> List.length verts = cards * (vert_len * 2) ->
  atlas_complete hairzone_uv_dict -> atlas_rectangles hairzone_uv_dict ->
  (forall v, v < List.length verts -> exists l, (v, l) ∈ corners polygons) ->
  exists data',
    set_vert_group_uvs hairzone_uv_dict vert_len verts
                       (create_vert_loop_dict polygons) rand data
    = Some data'
    /\ List.length data' = List.length data.
Proof.
  intros Hk Hlen Hcomplete Hrect Hcover. unfold set_vert_group_uvs.
  destruct (Nat.eqb_spec (vert_len * 2) 0) as [H0|_]; [lia|].
  rewrite Hlen, range_step_exact by lia.
  apply fold_total; [|reflexivity].
  intros i d Hi Hd. apply list_elem_of_fmap in Hi.
  destruct Hi as (c & -> & Hc). apply elem_of_seq in Hc.
  rewrite <- Hd. apply set_card_total; try assumption.
  rewrite Hlen. nia.
Qed.

(** X15. On an object of [cards] cards of [2 k] vertices each, [k >= 2],
    every vertex a corner of some polygon, and with an atlas that has both
    length tables, a zone group in each, a non-empty "wide" and "narrow"
    list in every group and only rectangles in them:
    [_set_vert_group_uvs] raises nothing whatever the random draws, keeps
    the length of the UV layer, and has a rectangle chosen for each
    card. *)
Theorem set_vert_group_uvs_completes (hairzone_uv_dict : atlas)
    (vert_len cards : nat) (verts : list vec)
    (polygons : list MeshPolygon) (rand : nat -> nat) (data : list uv) :
  2 <= vert_len -> List.length verts = cards * (vert_len * 2) ->
  atlas_complete hairzone_uv_dict -> atlas_rectangles hairzone_uv_dict ->
  (forall v, v < List.length verts -> exists l, (v, l) ∈ corners polygons) ->
  (exists data',
     set_vert_group_uvs hairzone_uv_dict vert_len verts
                        (create_vert_loop_dict polygons) rand data
     = Some data'
     /\ List.length data' = List.length data)
  /\ forall c, c < cards ->
       exists z,
         card_zone hairzone_uv_dict vert_len verts rand
                   (c * (vert_len * 2)) = Some z
         /\ rectangle z.
Proof.
  intros Hk Hlen Hcomplete Hrect Hcover. split.
  - apply (set_vert_group_uvs_total _ _ cards); assumption.
  - intros c Hc. apply card_zone_rectangle; try assumption; [lia|].
    rewrite Hlen. nia.
Qed.

(** [add_uvs] on an object that [create_mesh] has built. *)
Lemma created_object_runs_add_uvs (normalize : vec -> vec) (n k : nat)
    (hair_coords nearest_normals : list (list vec))
    (hairzone_uv_dict : atlas) (rand : nat -> nat) :
  2 <= k -> shape n k hair_coords -> shape n k nearest_normals ->
  (Z.of_nat (4 * n * k) <= 2 ^ 63)%Z ->
  atlas_complete hairzone_uv_dict -> atlas_rectangles hairzone_uv_dict ->
  exists all_verts all_faces data',
    create_mesh_group normalize k hair_coords nearest_normals
    = Some (all_verts, all_faces)
    /\ add_uvs_object hairzone_uv_dict k
         {| obj_vertices := all_verts;
            obj_polygons := polygons_of_faces all_faces |} rand
       = Some data'
    /\ List.length data' = 4 * List.length all_faces.
Proof.
  intros Hk Hc Hn Hfit Hcomplete Hrect.
  destruct (create_mesh_group_result normalize n k _ _ ltac:(lia) Hc Hn)
    as (nv & nvp & faces & Hb & Hnv & Hnvp & Hf & _ & _).
  set (all_faces := concat (faces ++ map (map (quad_offset
                                   (Z.of_nat (2 * n * k)))) faces)) in *.
  exists (nv ++ nvp), all_faces.
  assert (Hloops : List.length (corners (polygons_of_faces all_faces))
                   = 4 * List.length all_faces).
  { rewrite <- (length_fmap snd), polygons_of_faces_loops.
    apply length_seq. }
  unfold add_uvs_object. cbn [obj_vertices obj_polygons].
  destruct (polygons_of_faces all_faces) as [|poly polys] eqn:Hpolys.
  - eexists. split; [exact Hb|]. split; [reflexivity|].
    rewrite length_replicate. exact Hloops.
  - rewrite <- Hpolys in *.
    destruct (set_vert_group_uvs_total hairzone_uv_dict k (2 * n)
                (nv ++ nvp) (polygons_of_faces all_faces) rand
                (replicate
                   (List.length (corners (polygons_of_faces all_faces)))
                   (0%R, 0%R)) Hk)
      as (data' & Hrun & Hlen); try assumption.
    + rewrite length_app, Hnv, Hnvp. lia.
    + intros v Hv. rewrite length_app, Hnv, Hnvp in Hv.
      destruct (ribbon_vertex_on_face n k hair_coords faces v Hk
                  (shape_length _ _ _ Hc) Hfit Hf ltac:(lia))
        as (q & Hq & Hin).
      destruct (polygons_of_faces_corner all_faces q (Z.of_nat v) Hq Hin)
        as [l Hl].
      rewrite Nat2Z.id in Hl. exists l. exact Hl.
    + exists data'. split; [exact Hb|]. split; [exact Hrun|].
      rewrite Hlen, length_replicate. exact Hloops.
Qed.

(** X18. The object [create_mesh] builds for a group of [n] strands of
    [k >= 2] points (its [4 n k] vertices fitting the [int64] range) goes
    through [add_uvs] without an exception, whatever the random draws, as
    soon as the atlas has both length tables, a zone group in each, a
    non-empty "wide" and "narrow" list in every group and only rectangles
    in them; the UV layer keeps one entry per loop, four per face. *)
Theorem add_uvs_on_created_object (normalize : vec -> vec) (n k : nat)
    (hair_coords nearest_normals : list (list vec))
    (hairzone_uv_dict : atlas) (rand : nat -> nat) :
  2 <= k -> shape n k hair_coords -> shape n k nearest_normals ->
  (Z.of_nat (4 * n * k) <= 2 ^ 63)%Z ->
  atlas_complete hairzone_uv_dict -> atlas_rectangles hairzone_uv_dict ->
  exists all_verts all_faces data',
    create_mesh_group normalize k hair_coords nearest_normals
    = Some (all_verts, all_faces)
    /\ add_uvs_object hairzone_uv_dict k
         {| obj_vertices := all_verts;
            obj_polygons := polygons_of_faces all_faces |} rand
       = Some data'
    /\ List.length data' = 4 * List.length all_faces.
Proof.
  apply created_object_runs_add_uvs.
Qed.

End UVCompletion.

(* ===================================================================== *)
(** ** UV layout: rows of a card, and cards of one point *)
(* ===================================================================== *)

Section UVRows.

Import Numeric QuadStrip UVZones UVLayout.

Local Open Scope R_scope.

Lemma row_fraction (k j : nat) :
  (2 <= k)%nat -> (j <= k - 1)%nat ->
  0 <= INR j / INR (k - 1) <= 1.
Proof.
  intros Hk Hj.
  assert (Hm : 0 < INR (k - 1)) by (apply lt_0_INR; lia).
  assert (H0 : 0 <= INR j) by apply pos_INR.
  assert (H1 : INR j <= INR (k - 1)) by (apply le_INR; exact Hj).
  split.
  - apply Rmult_le_pos; [exact H0|]. left. apply Rinv_0_lt_compat. exact Hm.
  - apply (Rmult_le_reg_r (INR (k - 1))); [exact Hm|].
    unfold Rdiv. rewrite Rmult_assoc, Rinv_l by lra. lra.
Qed.

(** X19. The heights of the rows of a card of [k >= 2] points span its
    zone: row 0 is at [y_min], the last row at [y_max], the rows between
    stay inside and, when the zone has a height, climb strictly from row
    to row. *)
Theorem rows_span_the_zone (y_min y_max : R) (k : nat) :
  (2 <= k)%nat ->
  pair_v y_min y_max k 0 = y_min
  /\ pair_v y_min y_max k (k - 1) = y_max
  /\ (forall j, (j <= k - 1)%nat -> y_min <= y_max ->
        y_min <= pair_v y_min y_max k j <= y_max)
  /\ (forall j j', (j < j')%nat -> y_min < y_max ->
        pair_v y_min y_max k j < pair_v y_min y_max k j').
Proof.
  intros Hk.
  assert (Hm : 0 < INR (k - 1)) by (apply lt_0_INR; lia).
  unfold pair_v. repeat split.
  - simpl INR. unfold Rdiv. rewrite Rmult_0_l. lra.
  - unfold Rdiv. rewrite Rinv_r by lra. lra.
  - destruct (row_fraction k j Hk H) as [H1 H2]. nra.
  - destruct (row_fraction k j Hk H) as [H1 H2]. nra.
  - intros j j' Hj Hy.
    assert (Hlt : INR j / INR (k - 1) < INR j' / INR (k - 1)).
    { unfold Rdiv. apply Rmult_lt_compat_r.
      - apply Rinv_0_lt_compat. exact Hm.
      - apply lt_INR. exact Hj. }
    nra.
Qed.

Lemma set_pair_uvs_one_point (vert_loop_dict : gmap nat (list nat))
    (bottom_left top_right : list R) (acc : option (list uv))
    (e : nat * (nat * nat)) :
  set_pair_uvs vert_loop_dict 1 bottom_left top_right acc e = None.
Proof.
  destruct e as [j [vl vr]]. unfold set_pair_uvs.
  destruct acc as [d|]; [|reflexivity]. cbn [mbind option_bind].
  destruct (vert_loop_dict !! vl); [|reflexivity].
  destruct (vert_loop_dict !! vr); [|reflexivity].
  cbn [mbind option_bind].
  destruct (bottom_left !! 0%nat); [|reflexivity].
  destruct (top_right !! 0%nat); [|reflexivity].
  cbn [mbind option_bind].
  destruct (bottom_left !! 1%nat); [|reflexivity].
  destruct (top_right !! 1%nat); reflexivity.
Qed.

Lemma set_card_one_point (hairzone_uv_dict : atlas) (verts : list vec)
    (vert_loop_dict : gmap nat (list nat)) (rand : nat -> nat)
    (data : list uv) :
  verts <> [] ->
  set_card hairzone_uv_dict 1 verts vert_loop_dict rand (Some data) 0%nat
  = None.
Proof.
  intros Hne. unfold set_card. cbn [mbind option_bind].
  destruct verts as [|a [|b rest]]; [contradiction| |].
  - reflexivity.
  - destruct (card_zone hairzone_uv_dict 1 (a :: b :: rest) rand 0)
      as [z|]; [|reflexivity].
    cbn [mbind option_bind]. unfold set_card_uvs.
    destruct z as [|bottom_left [|top_right [|? ?]]]; try reflexivity.
    cbn [List.length]. unfold vert_pairs.
    cbn [seq drop take Nat.mul Nat.add reverse rev_append zip_with imap
         fold_left].
    apply set_pair_uvs_one_point.
Qed.

Lemma set_vert_group_uvs_one_point (hairzone_uv_dict : atlas)
    (verts : list vec) (vert_loop_dict : gmap nat (list nat))
    (rand : nat -> nat) (data : list uv) :
  verts <> [] ->
  set_vert_group_uvs hairzone_uv_dict 1 verts vert_loop_dict rand data
  = None.
Proof.
  intros Hne. unfold set_vert_group_uvs, range_step.
  cbn [Nat.mul Nat.add Nat.eqb].
  destruct ((List.length verts + 2 - 1) / 2)%nat as [|m] eqn:Hm.
  - exfalso. destruct verts as [|a rest]; [contradiction|].
    simpl List.length in Hm.
    pose proof (Nat.div_str_pos (S (List.length rest) + 2 - 1) 2
                  ltac:(lia)). lia.
  - cbn [seq map fold_left Nat.mul].
    rewrite set_card_one_point by exact Hne.
    apply fold_left_None. reflexivity.
Qed.

Lemma concat_empty_rows {A : Type} (rows : list (list A)) :
  Forall (fun row => row = []) rows -> concat rows = [].
Proof.
  induction 1 as [|row rows Hrow _ IH]; [reflexivity|].
  simpl. rewrite Hrow, IH. reflexivity.
Qed.

(** X20. A group of [n >= 1] strands of a single point gives an object
    with vertices and no face. [add_uvs] passes over it because it has no
    polygon, and leaves its UV layer empty; without that test the loop of
    [_set_vert_group_uvs] would raise on its first card, whatever the
    atlas, the dictionary and the draws. *)
Theorem one_point_cards_are_passed_over (normalize : vec -> vec) (n : nat)
    (hair_coords nearest_normals : list (list vec))
    (hairzone_uv_dict : atlas) (rand : nat -> nat) :
  (1 <= n)%nat -> shape n 1 hair_coords -> shape n 1 nearest_normals ->
  exists all_verts,
    create_mesh_group normalize 1 hair_coords nearest_normals
    = Some (all_verts, [])
    /\ all_verts <> []
    /\ add_uvs_object hairzone_uv_dict 1
         {| obj_vertices := all_verts;
            obj_polygons := polygons_of_faces [] |} rand
       = Some []
    /\ forall vert_loop_dict data,
         set_vert_group_uvs hairzone_uv_dict 1 all_verts vert_loop_dict
                            rand data = None.
Proof.
  intros Hn1 Hc Hn.
  destruct (create_mesh_group_result normalize n 1 _ _ ltac:(lia) Hc Hn)
    as (nv & nvp & faces & Hb & Hnv & Hnvp & _ & Hshape & _).
  assert (Hfaces : concat (faces ++ map (map (quad_offset
                     (Z.of_nat (2 * n * 1)))) faces) = []).
  { apply concat_empty_rows. apply Forall_app. 
    assert (Hrows : Forall (fun row : list quad => row = []) faces).
    { destruct Hshape as [_ Hr]. eapply List.Forall_impl; [|exact Hr].
      intros row Hrow. apply nil_length_inv. exact Hrow. }
    split; [exact Hrows|].
    apply Forall_fmap. eapply List.Forall_impl; [|exact Hrows].
    intros row ->. reflexivity. }
  rewrite Hfaces in Hb.
  assert (Hverts : nv ++ nvp <> []).
  { intros H. apply (f_equal (@List.length vec)) in H.
    rewrite length_app, Hnv, Hnvp in H. simpl in H. lia. }
  exists (nv ++ nvp). split; [exact Hb|]. split; [exact Hverts|]. split.
  - reflexivity.
  - intros vert_loop_dict data.
    apply set_vert_group_uvs_one_point. exact Hverts.
Qed.

End UVRows.

(* ===================================================================== *)
(** ** UV layout: every loop of a created object *)
(* ===================================================================== *)

Section UVCoverage.

Import Numeric QuadStrip UVZones Completion UVLayout.

Lemma ribbon_faces_in_bounds (n k : nat) (faces : list (list quad))
    (q : quad) :
  (Z.of_nat (4 * n * k) <= 2 ^ 63)%Z ->
  (forall q, In q (concat faces) ->
     exists i j, (0 <= i < Z.of_nat n)%Z /\ (0 <= j < Z.of_nat k - 1)%Z
                 /\ q = face_at (Z.of_nat k) i j) ->
  In q (concat (faces ++ map (map (quad_offset (Z.of_nat (2 * n * k))))
                             faces)) ->
  Forall (fun idx => (0 <= idx < Z.of_nat (4 * n * k))%Z) (quad_indices q).
Proof.
  intros Hfit Hin Hq.
  assert (Hflat : forall q, In q (concat faces) ->
            Forall (fun idx => (0 <= idx < Z.of_nat (2 * n * k))%Z)
                   (quad_indices q)).
  { intros q0 Hq0. destruct (Hin q0 Hq0) as (i & j & Hi & Hj & ->).
    replace (Z.of_nat (2 * n * k)) with (2 * Z.of_nat n * Z.of_nat k)%Z
      by lia.
    apply face_at_bounds; assumption. }
  rewrite concat_app in Hq. apply in_app_or in Hq. destruct Hq as [Hq|Hq].
  - eapply List.Forall_impl; [|apply Hflat; exact Hq].
    simpl. intros idx Hidx. lia.
  - apply in_concat in Hq. destruct Hq as [row [Hrow Hq]].
    apply in_map_iff in Hrow. destruct Hrow as [row' [<- Hrow']].
    apply in_map_iff in Hq. destruct Hq as [q' [<- Hq']].
    assert (Hq'' : In q' (concat faces)) by (apply in_concat; eauto).
    eapply List.Forall_impl;
      [|apply (quad_offset_bounds 0 (Z.of_nat (2 * n * k))
                 (Z.of_nat (2 * n * k)) q'); [lia|lia|lia|apply Hflat, Hq'']].
    simpl. intros idx Hidx. lia.
Qed.

Lemma polygons_of_faces_corner_inv (faces : list quad) (v l : nat) :
  (v, l) ∈ corners (polygons_of_faces faces) ->
  exists q z, In q faces /\ In z (quad_indices q) /\ v = Z.to_nat z.
Proof.
  intros Hin. unfold corners in Hin. apply elem_of_concat_inv in Hin.
  destruct Hin as (row & Hrow & Hin).
  apply list_elem_of_fmap in Hrow. destruct Hrow as (poly & -> & Hpoly).
  unfold polygons_of_faces in Hpoly.
  apply elem_of_lookup_imap in Hpoly. destruct Hpoly as (p & q & -> & Hq).
  cbn [vertices loop_indices] in Hin.
  apply elem_of_zip_l in Hin. cbn [fst] in Hin.
  apply list_elem_of_fmap in Hin. destruct Hin as (z & -> & Hz).
  exists q, z. split; [|split; [|reflexivity]].
  - apply list_elem_of_In. eapply list_elem_of_lookup_2. exact Hq.
  - apply list_elem_of_In. exact Hz.
Qed.

Lemma loop_has_corner (faces : list quad) (l : nat) :
  l < 4 * length faces ->
  exists v, (v, l) ∈ corners (polygons_of_faces faces).
Proof.
  intros Hl.
  assert (Hin : l ∈ (corners (polygons_of_faces faces)).*2).
  { rewrite polygons_of_faces_loops. apply elem_of_seq. lia. }
  apply list_elem_of_fmap in Hin. destruct Hin as ([v l'] & -> & Hin).
  exists v. exact Hin.
Qed.

(** X21. After [add_uvs] on the object [create_mesh] builds for a group of
    [n] strands of [k >= 2] points, every loop of the object has been
    written.  The UV layer has four entries per face, each entry is the
    loop of a corner, and the loop of a corner on vertex [v] carries the
    UV of the place of [v] in its own card, the card [v / 2 k]: with
    [r = v mod 2 k], a vertex of the first half ([r < k]) is in row [r]
    at the right edge [top_right[0]] of the zone chosen for that card, a
    vertex of the second half is in row [2 k - 1 - r] at its left edge
    [bottom_left[0]]. *)
Theorem every_loop_lands_in_a_zone (normalize : vec -> vec) (n k : nat)
    (hair_coords nearest_normals : list (list vec))
    (hairzone_uv_dict : atlas) (rand : nat -> nat)
    (all_verts : list vec) (all_faces : list quad) (data' : list uv) :
  2 <= k -> shape n k hair_coords -> shape n k nearest_normals ->
  (Z.of_nat (4 * n * k) <= 2 ^ 63)%Z ->
  create_mesh_group normalize k hair_coords nearest_normals
  = Some (all_verts, all_faces) ->
  add_uvs_object hairzone_uv_dict k
    {| obj_vertices := all_verts;
       obj_polygons := polygons_of_faces all_faces |} rand
  = Some data' ->
  List.length data' = 4 * List.length all_faces
  /\ (forall l, l < List.length data' ->
        exists v, (v, l) ∈ corners (polygons_of_faces all_faces))
  /\ forall v l,
       (v, l) ∈ corners (polygons_of_faces all_faces) ->
       v < List.length all_verts
       /\ exists bottom_left top_right x_min y_min x_max y_max,
            card_zone hairzone_uv_dict k all_verts rand
                      (v / (k * 2) * (k * 2))
            = Some [bottom_left; top_right]
            /\ bottom_left !! 0 = Some x_min /\ bottom_left !! 1 = Some y_min
            /\ top_right !! 0 = Some x_max /\ top_right !! 1 = Some y_max
            /\ data' !! l
               = Some (if v mod (k * 2) <? k then x_max else x_min,
                       pair_v y_min y_max k
                              (if v mod (k * 2) <? k then v mod (k * 2)
                               else k * 2 - 1 - v mod (k * 2))).
Proof.
  intros Hk Hc Hn Hfit Hb Hrun.
  destruct (create_mesh_group_result normalize n k _ _ ltac:(lia) Hc Hn)
    as (nv & nvp & faces & Hb' & Hnv & Hnvp & Hf & _ & Hin).
  rewrite Hb' in Hb.
  assert (Hvs : nv ++ nvp = all_verts) by congruence.
  assert (Hfs : concat (faces ++ map (map (quad_offset
                          (Z.of_nat (2 * n * k)))) faces) = all_faces)
    by congruence.
  clear Hb Hb'. subst all_verts.
  assert (Hloops : List.length (corners (polygons_of_faces all_faces))
                   = 4 * List.length all_faces).
  { rewrite <- (length_fmap snd), polygons_of_faces_loops.
    apply length_seq. }
  assert (Hverts : List.length (nv ++ nvp) = 2 * n * (k * 2))
    by (rewrite length_app, Hnv, Hnvp; lia).
  unfold add_uvs_object in Hrun. cbn [obj_vertices obj_polygons] in Hrun.
  assert (Hbounds : forall v l,
            (v, l) ∈ corners (polygons_of_faces all_faces) ->
            v < 2 * n * (k * 2)).
  { intros v l Hv.
    destruct (polygons_of_faces_corner_inv all_faces v l Hv)
      as (q & z & Hq & Hz & ->).
    rewrite <- Hfs in Hq.
    pose proof (ribbon_faces_in_bounds n k faces q Hfit Hin Hq) as Hq'.
    rewrite List.Forall_forall in Hq'. specialize (Hq' z Hz). lia. }
  destruct (polygons_of_faces all_faces) as [|poly polys] eqn:Hpolys.
  { injection Hrun as <-. split; [exact Hloops|]. split.
    - intros l Hl. simpl in Hl. lia.
    - intros v l Hv. inversion Hv. }
  rewrite <- Hpolys in *. clear Hpolys poly polys.
  destruct (set_vert_group_uvs_layout hairzone_uv_dict k (2 * n)
              (nv ++ nvp) (polygons_of_faces all_faces) rand
              (replicate
                 (List.length (corners (polygons_of_faces all_faces)))
                 (0%R, 0%R))
              data' Hk Hverts) as (Hlen & Hpaint & _); [| |exact Hrun|].
  { rewrite polygons_of_faces_loops. apply NoDup_seq. }
  { rewrite polygons_of_faces_loops, length_replicate, Hloops.
    apply Forall_forall. intros x Hx. apply elem_of_seq in Hx. lia. }
  rewrite length_replicate, Hloops in Hlen.
  split; [exact Hlen|]. split.
  { intros l Hl. rewrite Hlen in Hl. exact (loop_has_corner all_faces l Hl). }
  intros v l Hv. pose proof (Hbounds v l Hv) as Hvlt.
  split; [rewrite Hverts; exact Hvlt|].
  pose proof (Nat.div_mod_eq v (k * 2)) as Hdm.
  pose proof (Nat.mod_upper_bound v (k * 2) ltac:(lia)) as Hr.
  set (c := v / (k * 2)) in *. set (r := v mod (k * 2)) in *.
  assert (Hclt : c < 2 * n).
  { apply Nat.Div0.div_lt_upper_bound. lia. }
  destruct (Hpaint c Hclt) as (bottom_left & top_right & Hzone & Hrows).
  apply loops_of_corner in Hv.
  destruct (Nat.ltb_spec r k) as [Hleft|Hright].
  - destruct (Hrows r Hleft)
      as (x_min & y_min & x_max & y_max & H1 & H2 & H3 & H4 & Hl' & _).
    cbn [fst snd] in Hl'.
    exists bottom_left, top_right, x_min, y_min, x_max, y_max.
    repeat (split; [assumption|]). apply Hl'.
    replace (c * (k * 2) + r) with v by lia. exact Hv.
  - destruct (Hrows (k * 2 - 1 - r) ltac:(lia))
      as (x_min & y_min & x_max & y_max & H1 & H2 & H3 & H4 & _ & Hr').
    cbn [fst snd] in Hr'.
    exists bottom_left, top_right, x_min, y_min, x_max, y_max.
    repeat (split; [assumption|]). apply Hr'.
    replace (c * (k * 2) + (k * 2 - 1 - (k * 2 - 1 - r))) with v by lia.
    exact Hv.
Qed.

End UVCoverage.

(* ===================================================================== *)
(** ** UV zone mapper: the zone of each card *)
(* ===================================================================== *)

Section UVZoneChoice.

Import Numeric Strands UVZones Completion UVLayout.

(** When a loop of fallible steps returns, each of its steps has
    returned. *)
Lemma fold_left_Some_steps {Item : Type}
    (stepo : option (list uv) -> Item -> option (list uv))
    (xs : list Item) :
  (forall x, stepo None x = None) ->
  forall d d',
    fold_left stepo xs (Some d) = Some d' ->
    forall x, x ∈ xs -> exists d0 d1, stepo (Some d0) x = Some d1.
Proof.
  intros HNone. induction xs as [|x0 xs IH]; intros d d' Hrun x Hx.
  - inversion Hx.
  - simpl in Hrun. destruct (stepo (Some d) x0) as [d1|] eqn:H1.
    + apply elem_of_cons in Hx as [->|Hx]; [eauto|].
      exact (IH d1 d' Hrun x Hx).
    + rewrite fold_left_None in Hrun by exact HNone. discriminate.
Qed.

Lemma range_step_lt (n step i : nat) :
  1 <= step -> i ∈ range_step n step -> i < n.
Proof.
  intros Hstep Hi. unfold range_step in Hi.
  apply list_elem_of_fmap in Hi. destruct Hi as (c & -> & Hc).
  apply elem_of_seq in Hc.
  pose proof (Nat.Div0.mul_div_le (n + step - 1) step) as Hle. nia.
Qed.

(** What the loop measures on the card that starts at vertex [i], read in
    the vertex array itself. *)
Lemma measure_at (vert_len : nat) (verts : list vec) (i : nat)
    (len wid : R) :
  1 <= vert_len -> i < List.length verts ->
  measure vert_len (hair_verts_at verts i (vert_len * 2)) = Some (len, wid) ->
  exists first mid final,
    verts !! i = Some first
    /\ verts !! (i + vert_len) = Some mid
    /\ verts !! (Nat.min (i + vert_len * 2) (List.length verts) - 1)
       = Some final
    /\ len = euclidean_distance first mid
    /\ wid = euclidean_distance first final.
Proof.
  intros Hk Hi. unfold measure, hair_verts_at.
  set (chunk := take (vert_len * 2) (drop i verts)).
  assert (Hlen : List.length chunk
                 = Nat.min (vert_len * 2) (List.length verts - i))
    by (unfold chunk; rewrite length_take, length_drop; reflexivity).
  assert (Hat : forall j, j < vert_len * 2 -> chunk !! j = verts !! (i + j)).
  { intros j Hj. unfold chunk.
    rewrite lookup_take_lt by exact Hj. apply lookup_drop. }
  rewrite (Hat 0) by lia. rewrite (Hat vert_len) by lia.
  rewrite Nat.add_0_r.
  destruct (verts !! i) as [first|]; [|discriminate].
  cbn [mbind option_bind].
  destruct (verts !! (i + vert_len)) as [mid|]; [|discriminate].
  cbn [mbind option_bind].
  destruct (last chunk) as [final|] eqn:Hlast; [|discriminate].
  cbn [mbind option_bind]. intros [= <- <-].
  exists first, mid, final. split; [reflexivity|]. split; [reflexivity|].
  split; [|split; apply norm_vsub_euclidean].
  rewrite last_lookup in Hlast. rewrite Hlen in Hlast.
  rewrite Hat in Hlast by lia. rewrite <- Hlast. f_equal. lia.
Qed.

(** One card: the zone chosen for it comes from the bucket that matches
    its measured length and width. *)
Lemma card_zone_matching (hairzone_uv_dict : atlas) (vert_len : nat)
    (verts : list vec) (rand : nat -> nat) (i : nat) (z : zone) :
  1 <= vert_len -> i < List.length verts ->
  card_zone hairzone_uv_dict vert_len verts rand i = Some z ->
  exists first mid final,
    verts !! i = Some first
    /\ verts !! (i + vert_len) = Some mid
    /\ verts !! (Nat.min (i + vert_len * 2) (List.length verts) - 1)
       = Some final
    /\ from_matching_bucket hairzone_uv_dict
         (euclidean_distance first mid) (euclidean_distance first final) z.
Proof.
  intros Hk Hi Hz. unfold card_zone in Hz.
  destruct (measure vert_len (hair_verts_at verts i (vert_len * 2)))
    as [[len wid]|] eqn:Hm; [|discriminate].
  cbn [mbind option_bind fst snd] in Hz.
  destruct (measure_at vert_len verts i len wid Hk Hi Hm)
    as (first & mid & final & H1 & H2 & H3 & -> & ->).
  exists first, mid, final. repeat (split; [assumption|]).
  eapply choose_zone_matching. exact Hz.
Qed.

Lemma range_step_elem_of (n step c : nat) :
  1 <= step -> c * step < n -> c * step ∈ range_step n step.
Proof.
  intros Hstep Hc. unfold range_step.
  apply list_elem_of_fmap. exists c. split; [reflexivity|].
  apply elem_of_seq. split; [lia|]. simpl.
  apply Nat.lt_le_trans with (m := S c); [lia|].
  apply Nat.div_le_lower_bound; [lia|]. nia.
Qed.

(** C7. For every atlas, every object and every outcome [rand] of the
    random source: when [_set_vert_group_uvs] returns, a zone has been
    chosen for every card (card [c] starts at vertex [2 c vert_len]), it
    is a rectangle of two corners, and it comes from the bucket of the
    atlas that matches the length and width of that card, the distances
    from the first vertex of the card to the vertex [vert_len] places
    after it and to the last vertex of the card: the "long" table iff the
    length exceeds 0.05 (else "short"), and in the zone group drawn from it
    the "wide" list iff the width exceeds 0.02 for a long card or 0.01 for
    a short one (else "narrow"). *)
Theorem uv_zone_from_matching_bucket (hairzone_uv_dict : atlas)
    (vert_len : nat) (verts : list vec)
    (vert_loop_dict : gmap nat (list nat)) (rand : nat -> nat)
    (data data' : list uv) :
  set_vert_group_uvs hairzone_uv_dict vert_len verts vert_loop_dict rand data
  = Some data' ->
  forall c, c * (vert_len * 2) < List.length verts ->
    exists first mid final z bottom_left top_right,
      verts !! (c * (vert_len * 2)) = Some first
      /\ verts !! (c * (vert_len * 2) + vert_len) = Some mid
      /\ verts !! (Nat.min (c * (vert_len * 2) + vert_len * 2)
                           (List.length verts) - 1)
         = Some final
      /\ card_zone hairzone_uv_dict vert_len verts rand
                   (c * (vert_len * 2)) = Some z
      /\ z = [bottom_left; top_right]
      /\ from_matching_bucket hairzone_uv_dict
           (euclidean_distance first mid) (euclidean_distance first final) z.
Proof.
  intros Hrun c Hlt. unfold set_vert_group_uvs in Hrun.
  destruct (Nat.eqb_spec (vert_len * 2) 0) as [H0|H0]; [discriminate|].
  assert (Hk : 1 <= vert_len) by lia.
  pose proof (range_step_elem_of (List.length verts) (vert_len * 2) c
                ltac:(lia) Hlt) as Hi.
  destruct (fold_left_Some_steps
              (set_card hairzone_uv_dict vert_len verts vert_loop_dict rand)
              _ ltac:(reflexivity) data data' Hrun _ Hi)
    as (d0 & d1 & Hstep).
  unfold set_card in Hstep. cbn [mbind option_bind] in Hstep.
  destruct (card_zone hairzone_uv_dict vert_len verts rand
                      (c * (vert_len * 2))) as [z|] eqn:Hz;
    [|discriminate].
  cbn [mbind option_bind] in Hstep. unfold set_card_uvs in Hstep.
  destruct z as [|bottom_left [|top_right [|? ?]]]; try discriminate.
  destruct (card_zone_matching _ _ _ _ _ _ Hk Hlt Hz)
    as (first & mid & final & H1 & H2 & H3 & Hb).
  exists first, mid, final, [bottom_left; top_right], bottom_left, top_right.
  repeat (split; [first [assumption|reflexivity]|]). exact Hb.
Qed.

End UVZoneChoice.

(* ===================================================================== *)
(** ** Where the vertices of a card are *)
(* ===================================================================== *)

Section VertexLayout.

Import Numeric QuadStrip Ribbon.

Lemma concat_lookup_shape {A : Type} (n m : nat) (rows : list (list A))
    (i j : nat) (r : list A) :
  shape n m rows -> rows !! i = Some r -> j < m ->
  concat rows !! (i * m + j) = r !! j.
Proof.
  intros [_ Hr]. revert i.
  induction Hr as [|r0 rows Hr0 _ IH]; intros i Hi Hj; [discriminate|].
  destruct i as [|i]; simpl in *.
  - injection Hi as ->. apply lookup_app_l. lia.
  - rewrite lookup_app_r by lia.
    replace (m + i * m + j - length r0) with (i * m + j) by lia.
    apply IH; assumption.
Qed.

Lemma shape_row {A : Type} (n m : nat) (rows : list (list A)) (i : nat)
    (r : list A) :
  shape n m rows -> rows !! i = Some r -> length r = m.
Proof.
  intros [_ Hr] Hi. rewrite Forall_lookup in Hr. exact (Hr i r Hi).
Qed.

Lemma rev_lookup {A : Type} (l : list A) (j : nat) :
  j < length l -> rev l !! j = l !! (length l - 1 - j).
Proof.
  intros Hj. rewrite rev_reverse, reverse_lookup by exact Hj.
  f_equal. lia.
Qed.

(** The rows of the two vertex arrays before they are flattened. *)
Lemma halves_lookup (f g : vec -> vec -> vec) (k n : nat)
    (a b off : list (list vec)) (i : nat)
    (ra rb ro : list vec) :
  shape n k a -> shape n k b -> shape n k off ->
  a !! i = Some ra -> b !! i = Some rb -> off !! i = Some ro ->
  forall j, j < k ->
    concat (zip_with (@app vec) (map2_2d f a off) (map2_2d g b off))
      !! (i * (2 * k) + j)
    = (x ← ra !! j; o ← ro !! j; Some (f x o))
    /\ concat (zip_with (@app vec) (map2_2d f a off) (map2_2d g b off))
         !! (i * (2 * k) + k + j)
       = (x ← rb !! j; o ← ro !! j; Some (g x o)).
Proof.
  intros Ha Hb Hoff Hra Hrb Hro j Hj.
  assert (Hshape : shape n (k + k)
            (zip_with (@app vec) (map2_2d f a off) (map2_2d g b off))).
  { apply (shape_zip_with _ n k k (k + k)).
    - intros r1 r2 H1 H2. rewrite length_app. lia.
    - apply shape_map2_2d; assumption.
    - apply shape_map2_2d; assumption. }
  assert (Hrow : zip_with (@app vec) (map2_2d f a off) (map2_2d g b off) !! i
                 = Some (zip_with f ra ro ++ zip_with g rb ro)).
  { unfold map2_2d. rewrite !lookup_zip_with, Hra, Hrb, Hro. reflexivity. }
  pose proof (shape_row _ _ _ _ _ Ha Hra) as Hla.
  pose proof (shape_row _ _ _ _ _ Hb Hrb) as Hlb.
  pose proof (shape_row _ _ _ _ _ Hoff Hro) as Hlo.
  assert (Hlen : length (zip_with f ra ro) = k)
    by (rewrite length_zip_with; lia).
  split.
  - replace (i * (2 * k) + j) with (i * (k + k) + j) by lia.
    rewrite (concat_lookup_shape n (k + k) _ i j _ Hshape Hrow) by lia.
    rewrite lookup_app_l by lia. apply lookup_zip_with.
  - replace (i * (2 * k) + k + j) with (i * (k + k) + (k + j)) by lia.
    rewrite (concat_lookup_shape n (k + k) _ i (k + j) _ Hshape Hrow) by lia.
    rewrite lookup_app_r by lia.
    replace (k + j - length (zip_with f ra ro)) with j by lia.
    apply lookup_zip_with.
Qed.

Lemma broadcast_lookup {B : Type} (f : R -> B -> R -> vec)
    (seg : list R) (a : list (list B)) (lcs : list R) (i j : nat)
    (row : list B) (lc s : R) (x : B) :
  a !! i = Some row -> lcs !! i = Some lc ->
  seg !! j = Some s -> row !! j = Some x ->
  exists ro,
    zip_with (fun row lc => zip_with (fun s p => f s p lc) seg row) a lcs !! i
    = Some ro
    /\ ro !! j = Some (f s x lc).
Proof.
  intros Hrow Hlc Hs Hx. eexists. split.
  - rewrite lookup_zip_with, Hrow, Hlc. reflexivity.
  - rewrite lookup_zip_with, Hs, Hx. reflexivity.
Qed.

(** The vertex arrays, entry by entry. *)
Lemma new_verts_layout (k : nat)
    (hair_coords nearest_normals perpendicular : list (list vec))
    (new_verts new_verts_parallel : list vec) (i j : nat)
    (row nrow prow : list vec) (co co_mirror normal p : vec) (s : R) :
  compute_new_ver_coordinaes k hair_coords nearest_normals perpendicular
  = Some (new_verts, new_verts_parallel) ->
  hair_coords !! i = Some row -> nearest_normals !! i = Some nrow ->
  perpendicular !! i = Some prow ->
  row !! j = Some co -> row !! (k - 1 - j) = Some co_mirror ->
  nrow !! j = Some normal -> prow !! j = Some p ->
  calculate_segment_correction k !! j = Some s ->
  let lc := row_length_correction row in
  new_verts !! (i * (2 * k) + j)
  = Some (vsub co_mirror (perpendicular_offset_at s p lc))
  /\ new_verts !! (i * (2 * k) + k + j)
     = Some (vadd co (perpendicular_offset_at s p lc))
  /\ new_verts_parallel !! (i * (2 * k) + j)
     = Some (vadd co (head_normal_offset_at s normal lc))
  /\ new_verts_parallel !! (i * (2 * k) + k + j)
     = Some (vsub co (head_normal_offset_at s normal lc)).
Proof.
  intros H Hrow Hnrow Hprow Hco Hcm Hnormal Hp Hs lc.
  unfold compute_new_ver_coordinaes in H.
  destruct (negb _) eqn:Hchk; [discriminate|].
  apply negb_false_iff in Hchk. rewrite !andb_true_iff in Hchk.
  destruct Hchk as ((((Hc & Hn) & Hpp) & Hseg) & Hk).
  apply shapeb_spec in Hc, Hn, Hpp. apply Nat.eqb_eq in Hseg.
  set (n := length hair_coords) in *.
  injection H as <- <-.
  pose proof (shape_row _ _ _ _ _ Hc Hrow) as Hlrow.
  assert (Hj : j < k) by (apply lookup_lt_Some in Hco; lia).
  set (lcs := map length_correction_of _).
  assert (Hlcs : length lcs = n) by (unfold lcs; rewrite !length_map; reflexivity).
  assert (Hlc : lcs !! i = Some lc).
  { unfold lcs. rewrite !list_lookup_fmap, Hrow. reflexivity. }
  set (poff := zip_with _ perpendicular lcs).
  set (hoff := zip_with _ nearest_normals lcs).
  assert (Hpoff : shape n k poff)
    by (apply (shape_broadcast (fun s p lc => vscale (scalev s p) lc));
        assumption).
  assert (Hhoff : shape n k hoff)
    by (apply (shape_broadcast
                 (fun s nn lc => vscale (vscale (scalev s (vabs nn)) lc) 0.3));
        assumption).
  assert (Hrev : shape n k (map (@rev vec) hair_coords)).
  { apply (shape_map _ n k k); [|exact Hc].
    intros r Hr. rewrite length_rev. exact Hr. }
  assert (Hrevrow : map (@rev vec) hair_coords !! i = Some (rev row))
    by (rewrite list_lookup_fmap, Hrow; reflexivity).
  assert (Hrevj : rev row !! j = Some co_mirror)
    by (rewrite rev_lookup by lia; rewrite Hlrow; exact Hcm).
  destruct (broadcast_lookup (fun s p lc => vscale (scalev s p) lc)
              (calculate_segment_correction k) perpendicular lcs i j
              prow lc s p Hprow Hlc Hs Hp) as (ro & Hro & Hroj).
  destruct (broadcast_lookup
              (fun s nn lc => vscale (vscale (scalev s (vabs nn)) lc) 0.3)
              (calculate_segment_correction k) nearest_normals lcs i j
              nrow lc s normal Hnrow Hlc Hs Hnormal) as (rh & Hrh & Hrhj).
  fold poff in Hro. fold hoff in Hrh.
  destruct (halves_lookup vsub vadd k n (map (@rev vec) hair_coords)
              hair_coords poff i (rev row) row ro Hrev Hc Hpoff Hrevrow
              Hrow Hro j Hj) as [H1 H2].
  destruct (halves_lookup vadd vsub k n hair_coords hair_coords hoff i
              row row rh Hc Hc Hhoff Hrow Hrow Hrh j Hj) as [H3 H4].
  rewrite H1, H2, H3, H4, Hrevj, Hco, Hroj, Hrhj.
  repeat split; reflexivity.
Qed.

(** X22. Where [_compute_new_ver_coordinaes] puts the vertices of strand
    [i], [2 k] to a strand in each array. In the flat ribbon, entry [j] is
    the point [k - 1 - j] of the strand minus the perpendicular offset
    computed for point [j], and entry [k + j] is point [j] plus that same
    offset: the first half runs from tip to root, with offsets taken from
    root to tip. In the other ribbon, entries [j] and [k + j] are point
    [j] plus and minus the offset along the scalp normal. *)
Theorem ribbon_vertex_layout (k : nat)
    (hair_coords nearest_normals perpendicular : list (list vec))
    (new_verts new_verts_parallel : list vec) (i j : nat)
    (row nrow prow : list vec) (co co_mirror normal p : vec) (s : R) :
  compute_new_ver_coordinaes k hair_coords nearest_normals perpendicular
  = Some (new_verts, new_verts_parallel) ->
  hair_coords !! i = Some row -> nearest_normals !! i = Some nrow ->
  perpendicular !! i = Some prow ->
  row !! j = Some co -> row !! (k - 1 - j) = Some co_mirror ->
  nrow !! j = Some normal -> prow !! j = Some p ->
  calculate_segment_correction k !! j = Some s ->
  let lc := row_length_correction row in
  new_verts !! (i * (2 * k) + j)
  = Some (vsub co_mirror (perpendicular_offset_at s p lc))
  /\ new_verts !! (i * (2 * k) + k + j)
     = Some (vadd co (perpendicular_offset_at s p lc))
  /\ new_verts_parallel !! (i * (2 * k) + j)
     = Some (vadd co (head_normal_offset_at s normal lc))
  /\ new_verts_parallel !! (i * (2 * k) + k + j)
     = Some (vsub co (head_normal_offset_at s normal lc)).
Proof.
  apply new_verts_layout.
Qed.

(** The layout with the points and offsets named by their position. *)
Lemma new_verts_layout_at (k : nat)
    (hair_coords nearest_normals perpendicular : list (list vec))
    (new_verts new_verts_parallel : list vec) (i : nat)
    (row nrow prow : list vec) :
  compute_new_ver_coordinaes k hair_coords nearest_normals perpendicular
  = Some (new_verts, new_verts_parallel) ->
  hair_coords !! i = Some row -> nearest_normals !! i = Some nrow ->
  perpendicular !! i = Some prow ->
  forall m, m < k ->
    new_verts !! (i * (2 * k) + m)
    = Some (vsub (strand_point row (k - 1 - m))
                 (perpendicular_offset_of k row prow m))
    /\ new_verts !! (i * (2 * k) + k + m)
       = Some (vadd (strand_point row m)
                    (perpendicular_offset_of k row prow m))
    /\ new_verts_parallel !! (i * (2 * k) + m)
       = Some (vadd (strand_point row m)
                    (head_normal_offset_of k row nrow m))
    /\ new_verts_parallel !! (i * (2 * k) + k + m)
       = Some (vsub (strand_point row m)
                    (head_normal_offset_of k row nrow m)).
Proof.
  intros H Hrow Hnrow Hprow m Hm.
  pose proof H as Hshapes. unfold compute_new_ver_coordinaes in Hshapes.
  destruct (negb _) eqn:Hchk; [discriminate|]. clear Hshapes.
  apply negb_false_iff in Hchk. rewrite !andb_true_iff in Hchk.
  destruct Hchk as ((((Hc & Hn) & Hpp) & Hseg) & Hk).
  apply shapeb_spec in Hc, Hn, Hpp. apply Nat.eqb_eq in Hseg.
  pose proof (shape_row _ _ _ _ _ Hc Hrow) as Hlrow.
  pose proof (shape_row _ _ _ _ _ Hn Hnrow) as Hlnrow.
  pose proof (shape_row _ _ _ _ _ Hpp Hprow) as Hlprow.
  destruct (lookup_lt_is_Some_2 row m ltac:(lia)) as [co Hco].
  destruct (lookup_lt_is_Some_2 row (k - 1 - m) ltac:(lia)) as [cm Hcm].
  destruct (lookup_lt_is_Some_2 nrow m ltac:(lia)) as [normal Hnormal].
  destruct (lookup_lt_is_Some_2 prow m ltac:(lia)) as [p Hp].
  destruct (lookup_lt_is_Some_2 (calculate_segment_correction k) m
              ltac:(lia)) as [s Hs].
  unfold strand_point, perpendicular_offset_of, head_normal_offset_of.
  rewrite Hco, Hcm, Hnormal, Hp, Hs. cbn [default].
  exact (new_verts_layout k _ _ _ _ _ i m row nrow prow co cm normal p s
           H Hrow Hnrow Hprow Hco Hcm Hnormal Hp Hs).
Qed.

(** X23. The corners of the face [(a, b, c, d)] over segment [j] of strand
    [i], read in both vertex arrays. In the flat ribbon [a] and [d] stand
    at point [k - 1 - j] of the strand and [b] and [c] at point
    [k - 2 - j], on the two sides of it: the face lies over one segment.
    In the other ribbon the same indices give [a] and [b] at points [j]
    and [j + 1] but [c] and [d] at points [k - 2 - j] and [k - 1 - j]:
    the face joins a segment to its mirror image along the strand. *)
Theorem face_corners (k : nat)
    (hair_coords nearest_normals perpendicular : list (list vec))
    (new_verts new_verts_parallel : list vec) (i j : nat)
    (row nrow prow : list vec) (a b c d : Z) :
  compute_new_ver_coordinaes k hair_coords nearest_normals perpendicular
  = Some (new_verts, new_verts_parallel) ->
  hair_coords !! i = Some row -> nearest_normals !! i = Some nrow ->
  perpendicular !! i = Some prow ->
  j + 1 < k ->
  face_at (Z.of_nat k) (Z.of_nat i) (Z.of_nat j) = (a, b, c, d) ->
  (corner_of new_verts a
   = Some (vsub (strand_point row (k - 1 - j))
                (perpendicular_offset_of k row prow j))
   /\ corner_of new_verts b
      = Some (vsub (strand_point row (k - 2 - j))
                   (perpendicular_offset_of k row prow (j + 1)))
   /\ corner_of new_verts c
      = Some (vadd (strand_point row (k - 2 - j))
                   (perpendicular_offset_of k row prow (k - 2 - j)))
   /\ corner_of new_verts d
      = Some (vadd (strand_point row (k - 1 - j))
                   (perpendicular_offset_of k row prow (k - 1 - j))))
  /\ (corner_of new_verts_parallel a
      = Some (vadd (strand_point row j)
                   (head_normal_offset_of k row nrow j))
      /\ corner_of new_verts_parallel b
         = Some (vadd (strand_point row (j + 1))
                      (head_normal_offset_of k row nrow (j + 1)))
      /\ corner_of new_verts_parallel c
         = Some (vsub (strand_point row (k - 2 - j))
                      (head_normal_offset_of k row nrow (k - 2 - j)))
      /\ corner_of new_verts_parallel d
         = Some (vsub (strand_point row (k - 1 - j))
                      (head_normal_offset_of k row nrow (k - 1 - j)))).
Proof.
  intros H Hrow Hnrow Hprow Hj Hface.
  unfold face_at in Hface. injection Hface as <- <- <- <-.
  pose proof (new_verts_layout_at k _ _ _ _ _ i row nrow prow
                H Hrow Hnrow Hprow) as L.
  destruct (L j ltac:(lia)) as (A1 & _ & A3 & _).
  destruct (L (j + 1) ltac:(lia)) as (B1 & _ & B3 & _).
  destruct (L (k - 2 - j) ltac:(lia)) as (_ & C2 & _ & C4).
  destruct (L (k - 1 - j) ltac:(lia)) as (_ & D2 & _ & D4).
  unfold corner_of.
  replace (Z.to_nat (Z.of_nat i * Z.of_nat k * 2 + Z.of_nat j))
    with (i * (2 * k) + j) by lia.
  replace (Z.to_nat (Z.of_nat i * Z.of_nat k * 2 + Z.of_nat j + 1))
    with (i * (2 * k) + (j + 1)) by lia.
  replace (Z.to_nat (Z.of_nat i * Z.of_nat k * 2 + Z.of_nat k * 2
                     - Z.of_nat j - 2))
    with (i * (2 * k) + k + (k - 2 - j)) by lia.
  replace (Z.to_nat (Z.of_nat i * Z.of_nat k * 2 + Z.of_nat k * 2
                     - Z.of_nat j - 1))
    with (i * (2 * k) + k + (k - 1 - j)) by lia.
  replace (k - 1 - (j + 1)) with (k - 2 - j) in B1 by lia.
  repeat split; assumption.
Qed.

End VertexLayout.

(* ===================================================================== *)
(** ** The sample inputs *)
(* ===================================================================== *)

Section MoreSampleFacts.

Import Numeric QuadStrip Strands Classifier CreateMesh UVZones Completion
       UVLayout Samples MoreSamples.

Lemma keep_ends_mask_ok : rdp_mask_ok keep_ends.
Proof.
  intros points epsilon. unfold keep_ends. split.
  - apply length_imap.
  - intros Hne. destruct points as [|x points]; [contradiction|].
    apply list_elem_of_lookup. exists 0. reflexivity.
Qed.

Lemma sample_hairs_in_range :
  Forall (hair_in_range sample_coords sample_vertex_normals) sample_hairs.*1.
Proof.
  repeat constructor; try discriminate; simpl; lia.
Qed.

Lemma sample_all_hairs :
  create_mesh_all_hairs high sample_hairs = Some [[0; 1; 2]; [3; 4]].
Proof.
  assert (H1 : (is_short 0.02, is_medium 0.02, is_long 0.02)
               = (true, false, false)).
  { rewrite class_flags_spec. unfold spec_length_class.
    destruct (Rle_dec 0.02 0.05); [reflexivity|]. exfalso. lra. }
  assert (H2 : (is_short 0.07, is_medium 0.07, is_long 0.07)
               = (false, true, false)).
  { rewrite class_flags_spec. unfold spec_length_class.
    destruct (Rle_dec 0.07 0.05); [exfalso; lra|].
    destruct (Rle_dec 0.07 0.1); [reflexivity|]. exfalso. lra. }
  injection H1 as S1 M1 L1. injection H2 as S2 M2 L2.
  unfold create_mesh_all_hairs, short_hairs, medium_hairs, long_hairs,
    bucket, sample_hairs.
  simpl. rewrite S1, S2, M1, M2, L1, L2. reflexivity.
Qed.

Lemma sample_rdp_downsized :
  rdp_downsized keep_ends (quality_dict high) sample_coords
                [[0; 1; 2]; [3; 4]]
  = Some [[0; 2]; [3; 4]].
Proof. vm_compute. reflexivity. Qed.

Lemma sample_extraction :
  get_individual_hairs 3 sample_coords sample_bm = Some sample_extracted.
Proof. vm_compute. reflexivity. Qed.

Lemma sample_atlas_complete : atlas_complete sample_atlas.
Proof.
  split.
  - eexists. split; [reflexivity|]. split; [discriminate|].
    repeat constructor; eexists; (split; [reflexivity|discriminate]).
  - eexists. split; [reflexivity|]. split; [discriminate|].
    repeat constructor; eexists; (split; [reflexivity|discriminate]).
Qed.

Lemma sample_zone_rectangle (a b c d : R) : rectangle [[a; b]; [c; d]].
Proof. eexists _, _. split; [reflexivity|]. simpl. lia. Qed.

Lemma sample_group_rectangles (name : string) (wide narrow : zone)
    (width_key : string) (zones : list zone) (z : zone) :
  rectangle wide -> rectangle narrow ->
  dict_get width_key [("wide"%string, [wide]); ("narrow"%string, [narrow])]
  = Some zones ->
  z ∈ zones -> rectangle z.
Proof.
  intros Hw Hn Hget Hz. cbn [dict_get] in Hget.
  destruct (String.eqb "wide" width_key).
  - injection Hget as <-. apply list_elem_of_singleton in Hz. subst z.
    exact Hw.
  - destruct (String.eqb "narrow" width_key); [|discriminate].
    injection Hget as <-. apply list_elem_of_singleton in Hz. subst z.
    exact Hn.
Qed.

Lemma sample_atlas_rectangles : atlas_rectangles sample_atlas.
Proof.
  intros length_key table subdict width_key zones z Ht Hs Hzs Hz.
  unfold sample_atlas in Ht. cbn [dict_get] in Ht.
  destruct (String.eqb "long" length_key).
  - injection Ht as <-. simpl in Hs. apply list_elem_of_singleton in Hs.
    subst subdict.
    eapply (sample_group_rectangles "zone_a"); [| |exact Hzs|exact Hz];
      apply sample_zone_rectangle.
  - destruct (String.eqb "short" length_key); [|discriminate].
    injection Ht as <-. simpl in Hs. apply list_elem_of_singleton in Hs.
    subst subdict.
    eapply (sample_group_rectangles "zone_b"); [| |exact Hzs|exact Hz];
      apply sample_zone_rectangle.
Qed.

Lemma sample_polygons_cover (v : nat) :
  v < length sample_quad_verts ->
  exists l, (v, l) ∈ corners sample_polygons.
Proof.
  intros Hv. exists v. simpl in Hv. unfold corners, sample_polygons. simpl.
  destruct v as [|[|[|[|v]]]]; [| | | |lia];
    repeat first [apply list_elem_of_here|apply list_elem_of_further].
Qed.

Lemma sample_polygons_loops :
  NoDup (corners sample_polygons).*2
  /\ Forall (fun l => l < length sample_uv_layer) (corners sample_polygons).*2.
Proof.
  split.
  - apply (NoDup_seq 0 4).
  - repeat constructor.
Qed.

Lemma sample_perpendicular_shape : shape 1 2 sample_perpendicular.
Proof. split; [reflexivity|repeat constructor]. Qed.

Lemma sample_new_verts :
  exists new_verts new_verts_parallel,
    compute_new_ver_coordinaes 2 sample_hair_coords sample_normals
                               sample_perpendicular
    = Some (new_verts, new_verts_parallel).
Proof.
  destruct (compute_new_ver_coordinaes_counts 1 2 sample_hair_coords
              sample_normals sample_perpendicular ltac:(lia)
              sample_hair_coords_shape sample_normals_shape
              sample_perpendicular_shape) as (nv & nvp & H & _).
  eauto.
Qed.

Lemma two_cards_cover (v : nat) :
  v < length two_cards -> exists l, (v, l) ∈ corners two_cards_polygons.
Proof.
  intros Hv. exists v. simpl in Hv. unfold corners, two_cards_polygons.
  simpl.
  destruct v as [|[|[|[|[|[|[|[|v]]]]]]]]; [| | | | | | | |lia];
    repeat first [apply list_elem_of_here|apply list_elem_of_further].
Qed.

Lemma two_cards_run :
  exists data',
    set_vert_group_uvs sample_atlas 2 two_cards
                       (create_vert_loop_dict two_cards_polygons)
                       (fun _ => 0) two_cards_uv_layer = Some data'.
Proof.
  destruct (set_vert_group_uvs_total sample_atlas 2 2 two_cards
              two_cards_polygons (fun _ => 0) two_cards_uv_layer)
    as (data' & Hrun & _); [lia|reflexivity|exact sample_atlas_complete
                           |exact sample_atlas_rectangles
                           |exact two_cards_cover|eauto].
Qed.

Lemma norm_on_x_axis (a b : R) :
  norm (vsub (a, 0, 0)%R (b, 0, 0)%R) = Rabs (a - b).
Proof.
  unfold norm, vsub.
  replace ((a - b) * (a - b) + (0 - 0) * (0 - 0) + (0 - 0) * (0 - 0))%R
    with (Rsqr (a - b)) by (unfold Rsqr; ring).
  apply sqrt_Rsqr_abs.
Qed.

(** The zones of the two cards: the first is long and wide, the second
    short and narrow, each measured on its own four vertices. *)
Example two_cards_zones :
  card_zone sample_atlas 2 two_cards (fun _ => 0) 0 = Some zone_long_wide
  /\ card_zone sample_atlas 2 two_cards (fun _ => 0) 4
     = Some zone_short_narrow.
Proof.
  assert (A1 : Rgtb (Rabs (0 - 1)) 0.05 = true).
  { apply Rgtb_true. unfold Rabs. destruct (Rcase_abs _); lra. }
  assert (A2 : Rgtb (Rabs (0 - 0.5)) 0.02 = true).
  { apply Rgtb_true. unfold Rabs. destruct (Rcase_abs _); lra. }
  assert (B1 : Rgtb (Rabs (0 - 0.03)) 0.05 = false).
  { unfold Rgtb. destruct (Rlt_dec _ _) as [H|H]; [|reflexivity].
    exfalso. revert H. unfold Rabs. destruct (Rcase_abs _); lra. }
  assert (B2 : Rgtb (Rabs (0 - 0.005)) 0.01 = false).
  { unfold Rgtb. destruct (Rlt_dec _ _) as [H|H]; [|reflexivity].
    exfalso. revert H. unfold Rabs. destruct (Rcase_abs _); lra. }
  unfold card_zone, hair_verts_at, two_cards, measure.
  cbn [drop take Nat.mul Nat.add lookup list_lookup last mbind option_bind
       fst snd].
  rewrite !norm_on_x_axis. unfold choose_zone.
  rewrite A1, A2, B1, B2. split; reflexivity.
Qed.

Lemma sample_point_shapes :
  shape 1 1 sample_point_coords /\ shape 1 1 sample_point_normals.
Proof. split; (split; [reflexivity|repeat constructor]). Qed.

End MoreSampleFacts.

Section MoreWitnesses.

Import Numeric QuadStrip Strands Topology Classifier CreateMesh Ribbon
       Haircap UVZones Completion UVLayout Samples MoreSamples.

(** X1 on the sample mesh: its two strands share no vertex and each starts
    at a tip. *)
Lemma strands_disjoint_any_mesh_witness :
  NoDup (concat sample_extracted.*1)
  /\ Forall (starts_at_tip sample_bm) sample_extracted.*1.
Proof.
  apply (strands_disjoint_any_mesh 3 sample_coords sample_bm).
  exact sample_extraction.
Defined.

(** X2 on the sample mesh. *)
Lemma strands_tips_at_ends_witness :
  Forall (tips_at_ends sample_bm) sample_extracted.*1.
Proof.
  apply (strands_tips_at_ends 3 sample_coords sample_bm).
  exact sample_extraction.
Defined.

(** X4 on the two sample strands, simplified to their ends: one object,
    under the key 2, built from both strands. *)
Lemma create_mesh_objects_witness :
  exists objs,
    create_mesh (fun v => v) keep_ends high sample_coords
                sample_vertex_normals sample_hairs = Some objs
    /\ NoDup objs.*1
    /\ (forall k, k ∈ objs.*1
                  <-> exists h, h ∈ [[0; 2]; [3; 4]] /\ length h = k)
    /\ forall k verts faces, (k, (verts, faces)) ∈ objs ->
         let n := length (filter (fun h => length h = k)
                                 [[0; 2]; [3; 4]]) in
         1 <= n /\ 1 <= k
         /\ length verts = 4 * n * k /\ length faces = 2 * n * (k - 1).
Proof.
  destruct (create_mesh_total (fun v => v) keep_ends high sample_coords
              sample_vertex_normals sample_hairs keep_ends_mask_ok
              sample_hairs_in_range) as [objs Hobjs].
  exists objs. split; [exact Hobjs|].
  apply (create_mesh_objects (fun v => v) keep_ends high sample_coords
           sample_vertex_normals sample_hairs [[0; 1; 2]; [3; 4]]
           [[0; 2]; [3; 4]] objs).
  - exact sample_all_hairs.
  - exact sample_rdp_downsized.
  - exact Hobjs.
Defined.

(** X5 on the two sample strands: [0; 1; 2] loses its middle point. *)
Lemma simplified_strands_are_sublists_witness :
  Forall (fun d => exists h, h ∈ sample_hairs.*1 /\ d `sublist_of` h)
         [[0; 2]; [3; 4]].
Proof.
  apply (simplified_strands_are_sublists keep_ends high sample_coords
           sample_hairs [[0; 1; 2]; [3; 4]]).
  - exact sample_all_hairs.
  - exact sample_rdp_downsized.
Defined.

(** X6 on the two sample strands. *)
Lemma create_mesh_succeeds_witness :
  exists objs,
    create_mesh (fun v => v) keep_ends high sample_coords
                sample_vertex_normals sample_hairs = Some objs.
Proof.
  apply (create_mesh_succeeds (fun v => v) keep_ends high sample_coords
           sample_vertex_normals sample_hairs).
  - exact keep_ends_mask_ok.
  - exact sample_hairs_in_range.
Defined.

(** X7 on the sample mesh. *)
Lemma extract_then_create_mesh_witness :
  exists hairs objs,
    get_individual_hairs 3 sample_coords sample_bm = Some hairs
    /\ create_mesh (fun v => v) keep_ends high sample_coords
                   sample_vertex_normals hairs = Some objs.
Proof.
  apply (extract_then_create_mesh (fun v => v) keep_ends high sample_paths
           sample_bm 3 sample_coords sample_vertex_normals).
  - exact sample_strand_mesh.
  - simpl. lia.
  - simpl. lia.
  - repeat constructor.
  - exact keep_ends_mask_ok.
Defined.

(** X9 on the sample strand: the perpendicular at its last point comes
    from the step between its two points. *)
Lemma perpendicular_is_orthogonal_witness :
  exists normal a b,
    at2 sample_normals 0 1 = Some normal
    /\ at2 sample_hair_coords 0 (Nat.min 1 (2 - 2)) = Some a
    /\ at2 sample_hair_coords 0 (Nat.min 1 (2 - 2) + 1) = Some b
    /\ at2 (calculate_perpendicular_vec (fun v => v) 2 sample_hair_coords
                                        sample_normals) 0 1
       = Some (cross normal (vsub b a))
    /\ dot normal (cross normal (vsub b a)) = 0%R
    /\ dot (vsub b a) (cross normal (vsub b a)) = 0%R.
Proof.
  apply (perpendicular_is_orthogonal (fun v => v) 1 2 sample_hair_coords
           sample_normals 0 1).
  - lia.
  - exact sample_hair_coords_shape.
  - exact sample_normals_shape.
  - lia.
  - lia.
Defined.

(** X10 for strands of two points. *)
Lemma segment_correction_tapers_witness :
  length (calculate_segment_correction 2) = 2
  /\ (forall j a, calculate_segment_correction 2 !! j = Some a ->
        (0.01 <= a < 0.03)%R)
  /\ (forall j a b,
        calculate_segment_correction 2 !! j = Some a ->
        calculate_segment_correction 2 !! S j = Some b -> (b < a)%R)
  /\ calculate_segment_correction 2 !! (2 - 1) = Some 0.01%R.
Proof.
  apply (segment_correction_tapers 2). lia.
Defined.

(** X11 on the sample strand. *)
Lemma every_vertex_on_a_face_witness :
  exists all_verts all_faces,
    create_mesh_group (fun v => v) 2 sample_hair_coords sample_normals
    = Some (all_verts, all_faces)
    /\ forall v, v < length all_verts ->
         exists q, In q all_faces /\ In (Z.of_nat v) (quad_indices q).
Proof.
  apply (every_vertex_on_a_face (fun v => v) 1 2).
  - lia.
  - exact sample_hair_coords_shape.
  - exact sample_normals_shape.
  - simpl. lia.
Defined.

(** X13 on the sample haircap. *)
Lemma add_haircap_colors_off_boundary_witness :
  length sample_cap_painted = length sample_cap_data
  /\ forall v, ~ on_boundary sample_cap_edges v ->
       (forall co, sample_cap_points !! v = Some co ->
          exists a,
            vg_aggregate_of 2 [group_a; group_b] !! co = Some a
            /\ sample_cap_painted !! v = Some (a, a, a, 1%Q))
       /\ (length sample_cap_points <= v ->
           sample_cap_painted !! v = sample_cap_data !! v).
Proof.
  apply (add_haircap_colors_off_boundary nat (fun v => v) 2
           [group_a; group_b] sample_cap_points sample_cap_edges
           sample_cap_data sample_cap_painted).
  vm_compute. reflexivity.
Defined.

(** X14 on body vertex 0 of the sample groups: the sum of the binary32
    values stored for 0.3 and 0.4, and the density it gives. *)
Lemma density_bounds_witness :
  (0 <= 11744051 # 16777216)%Q /\ (11744051 # 16777216 <= 1)%Q
  /\ ((0 <= 2936013 # 4194304)%Q -> (2936013 # 4194304 <= 1)%Q ->
      (Qabs ((11744051 # 16777216) - (2936013 # 4194304))
       <= 251 # 5000000)%Q).
Proof.
  apply (density_bounds 2 [group_a; group_b] 0).
  - vm_compute. reflexivity.
  - vm_compute. reflexivity.
Defined.

(** X15 on the sample quad. *)
Lemma set_vert_group_uvs_completes_witness :
  (exists data',
     set_vert_group_uvs sample_atlas 2 sample_quad_verts
                        (create_vert_loop_dict sample_polygons) (fun _ => 0)
                        sample_uv_layer = Some data'
     /\ List.length data' = List.length sample_uv_layer)
  /\ forall c, c < 1 ->
       exists z,
         card_zone sample_atlas 2 sample_quad_verts (fun _ => 0) (c * (2 * 2))
         = Some z
         /\ rectangle z.
Proof.
  apply (set_vert_group_uvs_completes sample_atlas 2 1 sample_quad_verts
           sample_polygons (fun _ => 0) sample_uv_layer).
  - lia.
  - reflexivity.
  - exact sample_atlas_complete.
  - exact sample_atlas_rectangles.
  - exact sample_polygons_cover.
Defined.

(** X17 on the sample quad. *)
Lemma uv_layer_after_set_vert_group_uvs_witness :
  exists data',
    set_vert_group_uvs sample_atlas 2 sample_quad_verts
                       (create_vert_loop_dict sample_polygons) (fun _ => 0)
                       sample_uv_layer = Some data'
    /\ List.length data' = List.length sample_uv_layer
    /\ (forall c, c < 1 ->
          card_painted sample_atlas 2 sample_quad_verts (fun _ => 0)
                       sample_polygons (c * (2 * 2)) data')
    /\ (forall l,
          (forall v, v < List.length sample_quad_verts ->
                     l ∉ loops_of sample_polygons v) ->
          data' !! l = sample_uv_layer !! l).
Proof.
  destruct (set_vert_group_uvs_total sample_atlas 2 1 sample_quad_verts
              sample_polygons (fun _ => 0) sample_uv_layer)
    as (data' & Hrun & _).
  - lia.
  - reflexivity.
  - exact sample_atlas_complete.
  - exact sample_atlas_rectangles.
  - exact sample_polygons_cover.
  - exists data'. split; [exact Hrun|].
    apply (uv_layer_after_set_vert_group_uvs sample_atlas 2 1
             sample_quad_verts sample_polygons (fun _ => 0)
             sample_uv_layer data').
    + lia.
    + reflexivity.
    + exact (proj1 sample_polygons_loops).
    + exact (proj2 sample_polygons_loops).
    + exact Hrun.
Defined.

(** X18 on the sample strand. *)
Lemma add_uvs_on_created_object_witness :
  exists all_verts all_faces data',
    create_mesh_group (fun v => v) 2 sample_hair_coords sample_normals
    = Some (all_verts, all_faces)
    /\ add_uvs_object sample_atlas 2
         {| obj_vertices := all_verts;
            obj_polygons := polygons_of_faces all_faces |} (fun _ => 0)
       = Some data'
    /\ List.length data' = 4 * List.length all_faces.
Proof.
  apply (add_uvs_on_created_object (fun v => v) 1 2).
  - lia.
  - exact sample_hair_coords_shape.
  - exact sample_normals_shape.
  - simpl. lia.
  - exact sample_atlas_complete.
  - exact sample_atlas_rectangles.
Defined.

(** X19 for a card of two rows on a zone between 0 and 1. *)
Lemma rows_span_the_zone_witness :
  pair_v 0 1 2 0 = 0%R
  /\ pair_v 0 1 2 (2 - 1) = 1%R
  /\ (forall j, j <= 2 - 1 -> (0 <= 1)%R ->
        (0 <= pair_v 0 1 2 j <= 1)%R)
  /\ (forall j j', j < j' -> (0 < 1)%R ->
        (pair_v 0 1 2 j < pair_v 0 1 2 j')%R).
Proof.
  apply (rows_span_the_zone 0 1 2). lia.
Defined.

(** X20 on a strand of one point. *)
Lemma one_point_cards_are_passed_over_witness :
  exists all_verts,
    create_mesh_group (fun v => v) 1 sample_point_coords
                      sample_point_normals
    = Some (all_verts, [])
    /\ all_verts <> []
    /\ add_uvs_object sample_atlas 1
         {| obj_vertices := all_verts;
            obj_polygons := polygons_of_faces [] |} (fun _ => 0)
       = Some []
    /\ forall vert_loop_dict data,
         set_vert_group_uvs sample_atlas 1 all_verts vert_loop_dict
                            (fun _ => 0) data = None.
Proof.
  apply (one_point_cards_are_passed_over (fun v => v) 1).
  - lia.
  - exact (proj1 sample_point_shapes).
  - exact (proj2 sample_point_shapes).
Defined.

(** X21 on the sample strand. *)
Lemma every_loop_lands_in_a_zone_witness :
  exists all_verts all_faces data',
    create_mesh_group (fun v => v) 2 sample_hair_coords sample_normals
    = Some (all_verts, all_faces)
    /\ add_uvs_object sample_atlas 2
         {| obj_vertices := all_verts;
            obj_polygons := polygons_of_faces all_faces |} (fun _ => 0)
       = Some data'
    /\ List.length data' = 4 * List.length all_faces
    /\ (forall l, l < List.length data' ->
          exists v, (v, l) ∈ corners (polygons_of_faces all_faces))
    /\ forall v l,
         (v, l) ∈ corners (polygons_of_faces all_faces) ->
         v < List.length all_verts
         /\ exists bottom_left top_right x_min y_min x_max y_max,
              card_zone sample_atlas 2 all_verts (fun _ => 0)
                        (v / (2 * 2) * (2 * 2))
              = Some [bottom_left; top_right]
              /\ bottom_left !! 0 = Some x_min
              /\ bottom_left !! 1 = Some y_min
              /\ top_right !! 0 = Some x_max /\ top_right !! 1 = Some y_max
              /\ data' !! l
                 = Some (if v mod (2 * 2) <? 2 then x_max else x_min,
                         pair_v y_min y_max 2
                                (if v mod (2 * 2) <? 2 then v mod (2 * 2)
                                 else 2 * 2 - 1 - v mod (2 * 2))).
Proof.
  destruct (created_object_runs_add_uvs (fun v => v) 1 2 sample_hair_coords
              sample_normals sample_atlas (fun _ => 0))
    as (all_verts & all_faces & data' & Hb & Hrun & _).
  - lia.
  - exact sample_hair_coords_shape.
  - exact sample_normals_shape.
  - simpl. lia.
  - exact sample_atlas_complete.
  - exact sample_atlas_rectangles.
  - exists all_verts, all_faces, data'.
    split; [exact Hb|]. split; [exact Hrun|].
    apply (every_loop_lands_in_a_zone (fun v => v) 1 2 sample_hair_coords
             sample_normals sample_atlas (fun _ => 0) all_verts all_faces
             data').
    + lia.
    + exact sample_hair_coords_shape.
    + exact sample_normals_shape.
    + simpl. lia.
    + exact Hb.
    + exact Hrun.
Defined.

(** X22 on the sample strand: the vertices built for its first point. *)
Lemma ribbon_vertex_layout_witness :
  exists new_verts new_verts_parallel,
    compute_new_ver_coordinaes 2 sample_hair_coords sample_normals
                               sample_perpendicular
    = Some (new_verts, new_verts_parallel)
    /\ let s := (0.01 + INR (2 - 1 - 0) * (0.02 / INR 2))%R in
       let lc := row_length_correction [(0, 0, 0); (0, 0, 1)]%R in
       new_verts !! (0 * (2 * 2) + 0)
       = Some (vsub (0, 0, 1)%R
                    (perpendicular_offset_at s (0, 1, 0)%R lc))
       /\ new_verts !! (0 * (2 * 2) + 2 + 0)
          = Some (vadd (0, 0, 0)%R
                       (perpendicular_offset_at s (0, 1, 0)%R lc))
       /\ new_verts_parallel !! (0 * (2 * 2) + 0)
          = Some (vadd (0, 0, 0)%R
                       (head_normal_offset_at s (1, 0, 0)%R lc))
       /\ new_verts_parallel !! (0 * (2 * 2) + 2 + 0)
          = Some (vsub (0, 0, 0)%R
                       (head_normal_offset_at s (1, 0, 0)%R lc)).
Proof.
  destruct sample_new_verts as (nv & nvp & H).
  exists nv, nvp. split; [exact H|].
  apply (ribbon_vertex_layout 2 sample_hair_coords sample_normals
           sample_perpendicular nv nvp 0 0
           [(0, 0, 0); (0, 0, 1)]%R [(1, 0, 0); (1, 0, 0)]%R
           [(0, 1, 0); (0, 1, 0)]%R).
  - exact H.
  - reflexivity.
  - reflexivity.
  - reflexivity.
  - reflexivity.
  - reflexivity.
  - reflexivity.
  - reflexivity.
  - apply (calculate_segment_correction_lookup 2 0). lia.
Defined.

(** X23 on the sample strand: the four corners of its only segment. *)
Lemma face_corners_witness :
  exists new_verts new_verts_parallel,
    compute_new_ver_coordinaes 2 sample_hair_coords sample_normals
                               sample_perpendicular
    = Some (new_verts, new_verts_parallel)
    /\ let row := [(0, 0, 0); (0, 0, 1)]%R in
       let nrow := [(1, 0, 0); (1, 0, 0)]%R in
       let prow := [(0, 1, 0); (0, 1, 0)]%R in
       (corner_of new_verts 0
        = Some (vsub (strand_point row (2 - 1 - 0))
                     (perpendicular_offset_of 2 row prow 0))
        /\ corner_of new_verts 1
           = Some (vsub (strand_point row (2 - 2 - 0))
                        (perpendicular_offset_of 2 row prow (0 + 1)))
        /\ corner_of new_verts 2
           = Some (vadd (strand_point row (2 - 2 - 0))
                        (perpendicular_offset_of 2 row prow (2 - 2 - 0)))
        /\ corner_of new_verts 3
           = Some (vadd (strand_point row (2 - 1 - 0))
                        (perpendicular_offset_of 2 row prow (2 - 1 - 0))))
       /\ (corner_of new_verts_parallel 0
           = Some (vadd (strand_point row 0)
                        (head_normal_offset_of 2 row nrow 0))
           /\ corner_of new_verts_parallel 1
              = Some (vadd (strand_point row (0 + 1))
                           (head_normal_offset_of 2 row nrow (0 + 1)))
           /\ corner_of new_verts_parallel 2
              = Some (vsub (strand_point row (2 - 2 - 0))
                           (head_normal_offset_of 2 row nrow (2 - 2 - 0)))
           /\ corner_of new_verts_parallel 3
              = Some (vsub (strand_point row (2 - 1 - 0))
                           (head_normal_offset_of 2 row nrow (2 - 1 - 0)))).
Proof.
  destruct sample_new_verts as (nv & nvp & H).
  exists nv, nvp. split; [exact H|].
  apply (face_corners 2 sample_hair_coords sample_normals
           sample_perpendicular nv nvp 0 0
           [(0, 0, 0); (0, 0, 1)]%R [(1, 0, 0); (1, 0, 0)]%R
           [(0, 1, 0); (0, 1, 0)]%R 0 1 2 3).
  - exact H.
  - reflexivity.
  - reflexivity.
  - reflexivity.
  - lia.
  - reflexivity.
Defined.

(** C7 on the two cards. *)
Lemma uv_zone_from_matching_bucket_witness :
  exists data',
    set_vert_group_uvs sample_atlas 2 two_cards
                       (create_vert_loop_dict two_cards_polygons)
                       (fun _ => 0) two_cards_uv_layer = Some data'
    /\ forall c, c * (2 * 2) < List.length two_cards ->
         exists first mid final z bottom_left top_right,
           two_cards !! (c * (2 * 2)) = Some first
           /\ two_cards !! (c * (2 * 2) + 2) = Some mid
           /\ two_cards !! (Nat.min (c * (2 * 2) + 2 * 2)
                                    (List.length two_cards) - 1)
              = Some final
           /\ card_zone sample_atlas 2 two_cards (fun _ => 0) (c * (2 * 2))
              = Some z
           /\ z = [bottom_left; top_right]
           /\ from_matching_bucket sample_atlas
                (euclidean_distance first mid)
                (euclidean_distance first final) z.
Proof.
  destruct two_cards_run as [data' Hrun].
  exists data'. split; [exact Hrun|].
  apply (uv_zone_from_matching_bucket sample_atlas 2 two_cards
           (create_vert_loop_dict two_cards_polygons) (fun _ => 0)
           two_cards_uv_layer data').
  exact Hrun.
Defined.

End MoreWitnesses.
